(** * Partition pruning in pg_pathman (pg_pathman.c)

    A shallow embedding of the expression walker, the RANGE and HASH
    selectors and the residual-expression rebuilder of pg_pathman.c, and
    of what gives a partition its restrictions, its column translation
    list and its column privileges, followed by the properties
    established for them.

    Conventions of the embedding:
    - a [Datum] is a machine word, read as an integer;
    - a C [double] is a binary64 float of the kernel ([PrimFloat]);
    - a C array is a list, read with [nth_error];
    - an out-parameter [WrapperNode *result] is a node passed in and
      returned updated;
    - [elog(ERROR, ...)] and reads outside an array end the call with
      [Error];
    - [Assert] is compiled out, as in a production build. *)

From Stdlib Require Import String ZArith List Bool Lia.
From Stdlib Require Import Floats.PrimFloat Numbers.Cyclic.Int63.Uint63.
Import ListNotations.
Set Warnings "-register-all".
Local Open Scope Z_scope.

(** ** Errors *)

Inductive res (A : Type) : Type :=
| OK (a : A)
| Error (msg : string).
Arguments OK {A} a.
Arguments Error {A} msg%_string.

Definition bind {A B : Type} (m : res A) (k : A -> res B) : res B :=
  match m with
  | OK a => k a
  | Error msg => Error msg
  end.

Notation "'do' x <- m ; k" := (bind m (fun x => k))
  (at level 10, x name, m at level 100, k at level 200).

(** ** PostgreSQL base types and nodes *)

Definition Oid := Z.
Definition Datum := Z.

(** [InvalidOid] of postgres_ext.h. *)
Definition InvalidOid : Oid := 0.

(** Modelled from the spec: the type of a boolean constant (4.5); the number
    is BOOLOID of catalog/pg_type.h, which is not under src/. *)
Definition BOOLOID : Oid := 16.

(** [BoolGetDatum] of postgres.h: false is the zero word, true is 1. *)
Definition BoolGetDatum (b : bool) : Datum := if b then 1 else 0.

(** [DatumGetInt32] of postgres.h, [(int32) X]: the low 32 bits of the
    word, read as a signed number. *)
Definition DatumGetInt32 (X : Datum) : Z := (X + 2 ^ 31) mod 2 ^ 32 - 2 ^ 31.

(** Modelled from the spec: the five comparison operators of 4.3, with the
    numbers of access/stratnum.h (not under src/); 0 is "no strategy". *)
Definition BTLessStrategyNumber : Z := 1.
Definition BTLessEqualStrategyNumber : Z := 2.
Definition BTEqualStrategyNumber : Z := 3.
Definition BTGreaterEqualStrategyNumber : Z := 4.
Definition BTGreaterStrategyNumber : Z := 5.

(** A comparison function once looked up: called with a collation and two
    values, it answers negative, zero or positive. *)
Definition FmgrInfo := Oid -> Datum -> Datum -> Z.

Record Const := mkConst {
  consttype : Oid;
  consttypmod : Z;
  constcollid : Oid;
  constvalue : Datum;
  constisnull : bool
}.

Record Param := mkParam {
  paramid : Z;
  paramtype : Oid;
  paramtypmod : Z;
  paramcollid : Oid
}.

Inductive BoolExprType := AND_EXPR | OR_EXPR | NOT_EXPR.

(** The predicate tree.  [T_Other] stands for every node kind the walker
    does not look into. *)
Inductive Expr : Type :=
| T_Const (c : Const)
| T_Param (p : Param)
| T_Var (varattno : Z)
| T_BoolExpr (boolop : BoolExprType) (args : list Expr) (location : Z)
| T_OpExpr (opno : Oid) (args : list Expr)
| T_ScalarArrayOpExpr (opno : Oid) (useOr : bool) (exprnode arraynode : Expr)
| T_Other (tag : Z).

(** A constant array once deconstructed: element type, values and null
    flags. *)
Record ArrayType := mkArrayType {
  ARR_ELEMTYPE : Oid;
  elem_values : list (Datum * bool)
}.

(** ** Bounds and index ranges (pathman.h, rangeset.h) *)

(** Modelled from the spec: Bound (pathman.h, not under src/), a finite
    scalar or plus or minus infinity (3, 4.1). *)
Inductive Bound :=
| MINUS_INFINITY
| FINITE (value : Datum)
| PLUS_INFINITY.

Definition MakeBound (value : Datum) : Bound := FINITE value.

(** Modelled from the spec: cmp_bounds (pathman.h, not under src/), the
    three-way comparison of 4.1: the supplied comparator on finite values,
    with the infinities below and above every finite value. *)
Definition cmp_bounds (cmp_func : FmgrInfo) (collid : Oid) (b1 b2 : Bound) : Z :=
  match b1, b2 with
  | MINUS_INFINITY, MINUS_INFINITY => 0
  | MINUS_INFINITY, _ => -1
  | PLUS_INFINITY, PLUS_INFINITY => 0
  | PLUS_INFINITY, _ => 1
  | FINITE _, MINUS_INFINITY => 1
  | FINITE _, PLUS_INFINITY => -1
  | FINITE v1, FINITE v2 => cmp_func collid v1 v2
  end.

(** Modelled from the spec: RangeEntry (pathman.h, not under src/), the
    [min, max) bounds of one partition (3). *)
Record RangeEntry := mkRangeEntry {
  min : Bound;
  max : Bound
}.

(** Modelled from the spec: IndexRange of rangeset.h (not under src/), a
    span of partition indices with its tag (3). *)
Inductive IRangeTag := IR_COMPLETE | IR_LOSSY.

Record IndexRange := make_irange {
  irange_lower : Z;
  irange_upper : Z;
  irange_tag : IRangeTag
}.

Definition is_lossy (t : IRangeTag) : bool :=
  match t with IR_LOSSY => true | IR_COMPLETE => false end.

Definition tag_eqb (a b : IRangeTag) : bool := eqb (is_lossy a) (is_lossy b).

(** ** The annotated tree *)

Inductive WrapperNode : Type := mkWrapperNode {
  orig : option Expr;
  args : list WrapperNode;
  rangeset : list IndexRange;
  found_gap : bool;
  paramsel : float
}.

(** [palloc0(sizeof(WrapperNode))]. *)
Definition palloc0_WrapperNode : WrapperNode :=
  mkWrapperNode None [] [] false 0%float.

Definition set_orig (w : WrapperNode) (e : Expr) : WrapperNode :=
  mkWrapperNode (Some e) (args w) (rangeset w) (found_gap w) (paramsel w).
Definition set_args (w : WrapperNode) (a : list WrapperNode) : WrapperNode :=
  mkWrapperNode (orig w) a (rangeset w) (found_gap w) (paramsel w).
Definition set_rangeset (w : WrapperNode) (rs : list IndexRange) : WrapperNode :=
  mkWrapperNode (orig w) (args w) rs (found_gap w) (paramsel w).
Definition set_found_gap (w : WrapperNode) (g : bool) : WrapperNode :=
  mkWrapperNode (orig w) (args w) (rangeset w) g (paramsel w).
Definition set_paramsel (w : WrapperNode) (s : float) : WrapperNode :=
  mkWrapperNode (orig w) (args w) (rangeset w) (found_gap w) s.

(** ** RANGE partition pruning: select_range_partitions *)

(** [ranges[i]]; [None] outside the array. *)
Definition ranges_at (ranges : list RangeEntry) (i : Z) : option RangeEntry :=
  if i <? 0 then None else nth_error ranges (Z.to_nat i).

(** How the binary search loop is left. *)
Inductive loop_exit :=
| LoopBreak (i : Z) (lossy : bool)
| LoopGap
| LoopBadIndex (i : Z)
| LoopNoFuel.

Definition is_less_at (strategy cmp_min : Z) : bool :=
  (cmp_min <? 0) || ((cmp_min =? 0) && (strategy =? BTLessStrategyNumber)).

Definition is_greater_at (strategy cmp_max : Z) : bool :=
  (cmp_max >? 0) || ((cmp_max >=? 0) && negb (strategy =? BTLessStrategyNumber)).

Definition lossy_at (strategy cmp_min cmp_max : Z) : bool :=
  if (strategy =? BTGreaterEqualStrategyNumber) && (cmp_min =? 0) then false
  else if (strategy =? BTLessStrategyNumber) && (cmp_max =? 0) then false
  else true.

(** The [while (true)] loop; one unit of fuel per iteration.  The pivot is
    computed with C's truncating division.  The indices stay within
    [-1, nranges), so the C [int] arithmetic on them never wraps. *)
Fixpoint range_search (fuel : nat) (value_bound : Bound) (collid : Oid)
    (cmp_func : FmgrInfo) (ranges : list RangeEntry) (strategy : Z)
    (startidx endidx : Z) : loop_exit :=
  match fuel with
  | O => LoopNoFuel
  | S fuel' =>
    let i := startidx + Z.quot (endidx - startidx) 2 in
    match ranges_at ranges i with
    | None => LoopBadIndex i
    | Some r =>
      let cmp_min := cmp_bounds cmp_func collid value_bound (min r) in
      let cmp_max := cmp_bounds cmp_func collid value_bound (max r) in
      let is_less := is_less_at strategy cmp_min in
      let is_greater := is_greater_at strategy cmp_max in
      if negb is_less && negb is_greater then
        LoopBreak i (lossy_at strategy cmp_min cmp_max)
      else if startidx >=? endidx then LoopGap
      else if is_less then
        range_search fuel' value_bound collid cmp_func ranges strategy
                     startidx (i - 1)
      else if is_greater then
        range_search fuel' value_bound collid cmp_func ranges strategy
                     (i + 1) endidx
      else
        range_search fuel' value_bound collid cmp_func ranges strategy
                     startidx endidx
    end
  end.

(** The [switch (strategy)] that follows the loop. *)
Definition filter_partitions (strategy nranges i : Z) (lossy : bool)
    : res (list IndexRange) :=
  if (strategy =? BTLessStrategyNumber)
     || (strategy =? BTLessEqualStrategyNumber) then
    if lossy then
      let rangeset := [make_irange i i IR_LOSSY] in
      if i >? 0 then OK (make_irange 0 (i - 1) IR_COMPLETE :: rangeset)
      else OK rangeset
    else OK [make_irange 0 i IR_COMPLETE]
  else if strategy =? BTEqualStrategyNumber then
    OK [make_irange i i IR_LOSSY]
  else if (strategy =? BTGreaterEqualStrategyNumber)
          || (strategy =? BTGreaterStrategyNumber) then
    if lossy then
      let rangeset := [make_irange i i IR_LOSSY] in
      if i <? nranges - 1 then
        OK (rangeset ++ [make_irange (i + 1) (nranges - 1) IR_COMPLETE])
      else OK rangeset
    else OK [make_irange i (nranges - 1) IR_COMPLETE]
  else Error "Unknown btree strategy".

Definition select_range_partitions (value : Datum) (collid : Oid)
    (cmp_func : FmgrInfo) (ranges : list RangeEntry) (nranges : Z)
    (strategy : Z) (result : WrapperNode) : res WrapperNode :=
  let startidx := 0 in
  let endidx := nranges - 1 in
  let value_bound := MakeBound value in
  let result := set_found_gap result false in
  if nranges =? 0 then OK (set_rangeset result [])
  else
    match ranges_at ranges startidx, ranges_at ranges endidx with
    | Some rfirst, Some rlast =>
      let cmp_min := cmp_bounds cmp_func collid value_bound (min rfirst) in
      let cmp_max := cmp_bounds cmp_func collid value_bound (max rlast) in
      if ((cmp_min <=? 0) && (strategy =? BTLessStrategyNumber))
         || ((cmp_min <? 0) && ((strategy =? BTLessEqualStrategyNumber)
                                || (strategy =? BTEqualStrategyNumber)))
      then OK (set_rangeset result [])
      else if (cmp_max >=? 0) && ((strategy =? BTGreaterEqualStrategyNumber)
                                  || (strategy =? BTGreaterStrategyNumber)
                                  || (strategy =? BTEqualStrategyNumber))
      then OK (set_rangeset result [])
      else if ((cmp_min <? 0) && (strategy =? BTGreaterStrategyNumber))
              || ((cmp_min <=? 0) && (strategy =? BTGreaterEqualStrategyNumber))
      then OK (set_rangeset result [make_irange startidx endidx IR_COMPLETE])
      else if (cmp_max >=? 0) && ((strategy =? BTLessEqualStrategyNumber)
                                  || (strategy =? BTLessStrategyNumber))
      then OK (set_rangeset result [make_irange startidx endidx IR_COMPLETE])
      else
        match range_search (Z.to_nat nranges) value_bound collid cmp_func
                           ranges strategy startidx endidx with
        | LoopBreak i lossy =>
          do rs <- filter_partitions strategy nranges i lossy;
          OK (set_rangeset result rs)
        | LoopGap => OK (set_found_gap (set_rangeset result []) true)
        | LoopBadIndex _ => Error "ranges[i] read outside the array"
        | LoopNoFuel => Error "binary search did not finish"
        end
    | _, _ => Error "ranges[i] read outside the array"
    end.

(** ** Rangeset algebra (rangeset.c) *)

(** Modelled from the spec: findTag of 4.2 (irange_list_find of rangeset.c,
    not under src/): membership of an index, with the tag of the span that
    holds it, as the pair (found, lossy). *)
Fixpoint irange_list_find (rangeset : list IndexRange) (index : Z) : bool * bool :=
  match rangeset with
  | [] => (false, false)
  | r :: rest =>
    if (irange_lower r <=? index) && (index <=? irange_upper r)
    then (true, is_lossy (irange_tag r))
    else irange_list_find rest index
  end.

(** Modelled from the spec: length of 4.2 (irange_list_length of rangeset.c,
    not under src/): the number of indices covered. *)
Fixpoint irange_list_length (rangeset : list IndexRange) : Z :=
  match rangeset with
  | [] => 0
  | r :: rest => (irange_upper r - irange_lower r + 1) + irange_list_length rest
  end.

Definition irange_tag_at (rangeset : list IndexRange) (index : Z) : option IRangeTag :=
  match irange_list_find rangeset index with
  | (true, true) => Some IR_LOSSY
  | (true, false) => Some IR_COMPLETE
  | (false, _) => None
  end.

(** COMPLETE if either side is COMPLETE at that index, else LOSSY. *)
Definition union_tag (a b : option IRangeTag) : option IRangeTag :=
  match a, b with
  | Some IR_COMPLETE, _ => Some IR_COMPLETE
  | _, Some IR_COMPLETE => Some IR_COMPLETE
  | Some IR_LOSSY, _ => Some IR_LOSSY
  | _, Some IR_LOSSY => Some IR_LOSSY
  | None, None => None
  end.

(** LOSSY unless both sides are COMPLETE at that index. *)
Definition intersect_tag (a b : option IRangeTag) : option IRangeTag :=
  match a, b with
  | Some IR_COMPLETE, Some IR_COMPLETE => Some IR_COMPLETE
  | Some _, Some _ => Some IR_LOSSY
  | _, _ => None
  end.

(** Put one index before a rangeset that starts above it, merging it into an
    adjacent span of the same tag. *)
Definition irange_cons (index : Z) (t : IRangeTag) (rangeset : list IndexRange)
    : list IndexRange :=
  match rangeset with
  | r :: rest =>
    if (irange_lower r =? index + 1) && tag_eqb (irange_tag r) t
    then make_irange index (irange_upper r) t :: rest
    else make_irange index index t :: rangeset
  | [] => [make_irange index index t]
  end.

(** The sorted, merged rangeset of the indices [from, from + count) that a
    pointwise tagging covers. *)
Fixpoint irange_list_of (f : Z -> option IRangeTag) (from : Z) (count : nat)
    : list IndexRange :=
  match count with
  | O => []
  | S n =>
    let rest := irange_list_of f (from + 1) n in
    match f from with
    | Some t => irange_cons from t rest
    | None => rest
    end
  end.

Definition irange_list_bound (rangeset : list IndexRange) : Z :=
  fold_left (fun b r => Z.max b (irange_upper r + 1)) rangeset 0.

(** Modelled from the spec: union of 4.2 (irange_list_union of rangeset.c,
    not under src/). *)
Definition irange_list_union (a b : list IndexRange) : list IndexRange :=
  irange_list_of (fun i => union_tag (irange_tag_at a i) (irange_tag_at b i)) 0
                 (Z.to_nat (Z.max (irange_list_bound a) (irange_list_bound b))).

(** Modelled from the spec: intersect of 4.2 (irange_list_intersection of
    rangeset.c, not under src/). *)
Definition irange_list_intersection (a b : list IndexRange) : list IndexRange :=
  irange_list_of (fun i => intersect_tag (irange_tag_at a i) (irange_tag_at b i)) 0
                 (Z.to_nat (Z.max (irange_list_bound a) (irange_list_bound b))).

(** ** Partitioning metadata and the walker's context *)

(** Modelled from the spec: the scheme's type tag (3, 7); [PT_ANY] is a tag
    that is neither HASH nor RANGE. *)
Inductive PartType := PT_ANY | PT_HASH | PT_RANGE.

(** Modelled from the spec: PartRelationInfo of relation_info.h (not under
    src/), with the fields pg_pathman.c reads (3). *)
Record PartRelationInfo := mkPartRelationInfo {
  parttype : PartType;
  ev_type : Oid;
  ev_collid : Oid;
  hash_proc : Oid;
  children_count : Z;
  ranges : list RangeEntry
}.

Definition PrelChildrenCount (prel : PartRelationInfo) : Z := children_count prel.
Definition PrelGetRangesArray (prel : PartRelationInfo) : list RangeEntry := ranges prel.
Definition PrelLastChild (prel : PartRelationInfo) : Z := PrelChildrenCount prel - 1.

(** Modelled from the spec: list_make1_irange_full of rangeset.h (not under
    src/), the full partition span with the given tag. *)
Definition list_make1_irange_full (prel : PartRelationInfo) (t : IRangeTag)
    : list IndexRange :=
  [make_irange 0 (PrelLastChild prel) t].

(** Modelled from the spec: hash_to_part_index of pathman.h (not under
    src/): the 32-bit hash, read as the unsigned word that [uint32 idx]
    receives, modulo the number of partitions (4.4). *)
Definition hash_to_part_index (value partitions : Z) : Z :=
  (value mod 2 ^ 32) mod partitions.

(** The executor's view of a bound parameter: its value and null flag. *)
Definition ExprContext := Param -> Datum * bool.

Record WalkerContext := mkWalkerContext {
  prel_expr : Expr;
  prel : PartRelationInfo;
  econtext : option ExprContext
}.

Definition WcxtHasExprContext (wcxt : WalkerContext) : bool :=
  match econtext wcxt with Some _ => true | None => false end.

(** What the walker asks of PostgreSQL and of pg_pathman's utils.c: the
    catalog, the function manager and the memory behind array datums. *)
Class PgEnv := {
  match_expr_to_operand : Expr -> Expr -> bool;
  btree_opf : Oid -> Oid;
  get_op_opfamily_strategy : Oid -> Oid -> Z;
  getBaseType : Oid -> Oid;
  perform_type_cast : Datum -> Oid -> Oid -> option Datum;
  OidFunctionCall1 : Oid -> Datum -> Datum;
  fill_type_cmp_fmgr_info : Oid -> Oid -> FmgrInfo;
  DatumGetArrayTypeP : Datum -> ArrayType
}.

(** ** Selectivity *)

Local Open Scope float_scope.

(** The C cast [(double) n] of a count or a length. *)
Definition double_of_int (n : Z) : float := PrimFloat.of_uint63 (Uint63.of_Z n).

(** Modelled from the spec: the fixed default constant for inequalities
    (4.5); the value is DEFAULT_INEQ_SEL of utils/selfuncs.h, 0.3333333333333333. *)
Definition DEFAULT_INEQ_SEL : float := 0x1.5555555555555p-2.

(** Modelled from the spec: the maximum of two selectivities (4.5), as
    [Max(x, y)] of c.h (not under src/) computes it:
    [((x) > (y) ? (x) : (y))]. *)
Definition Max (x y : float) : float := if PrimFloat.ltb y x then x else y.

Definition estimate_paramsel_using_prel (prel : PartRelationInfo) (strategy : Z)
    : float :=
  if (strategy =? BTEqualStrategyNumber)%Z then
    1.0 / double_of_int (PrelChildrenCount prel)
  else
    match parttype prel with
    | PT_RANGE => if (strategy >? 0)%Z then DEFAULT_INEQ_SEL else 1.0
    | _ => 1.0
    end.

(** ** Const handler *)

Definition handle_const `{PgEnv} (c : Const) (strategy : Z)
    (context : WalkerContext) (result : WrapperNode) : res WrapperNode :=
  let prel := prel context in
  let handle_const_return :=
    OK (set_paramsel (set_rangeset result (list_make1_irange_full prel IR_LOSSY))
                     (estimate_paramsel_using_prel prel strategy)) in
  if (strategy =? 0)%Z then handle_const_return
  else if constisnull c then
    OK (set_paramsel (set_rangeset result []) 0.0)
  else if (consttype c =? BOOLOID)%Z then
    if (constvalue c =? BoolGetDatum false)%Z then
      OK (set_paramsel (set_rangeset result []) 0.0)
    else
      OK (set_paramsel (set_rangeset result (list_make1_irange_full prel IR_LOSSY)) 1.0)
  else
    match parttype prel with
    | PT_HASH =>
      if negb (strategy =? BTEqualStrategyNumber)%Z then handle_const_return
      else
        do value <-
          (if negb (ev_type prel =? consttype c)%Z then
             match perform_type_cast (constvalue c) (getBaseType (consttype c))
                                     (getBaseType (ev_type prel)) with
             | Some v => OK v
             | None => Error "Cannot select partition: unable to perform type cast"
             end
           else OK (constvalue c));
        let hash := OidFunctionCall1 (hash_proc prel) value in
        let idx := hash_to_part_index (DatumGetInt32 hash) (PrelChildrenCount prel) in
        OK (set_paramsel (set_rangeset result [make_irange idx idx IR_LOSSY])
                         (estimate_paramsel_using_prel prel strategy))
    | PT_RANGE =>
      if negb (strategy =? BTEqualStrategyNumber)%Z
         && negb (constcollid c =? ev_collid prel)%Z
      then handle_const_return
      else
        let cmp_finfo := fill_type_cmp_fmgr_info (getBaseType (consttype c))
                                                 (getBaseType (ev_type prel)) in
        do result <- select_range_partitions (constvalue c) (constcollid c) cmp_finfo
                       (PrelGetRangesArray prel) (PrelChildrenCount prel)
                       strategy result;
        OK (set_paramsel result (estimate_paramsel_using_prel prel strategy))
    | PT_ANY => Error "Unknown partitioning type"
    end.

(** ** Boolean expression handler *)

(** One iteration of [foreach (lc, expr->args)]. *)
Definition boolexpr_step (walk : Expr -> res WrapperNode) (boolop : BoolExprType)
    (prel : PartRelationInfo) (acc : res WrapperNode) (lc : Expr)
    : res WrapperNode :=
  do result <- acc;
  do arg_result <- walk lc;
  let result := set_args result (args result ++ [arg_result]) in
  match boolop with
  | OR_EXPR =>
    OK (set_rangeset result
          (irange_list_union (rangeset result) (rangeset arg_result)))
  | AND_EXPR =>
    let result := set_rangeset result
          (irange_list_intersection (rangeset result) (rangeset arg_result)) in
    OK (set_paramsel result (paramsel result * paramsel arg_result))
  | NOT_EXPR =>
    OK (set_rangeset result (list_make1_irange_full prel IR_LOSSY))
  end.

(** One iteration of [foreach (lc, result->args)] of the OR branch. *)
Definition or_paramsel_step (totallen : Z) (result arg : WrapperNode) : WrapperNode :=
  let len := irange_list_length (rangeset arg) in
  set_paramsel result
    (paramsel result
     * (1.0 - paramsel arg * double_of_int len / double_of_int totallen)).

Definition handle_boolexpr (walk : Expr -> res WrapperNode) (expr : Expr)
    (boolop : BoolExprType) (eargs : list Expr)
    (context : WalkerContext) (result : WrapperNode) : res WrapperNode :=
  let prel := prel context in
  let result := set_orig result expr in
  let result := set_args result [] in
  let result := set_paramsel result 1.0 in
  let result := set_rangeset result
        (match boolop with
         | AND_EXPR => list_make1_irange_full prel IR_COMPLETE
         | _ => []
         end) in
  do result <- fold_left (boolexpr_step walk boolop prel) eargs (OK result);
  match boolop with
  | OR_EXPR =>
    let totallen := irange_list_length (rangeset result) in
    let result := fold_left (or_paramsel_step totallen) (args result) result in
    OK (set_paramsel result (1.0 - paramsel result))
  | _ => OK result
  end.

(** ** Scalar array expression handler *)

(** One iteration of [for (i = 0; i < num_elems; i++)].  [sub_result] is a
    local node handle_const fills in; only the fields it always sets are
    read. *)
Definition arrexpr_step `{PgEnv} (elemtype : Oid) (useOr : bool) (strategy : Z)
    (nested_wcxt : WalkerContext)
    (acc : res (list IndexRange * WrapperNode)) (elem : Datum * bool)
    : res (list IndexRange * WrapperNode) :=
  do st <- acc;
  let ranges := fst st in
  let result := snd st in
  let c := mkConst elemtype (-1) InvalidOid (fst elem) (snd elem) in
  do sub_result <- handle_const c strategy nested_wcxt palloc0_WrapperNode;
  let ranges :=
    if useOr then irange_list_union ranges (rangeset sub_result)
    else irange_list_intersection ranges (rangeset sub_result) in
  OK (ranges, set_paramsel result (Max (paramsel result) (paramsel sub_result))).

Definition handle_arrexpr `{PgEnv} (expr : Expr) (opno : Oid) (useOr : bool)
    (exprnode arraynode : Expr)
    (context : WalkerContext) (result : WrapperNode) : res WrapperNode :=
  let prel := prel context in
  let result := set_orig result expr in
  let strategy := get_op_opfamily_strategy opno (btree_opf (ev_type prel)) in
  let handle_arrexpr_return :=
    OK (set_paramsel (set_rangeset result (list_make1_irange_full prel IR_LOSSY))
                     (estimate_paramsel_using_prel prel strategy)) in
  if negb (match_expr_to_operand (prel_expr context) exprnode)
  then handle_arrexpr_return
  else
    match arraynode with
    | T_Const ac =>
      if negb (constisnull ac) then
        let arrayval := DatumGetArrayTypeP (constvalue ac) in
        let num_elems := Z.of_nat (length (elem_values arrayval)) in
        let nested_wcxt := context in
        let ranges :=
          if useOr then [] else list_make1_irange_full prel IR_COMPLETE in
        do st <- fold_left
                   (arrexpr_step (ARR_ELEMTYPE arrayval) useOr strategy nested_wcxt)
                   (elem_values arrayval) (OK (ranges, result));
        let result := set_rangeset (snd st) (fst st) in
        OK (if (num_elems =? 0)%Z then set_paramsel result 0.0 else result)
      else handle_arrexpr_return
    | _ => handle_arrexpr_return
    end.

(** ** Operator expression handler *)

(** The other operand when one operand is the partitioning key. *)
Definition is_key_op_param `{PgEnv} (eargs : list Expr) (context : WalkerContext)
    : option Expr :=
  match eargs with
  | left_arg :: right_arg :: _ =>
    if match_expr_to_operand (prel_expr context) left_arg then Some right_arg
    else if match_expr_to_operand (prel_expr context) right_arg then Some left_arg
    else None
  | _ => None
  end.

Definition IsConstValue (node : Expr) (wcxt : WalkerContext) : bool :=
  match node with
  | T_Const _ => true
  | T_Param _ => WcxtHasExprContext wcxt
  | _ => false
  end.

(** Evaluate a Param in the context's [econtext] and wrap it with
    makeConst. *)
Definition extract_const (param : Param) (context : WalkerContext) : res Const :=
  match econtext context with
  | Some ec =>
    let value := fst (ec param) in
    let isnull := snd (ec param) in
    OK (mkConst (paramtype param) (paramtypmod param) (paramcollid param)
                value isnull)
  | None => Error "no expression context"
  end.

Definition ExtractConst (node : Expr) (wcxt : WalkerContext) : res Const :=
  match node with
  | T_Param p => extract_const p wcxt
  | T_Const c => OK c
  | _ => Error "not a Const"
  end.

Definition handle_opexpr `{PgEnv} (expr : Expr) (opno : Oid) (eargs : list Expr)
    (context : WalkerContext) (result : WrapperNode) : res WrapperNode :=
  let prel := prel context in
  let opaque :=
    OK (set_orig (set_paramsel
                    (set_rangeset result (list_make1_irange_full prel IR_LOSSY))
                    1.0) expr) in
  if (Z.of_nat (length eargs) =? 2)%Z then
    match is_key_op_param eargs context with
    | Some param =>
      let strategy := get_op_opfamily_strategy opno (btree_opf (ev_type prel)) in
      if IsConstValue param context then
        do c <- ExtractConst param context;
        do result <- handle_const c strategy context result;
        OK (set_orig result expr)
      else
        match param with
        | T_Param _ | T_Var _ =>
          OK (set_orig (set_paramsel
                          (set_rangeset result (list_make1_irange_full prel IR_LOSSY))
                          (estimate_paramsel_using_prel prel strategy)) expr)
        | _ => opaque
        end
    | None => opaque
    end
  else opaque.

(** ** walk_expr_tree *)

Fixpoint walk_expr_tree `{PgEnv} (expr : Expr) (context : WalkerContext)
    {struct expr} : res WrapperNode :=
  let result := palloc0_WrapperNode in
  match expr with
  | T_Const c => handle_const c BTEqualStrategyNumber context result
  | T_BoolExpr boolop eargs _ =>
    handle_boolexpr (fun e => walk_expr_tree e context) expr boolop eargs
                    context result
  | T_OpExpr opno eargs => handle_opexpr expr opno eargs context result
  | T_ScalarArrayOpExpr opno useOr exprnode arraynode =>
    handle_arrexpr expr opno useOr exprnode arraynode context result
  | _ =>
    let result := set_orig result expr in
    let result := set_args result [] in
    let result := set_rangeset result
          (list_make1_irange_full (prel context) IR_LOSSY) in
    OK (set_paramsel result 1.0)
  end.

(** ** wrapper_make_expression: the residual filter of one partition *)

(** The C function returns a node pointer and sets [*alwaysTrue]; the pair
    is (returned node, alwaysTrue). *)
Definition Exclude : option Expr * bool := (None, false).
Definition NoFilter : option Expr * bool := (None, true).
Definition Filter (e : Expr) : option Expr * bool := (Some e, false).

(** Modelled from the spec: a structural copy of an expression (4.6);
    copyObject of nodes/copyfuncs.c is not under src/. *)
Definition copyObject (e : Expr) : Expr := e.

(** One iteration of [foreach (lc, wrap->args)], given the child's result. *)
Definition collect_arg (acc : res (list Expr)) (child : res (option Expr * bool))
    : res (list Expr) :=
  do args <- acc;
  do r <- child;
  match fst r with
  | Some arg => OK (args ++ [arg])
  | None => OK args
  end.

(** What follows the loop: a single child stands for the whole node. *)
Definition make_boolexpr (boolop : BoolExprType) (location : Z) (args : list Expr)
    : option Expr * bool :=
  match args with
  | [single] => Filter single
  | _ => Filter (T_BoolExpr boolop args location)
  end.

Fixpoint wrapper_make_expression (wrap : WrapperNode) (index : Z)
    {struct wrap} : res (option Expr * bool) :=
  match wrap with
  | mkWrapperNode worig wargs wrangeset _ _ =>
    let fl := irange_list_find wrangeset index in
    let found := fst fl in
    let lossy := snd fl in
    if negb found then OK Exclude
    else if negb lossy then OK NoFilter
    else
      match worig with
      | None => Error "wrap->orig is NULL"
      | Some (T_BoolExpr boolop _ location as e) =>
        match boolop with
        | NOT_EXPR => OK (Filter (copyObject e))
        | _ =>
          do args <- fold_left
                       (fun acc lc => collect_arg acc (wrapper_make_expression lc index))
                       wargs (OK []);
          OK (make_boolexpr boolop location args)
        end
      | Some e => OK (Filter (copyObject e))
      end
  end.

Local Close Scope float_scope.

(** ** The restrictions of a partition (append_child_relation) *)

(** A RestrictInfo of the parent, with its clause. *)
Record RestrictInfo := mkRestrictInfo {
  clause : Expr
}.

(** The loop that gives a partition other than the parent its
    restrictions, [forboth (lc1, wrappers, lc2, parent_rel->baserestrictinfo)],
    from [childquals = NIL]: it ends with the shorter list.  A clause that
    is always true is skipped; any other answer is appended, NULL included
    ([Assert(new_clause)] is compiled out). *)
Fixpoint append_child_quals (wrappers : list WrapperNode)
    (baserestrictinfo : list RestrictInfo) (ir_index : Z)
    (childquals : list (option Expr)) : res (list (option Expr)) :=
  match wrappers, baserestrictinfo with
  | wrap :: wrappers', _ :: baserestrictinfo' =>
    do r <- wrapper_make_expression wrap ir_index;
    let new_clause := fst r in
    let always_true := snd r in
    if always_true
    then append_child_quals wrappers' baserestrictinfo' ir_index childquals
    else append_child_quals wrappers' baserestrictinfo' ir_index
                            (childquals ++ [new_clause])
  | _, _ => OK childquals
  end.

(** ** Column translation between a parent and a partition
       (make_inh_translation_list) *)

(** A row of pg_attribute, with the fields make_inh_translation_list reads. *)
Record FormData_pg_attribute := mkAttribute {
  attname : string;
  atttypid : Oid;
  atttypmod : Z;
  attcollation : Oid;
  attisdropped : bool;
  attinhcount : Z
}.

(** [tupdesc->attrs]: an array of pointers, [None] for a NULL one;
    [natts] is its length. *)
Definition TupleDesc := list (option FormData_pg_attribute).

(** An open relation: its address (what [oldrelation == newrelation]
    compares) and its descriptor. *)
Record Relation := mkRelation {
  rd_address : Z;
  rd_att : TupleDesc
}.

Definition RelationGetDescr (r : Relation) : TupleDesc := rd_att r.

(** The cast [(AttrNumber) x], AttrNumber a 16-bit signed integer. *)
Definition AttrNumber_of (x : Z) : Z := (x + 2 ^ 15) mod 2 ^ 16 - 2 ^ 15.

(** A Var as makeVar builds it, in the order of its arguments. *)
Record Var := makeVar {
  varno : Z;
  varattno : Z;
  vartype : Oid;
  vartypmod : Z;
  varcollid : Oid;
  varlevelsup : Z
}.

(** [tupdesc->attrs[i]]. *)
Definition attrs_at (tupdesc : TupleDesc) (i : Z)
    : option (option FormData_pg_attribute) :=
  if i <? 0 then None else nth_error tupdesc (Z.to_nat i).

(** The test on a candidate column of the child. *)
Definition inherited_match (attname_ : string) (att : FormData_pg_attribute) : bool :=
  negb (attisdropped att) && negb (attinhcount att =? 0)
  && String.eqb attname_ (attname att).

(** [for (new_attno = 0; new_attno < newnatts; new_attno++)]: the first
    matching column from [new_attno] on, with its index. *)
Fixpoint search_inherited (attname_ : string) (new_attrs : TupleDesc)
    (new_attno : Z) : res (option (Z * FormData_pg_attribute)) :=
  match new_attrs with
  | [] => OK None
  | None :: _ => Error "error in function make_inh_translation_list"
  | Some att :: rest =>
    if inherited_match attname_ att then OK (Some (new_attno, att))
    else search_inherited attname_ rest (new_attno + 1)
  end.

(** The search by name when the column at the parent's position does not
    match; it fails when no column is left. *)
Definition search_by_name (attname_ : string) (new_tupdesc : TupleDesc)
    : res (Z * FormData_pg_attribute) :=
  do s <- search_inherited attname_ new_tupdesc 0;
  match s with
  | Some hit => OK hit
  | None => Error "could not find inherited attribute"
  end.

(** The body of the loop over the parent's columns. *)
Definition translate_attribute (same_relation : bool) (new_tupdesc : TupleDesc)
    (newvarno : Z) (old_attno : Z) (old_att : option FormData_pg_attribute)
    : res (option Var) :=
  match old_att with
  | None => Error "old_tupdesc->attrs[old_attno] is NULL"
  | Some att =>
    if attisdropped att then OK None
    else
      let attname_ := attname att in
      let atttypid_ := atttypid att in
      let atttypmod_ := atttypmod att in
      let attcollation_ := attcollation att in
      if same_relation then
        OK (Some (makeVar newvarno (AttrNumber_of (old_attno + 1))
                          atttypid_ atttypmod_ attcollation_ 0))
      else
        do found <-
          (match (if old_attno <? Z.of_nat (length new_tupdesc)
                  then attrs_at new_tupdesc old_attno else None) with
           | Some (Some natt) =>
             if inherited_match attname_ natt then OK (old_attno, natt)
             else search_by_name attname_ new_tupdesc
           | _ => search_by_name attname_ new_tupdesc
           end);
        let new_attno := fst found in
        let natt := snd found in
        if negb (atttypid_ =? atttypid natt) || negb (atttypmod_ =? atttypmod natt)
        then Error "attribute does not match parent's type"
        else if negb (attcollation_ =? attcollation natt)
        then Error "attribute does not match parent's collation"
        else
          OK (Some (makeVar newvarno (AttrNumber_of (new_attno + 1))
                            atttypid_ atttypmod_ attcollation_ 0))
  end.

(** [for (old_attno = 0; old_attno < oldnatts; old_attno++)]. *)
Fixpoint translate_attributes (same_relation : bool) (new_tupdesc : TupleDesc)
    (newvarno : Z) (old_attrs : TupleDesc) (old_attno : Z) (vars : list (option Var))
    : res (list (option Var)) :=
  match old_attrs with
  | [] => OK vars
  | old_att :: rest =>
    do v <- translate_attribute same_relation new_tupdesc newvarno old_attno old_att;
    translate_attributes same_relation new_tupdesc newvarno rest (old_attno + 1)
                         (vars ++ [v])
  end.

Definition make_inh_translation_list (oldrelation newrelation : Relation)
    (newvarno : Z) : res (list (option Var)) :=
  let vars := [] in
  let old_tupdesc := RelationGetDescr oldrelation in
  let new_tupdesc := RelationGetDescr newrelation in
  translate_attributes (rd_address oldrelation =? rd_address newrelation)
                       new_tupdesc newvarno old_tupdesc 0 vars.

(** ** Column privileges of a partition (translate_col_privs) *)

(** What translate_col_privs asks of PostgreSQL: the bitmapsets of
    nodes/bitmapset.c, with NULL the empty set, and the lowest system
    attribute number of access/sysattr.h. *)
Class HeapEnv := {
  Bitmapset : Type;
  bms_NULL : Bitmapset;
  bms_is_member : Z -> Bitmapset -> bool;
  bms_add_member : Bitmapset -> Z -> Bitmapset;
  FirstLowInvalidHeapAttributeNumber : Z
}.

(** The attribute number of a whole-row reference (access/attnum.h). *)
Definition InvalidAttrNumber : Z := 0.

(** [for (attno = FirstLowInvalidHeapAttributeNumber + 1; attno < 0; attno++)];
    one unit of fuel per iteration. *)
Fixpoint copy_system_privs `{HeapEnv} (fuel : nat) (attno : Z)
    (parent_privs child_privs : Bitmapset) : Bitmapset :=
  match fuel with
  | O => child_privs
  | S fuel' =>
    if attno <? 0 then
      let child_privs :=
        if bms_is_member (attno - FirstLowInvalidHeapAttributeNumber) parent_privs
        then bms_add_member child_privs (attno - FirstLowInvalidHeapAttributeNumber)
        else child_privs in
      copy_system_privs fuel' (attno + 1) parent_privs child_privs
    else child_privs
  end.

(** [foreach(lc, translated_vars)]. *)
Fixpoint translate_user_privs `{HeapEnv} (translated_vars : list (option Var))
    (attno : Z) (whole_row : bool) (parent_privs child_privs : Bitmapset)
    : Bitmapset :=
  match translated_vars with
  | [] => child_privs
  | var :: rest =>
    let attno := attno + 1 in
    match var with
    | None => translate_user_privs rest attno whole_row parent_privs child_privs
    | Some v =>
      let child_privs :=
        if whole_row
           || bms_is_member (attno - FirstLowInvalidHeapAttributeNumber) parent_privs
        then bms_add_member child_privs
                            (varattno v - FirstLowInvalidHeapAttributeNumber)
        else child_privs in
      translate_user_privs rest attno whole_row parent_privs child_privs
    end
  end.

Definition translate_col_privs `{HeapEnv} (parent_privs : Bitmapset)
    (translated_vars : list (option Var)) : Bitmapset :=
  let child_privs := bms_NULL in
  let child_privs :=
    copy_system_privs (Z.to_nat (- FirstLowInvalidHeapAttributeNumber))
                      (FirstLowInvalidHeapAttributeNumber + 1)
                      parent_privs child_privs in
  let whole_row :=
    bms_is_member (InvalidAttrNumber - FirstLowInvalidHeapAttributeNumber)
                  parent_privs in
  let attno := InvalidAttrNumber in
  translate_user_privs translated_vars attno whole_row parent_privs child_privs.

(** ** A concrete setting: an int4 key

    Used to run the code on explicit inputs: integer keys compared by
    btint4cmp, the key column [T_Var 1], the usual int4 operators, and one
    constant array in memory. *)

Definition INT4OID : Oid := 23.

Definition btint4cmp : FmgrInfo :=
  fun _ a b =>
    match (a ?= b)%Z with
    | Lt => -1
    | Eq => 0
    | Gt => 1
    end%Z.

Definition int4_strategy (opno : Oid) : Z :=
  if (opno =? 97)%Z then BTLessStrategyNumber
  else if (opno =? 523)%Z then BTLessEqualStrategyNumber
  else if (opno =? 96)%Z then BTEqualStrategyNumber
  else if (opno =? 525)%Z then BTGreaterEqualStrategyNumber
  else if (opno =? 521)%Z then BTGreaterStrategyNumber
  else 0%Z.

Definition int4_array_at (d : Datum) : ArrayType :=
  if (d =? 1000)%Z
  then mkArrayType INT4OID [(1, false); (2, false); (3, false)]%Z
  else mkArrayType INT4OID [].

#[export] Instance int4_env : PgEnv := {
  match_expr_to_operand key e :=
    match key, e with
    | T_Var a, T_Var b => (a =? b)%Z
    | _, _ => false
    end;
  btree_opf _ := 1976%Z;
  get_op_opfamily_strategy opno _ := int4_strategy opno;
  getBaseType t := t;
  perform_type_cast v _ _ := Some v;
  OidFunctionCall1 _ v := v;
  fill_type_cmp_fmgr_info _ _ := btint4cmp;
  DatumGetArrayTypeP := int4_array_at
}.

Definition int4_range (lo hi : Z) : RangeEntry :=
  mkRangeEntry (FINITE lo) (FINITE hi).

Definition int4_const (v : Z) : Const := mkConst INT4OID (-1) InvalidOid v false.

Definition range_prel (rs : list RangeEntry) : PartRelationInfo :=
  mkPartRelationInfo PT_RANGE INT4OID InvalidOid 0%Z (Z.of_nat (length rs)) rs.

Definition hash_prel (n : Z) : PartRelationInfo :=
  mkPartRelationInfo PT_HASH INT4OID InvalidOid 450%Z n [].

Definition int4_context (p : PartRelationInfo) : WalkerContext :=
  mkWalkerContext (T_Var 1) p None.

(** [key OP v] as the planner hands it over. *)
Definition key_op (opno : Oid) (v : Z) : Expr :=
  T_OpExpr opno [T_Var 1%Z; T_Const (int4_const v)].

(** Three adjoining partitions, and two partitions with a hole between
    them. *)
Definition ranges_0_10_20_30 : list RangeEntry :=
  [int4_range 0 10; int4_range 10 20; int4_range 20 30].

Definition ranges_with_gap : list RangeEntry :=
  [int4_range 0 10; int4_range 20 30].


(** A clause over the three adjoining partitions:
    [key < 15 AND (key = 5 OR other)], [other] a node the walker does not
    look into. *)
Definition and_or_clause : Expr :=
  T_BoolExpr AND_EXPR
    [key_op 97 15; T_BoolExpr OR_EXPR [key_op 96 5; T_Other 0] 0] 0.

(** Bitmapsets as bit vectors, member [x] at bit [x]; the lowest system
    attribute number is -8, as in PostgreSQL 9.5 to 11. *)
#[export] Instance bits_env : HeapEnv := {
  Bitmapset := Z;
  bms_NULL := 0;
  bms_is_member x a := Z.testbit a x;
  bms_add_member a x := Z.setbit a x;
  FirstLowInvalidHeapAttributeNumber := -8
}.

(** A parent with the columns (id, a dropped column, val) and a partition
    of it that stores (val, id). *)
Definition int4_attribute (name : string) (inhcount : Z) : FormData_pg_attribute :=
  mkAttribute name INT4OID (-1) InvalidOid false inhcount.

Definition dropped_attribute : FormData_pg_attribute :=
  mkAttribute "dropped"%string 0 (-1) InvalidOid true 0.

Definition parent_relation : Relation :=
  mkRelation 16384
    [Some (int4_attribute "id"%string 0); Some dropped_attribute;
     Some (int4_attribute "val"%string 0)].

Definition child_relation : Relation :=
  mkRelation 16390
    [Some (int4_attribute "val"%string 1); Some (int4_attribute "id"%string 1)].

(** The parent's privileges: the system column ctid (number -1) and the
    column val (number 3). *)
Definition parent_privs_ctid_val : Z := Z.setbit (Z.setbit 0 (-1 - -8)) (3 - -8).

(** ** Vocabulary of the properties *)

(** The laws of a three-way comparator: swapping the operands swaps the
    sign, and "not greater" is transitive. *)
Record cmp_order (cmp : Datum -> Datum -> Z) : Prop := mk_cmp_order {
  cmp_flip : forall a b, cmp a b < 0 <-> 0 < cmp b a;
  cmp_trans : forall a b c, cmp a b <= 0 -> cmp b c <= 0 -> cmp a c <= 0
}.

(** The ranges array is ordered: [min <= max] within an entry and
    [max <= min] from an entry to the next (gaps allowed, overlaps not). *)
Fixpoint ranges_sorted (cmp_func : FmgrInfo) (collid : Oid)
    (ranges : list RangeEntry) : bool :=
  match ranges with
  | [] => true
  | r :: rest =>
    (cmp_bounds cmp_func collid (min r) (max r) <=? 0)
    && match rest with
       | [] => true
       | r' :: _ => cmp_bounds cmp_func collid (max r) (min r') <=? 0
       end
    && ranges_sorted cmp_func collid rest
  end.

(** [value] lies in the span [min, max) of the entry. *)
Definition span_contains (cmp_func : FmgrInfo) (collid : Oid) (r : RangeEntry)
    (value : Datum) : bool :=
  (0 <=? cmp_bounds cmp_func collid (MakeBound value) (min r))
  && (cmp_bounds cmp_func collid (MakeBound value) (max r) <? 0).

(** [key OP value] for the operator of a strategy number. *)
Definition key_satisfies (cmp_func : FmgrInfo) (collid : Oid) (strategy : Z)
    (key value : Datum) : bool :=
  let c := cmp_func collid key value in
  if strategy =? BTLessStrategyNumber then c <? 0
  else if strategy =? BTLessEqualStrategyNumber then c <=? 0
  else if strategy =? BTEqualStrategyNumber then c =? 0
  else if strategy =? BTGreaterEqualStrategyNumber then 0 <=? c
  else if strategy =? BTGreaterStrategyNumber then 0 <? c
  else false.

(** The index is in the rangeset. *)
Definition irange_list_mem (rangeset : list IndexRange) (index : Z) : bool :=
  fst (irange_list_find rangeset index).

(** A selectivity lies in the closed interval [0, 1]. *)
Definition paramsel_in_unit_interval (s : float) : bool :=
  PrimFloat.leb 0 s && PrimFloat.leb s 1.

(** Run a fallible function over a list, stopping at the first error. *)
Fixpoint res_map {A B : Type} (f : A -> res B) (l : list A) : res (list B) :=
  match l with
  | [] => OK []
  | a :: rest =>
    do b <- f a;
    do bs <- res_map f rest;
    OK (b :: bs)
  end.

(** The combinations 4.5 names for AND and OR, read off the children's
    nodes. *)
Definition intersection_of (prel : PartRelationInfo) (children : list WrapperNode)
    : list IndexRange :=
  fold_left irange_list_intersection (map rangeset children)
            (list_make1_irange_full prel IR_COMPLETE).

Definition union_of (children : list WrapperNode) : list IndexRange :=
  fold_left irange_list_union (map rangeset children) [].

Definition product_of_paramsel (children : list WrapperNode) : float :=
  fold_left PrimFloat.mul (map paramsel children) 1%float.

(** [1 - prod_k (1 - sel_k * len_k / totalLen)]. *)
Definition or_paramsel (children : list WrapperNode) : float :=
  let totalLen := irange_list_length (union_of children) in
  PrimFloat.sub 1
    (fold_left
       (fun p child =>
          PrimFloat.mul p
            (PrimFloat.sub 1
               (PrimFloat.div
                  (PrimFloat.mul (paramsel child)
                     (double_of_int (irange_list_length (rangeset child))))
                  (double_of_int totalLen))))
       children 1%float).

(** The largest of the selectivities, 0 for none. *)
Definition max_paramsel (children : list WrapperNode) : float :=
  fold_left Max (map paramsel children) 0%float.

(** The synthetic constant tested for one array element. *)
Definition element_const (arrayval : ArrayType) (elem : Datum * bool) : Const :=
  mkConst (ARR_ELEMTYPE arrayval) (-1) InvalidOid (fst elem) (snd elem).

(** The expressions of the children that yield one; a child that yields
    none (NoFilter, or Exclude) is dropped. *)
Definition surviving (rs : list (option Expr * bool)) : list Expr :=
  flat_map (fun r => match fst r with Some e => [e] | None => [] end) rs.

(** The node of a walk that succeeded. *)
Definition walked (r : res WrapperNode) : WrapperNode :=
  match r with
  | OK w => w
  | Error _ => palloc0_WrapperNode
  end.

(** [key = 5 OR key = 25] over the three adjoining partitions, walked. *)
Definition or_5_25 : Expr := T_BoolExpr OR_EXPR [key_op 96 5; key_op 96 25] 0.

Definition or_5_25_wrapper : WrapperNode :=
  walked (walk_expr_tree or_5_25
            (int4_context (range_prel ranges_0_10_20_30))).

(** [key = ANY (array at 1000)], the array holding 1, 2 and 3. *)
Definition key_in_1_2_3 : Expr :=
  T_ScalarArrayOpExpr 96 true (T_Var 1)
    (T_Const (mkConst 1007 (-1) InvalidOid 1000 false)).

Definition null_const : Const := mkConst INT4OID (-1) InvalidOid 0 true.
Definition true_const : Const :=
  mkConst BOOLOID (-1) InvalidOid (BoolGetDatum true) false.

(** The walker's context over the three adjoining partitions. *)
Definition three_ranges_context : WalkerContext :=
  int4_context (range_prel ranges_0_10_20_30).


(** A rangeset as the rangeset algebra keeps it: spans within
    [lo, nranges), each holding an index, ascending, disjoint, and no two
    adjoining spans of the same tag left unmerged. *)
Fixpoint irange_list_valid_from (lo nranges : Z) (rangeset : list IndexRange) : bool :=
  match rangeset with
  | [] => true
  | r :: rest =>
    (lo <=? irange_lower r) && (irange_lower r <=? irange_upper r)
    && (irange_upper r <? nranges)
    && match rest with
       | [] => true
       | r' :: _ =>
         negb ((irange_lower r' =? irange_upper r + 1)
               && tag_eqb (irange_tag r) (irange_tag r'))
       end
    && irange_list_valid_from (irange_upper r + 1) nranges rest
  end.

Definition irange_list_valid (nranges : Z) (rangeset : list IndexRange) : bool :=
  irange_list_valid_from 0 nranges rangeset.

(** No gap between consecutive partitions: each max bound equals the next
    min bound. *)
Fixpoint ranges_contiguous (cmp_func : FmgrInfo) (collid : Oid)
    (ranges : list RangeEntry) : bool :=
  match ranges with
  | r :: rest =>
    match rest with
    | r' :: _ => cmp_bounds cmp_func collid (max r) (min r') =? 0
    | [] => true
    end
    && ranges_contiguous cmp_func collid rest
  | [] => true
  end.

(** Every span holds an index. *)
Definition spans_inhabited (rangeset : list IndexRange) : Prop :=
  Forall (fun r => irange_lower r <= irange_upper r) rangeset.

(** The truth of a clause for a key: AND and OR over the truth of the
    nodes below them. *)
Fixpoint clause_holds (truth : Expr -> Datum -> bool) (e : Expr) (key : Datum)
    {struct e} : bool :=
  match e with
  | T_BoolExpr AND_EXPR eargs _ => forallb (fun a => clause_holds truth a key) eargs
  | T_BoolExpr OR_EXPR eargs _ => existsb (fun a => clause_holds truth a key) eargs
  | _ => truth e key
  end.

(** The nodes below the ANDs and ORs of a clause. *)
Fixpoint clause_leaves (e : Expr) : list Expr :=
  match e with
  | T_BoolExpr AND_EXPR eargs _ => flat_map clause_leaves eargs
  | T_BoolExpr OR_EXPR eargs _ => flat_map clause_leaves eargs
  | _ => [e]
  end.

(** What the filter rebuilt for a partition says about the keys of the
    partition's span: with no filter every key satisfies the clause, an
    excluded partition holds no key that does, and a filter is true of
    the keys the clause is true of. *)
Definition filter_agrees (truth : Expr -> Datum -> bool) (e : Expr)
    (span : Datum -> bool) (outcome : res (option Expr * bool)) : Prop :=
  match outcome with
  | OK (Some f, _) =>
    forall key, span key = true -> clause_holds truth f key = clause_holds truth e key
  | OK (None, true) =>
    forall key, span key = true -> clause_holds truth e key = true
  | OK (None, false) =>
    forall key, span key = true -> clause_holds truth e key = false
  | Error _ => False
  end.

(** Induction on expressions, with the arguments of a node as a list. *)
Section ExprInduction.

Variable P : Expr -> Prop.
Hypothesis Hconst : forall c, P (T_Const c).
Hypothesis Hparam : forall p, P (T_Param p).
Hypothesis Hvar : forall a, P (T_Var a).
Hypothesis Hbool : forall boolop eargs location,
    Forall P eargs -> P (T_BoolExpr boolop eargs location).
Hypothesis Hop : forall opno eargs, Forall P eargs -> P (T_OpExpr opno eargs).
Hypothesis Harr : forall opno useOr exprnode arraynode,
    P exprnode -> P arraynode -> P (T_ScalarArrayOpExpr opno useOr exprnode arraynode).
Hypothesis Hother : forall tag, P (T_Other tag).

Fixpoint Expr_nested_ind (e : Expr) : P e :=
  match e with
  | T_Const c => Hconst c
  | T_Param p => Hparam p
  | T_Var a => Hvar a
  | T_BoolExpr boolop eargs location =>
    Hbool boolop eargs location
      ((fix all (l : list Expr) : Forall P l :=
          match l with
          | [] => Forall_nil P
          | x :: rest => Forall_cons x (Expr_nested_ind x) (all rest)
          end) eargs)
  | T_OpExpr opno eargs =>
    Hop opno eargs
      ((fix all (l : list Expr) : Forall P l :=
          match l with
          | [] => Forall_nil P
          | x :: rest => Forall_cons x (Expr_nested_ind x) (all rest)
          end) eargs)
  | T_ScalarArrayOpExpr opno useOr exprnode arraynode =>
    Harr opno useOr exprnode arraynode
         (Expr_nested_ind exprnode) (Expr_nested_ind arraynode)
  | T_Other tag => Hother tag
  end.

End ExprInduction.

(** The outcome of a child's node at partition [i] agrees with the
    child. *)
Definition child_agrees (truth : Expr -> Datum -> bool) (span : Datum -> bool)
    (i : Z) (e : Expr) (w : WrapperNode) : Prop :=
  filter_agrees truth e span (wrapper_make_expression w i).

(** The node of every successful walk of [e] answers each partition with a
    filter that agrees with [e] on the partition's keys. *)
Definition walk_agrees `{PgEnv} (context : WalkerContext)
    (truth : Expr -> Datum -> bool) (span_of : Z -> Datum -> bool) (e : Expr)
    : Prop :=
  forall w,
    walk_expr_tree e context = OK w ->
    forall i,
      0 <= i < PrelChildrenCount (prel context) ->
      filter_agrees truth e (span_of i) (wrapper_make_expression w i).

(** The keys partition [i] of a RANGE scheme can hold. *)
Definition partition_span (cmp_func : FmgrInfo) (collid : Oid)
    (ranges : list RangeEntry) (i : Z) (key : Datum) : bool :=
  match ranges_at ranges i with
  | Some r => span_contains cmp_func collid r key
  | None => false
  end.

(** [key OP element] for an element of a constant array; a NULL element
    makes no comparison true. *)
Definition element_satisfies (cmp_func : FmgrInfo) (collid : Oid) (strategy : Z)
    (key : Datum) (elem : Datum * bool) : bool :=
  negb (snd elem) && key_satisfies cmp_func collid strategy key (fst elem).

(** The truth of the nodes below AND and OR: a comparison of the key with a
    constant, or with the elements of a constant array, is settled by the
    comparator, every other node by [opaque_truth]. *)
Definition comparison_truth `{PgEnv} (context : WalkerContext)
    (cmp_func : FmgrInfo) (collid : Oid) (opaque_truth : Expr -> Datum -> bool)
    (e : Expr) (key : Datum) : bool :=
  match e with
  | T_OpExpr opno [key_side; T_Const c] =>
    if match_expr_to_operand (prel_expr context) key_side then
      key_satisfies cmp_func collid
        (get_op_opfamily_strategy opno (btree_opf (ev_type (prel context))))
        key (constvalue c)
    else opaque_truth e key
  | T_ScalarArrayOpExpr opno useOr exprnode (T_Const ac) =>
    if match_expr_to_operand (prel_expr context) exprnode
       && negb (constisnull ac) then
      let strategy :=
        get_op_opfamily_strategy opno (btree_opf (ev_type (prel context))) in
      let elems := elem_values (DatumGetArrayTypeP (constvalue ac)) in
      if useOr
      then existsb (element_satisfies cmp_func collid strategy key) elems
      else forallb (element_satisfies cmp_func collid strategy key) elems
    else opaque_truth e key
  | _ => opaque_truth e key
  end.

(** The nodes below AND and OR in the clauses the theorems cover. *)
Inductive pruning_leaf `{PgEnv} (context : WalkerContext) (cmp_func : FmgrInfo)
    (collid : Oid) : Expr -> Prop :=
| leaf_key_op_const (opno : Oid) (key_side : Expr) (c : Const) :
    match_expr_to_operand (prel_expr context) key_side = true ->
    constisnull c = false ->
    consttype c <> BOOLOID ->
    BTLessStrategyNumber
    <= get_op_opfamily_strategy opno (btree_opf (ev_type (prel context)))
    <= BTGreaterStrategyNumber ->
    fill_type_cmp_fmgr_info (getBaseType (consttype c))
                            (getBaseType (ev_type (prel context))) = cmp_func ->
    constcollid c = collid ->
    pruning_leaf context cmp_func collid (T_OpExpr opno [key_side; T_Const c])
| leaf_key_in_array (opno : Oid) (useOr : bool) (key_side : Expr) (ac : Const) :
    match_expr_to_operand (prel_expr context) key_side = true ->
    constisnull ac = false ->
    ARR_ELEMTYPE (DatumGetArrayTypeP (constvalue ac)) <> BOOLOID ->
    BTLessStrategyNumber
    <= get_op_opfamily_strategy opno (btree_opf (ev_type (prel context)))
    <= BTGreaterStrategyNumber ->
    fill_type_cmp_fmgr_info
      (getBaseType (ARR_ELEMTYPE (DatumGetArrayTypeP (constvalue ac))))
      (getBaseType (ev_type (prel context))) = cmp_func ->
    InvalidOid = collid ->
    pruning_leaf context cmp_func collid
                 (T_ScalarArrayOpExpr opno useOr key_side (T_Const ac))
| leaf_key_op_param (opno : Oid) (key_side : Expr) (prm : Param) :
    match_expr_to_operand (prel_expr context) key_side = true ->
    econtext context = None ->
    pruning_leaf context cmp_func collid (T_OpExpr opno [key_side; T_Param prm])
| leaf_op_without_key (opno : Oid) (eargs : list Expr) :
    Forall (fun a => match_expr_to_operand (prel_expr context) a = false) eargs ->
    pruning_leaf context cmp_func collid (T_OpExpr opno eargs)
| leaf_not (arg : Expr) (location : Z) :
    pruning_leaf context cmp_func collid (T_BoolExpr NOT_EXPR [arg] location)
| leaf_param (prm : Param) : pruning_leaf context cmp_func collid (T_Param prm)
| leaf_var (a : Z) : pruning_leaf context cmp_func collid (T_Var a)
| leaf_other (tag : Z) : pruning_leaf context cmp_func collid (T_Other tag).

(** The tag of a test against one constant is right about the keys of the
    span: no tag when no key passes the test, COMPLETE only when every key
    does. *)
Definition tag_agrees (test : Datum -> bool) (span : Datum -> bool)
    (t : option IRangeTag) : Prop :=
  match t with
  | None => forall key, span key = true -> test key = false
  | Some IR_COMPLETE => forall key, span key = true -> test key = true
  | Some IR_LOSSY => True
  end.

(** [v] is the translation of the parent's column [att]: nothing for a
    dropped column, else a Var of the child numbered after a live,
    inherited column of the child with the parent's name, type, typmod and
    collation. *)
Definition translates (new_tupdesc : TupleDesc) (newvarno : Z)
    (att : FormData_pg_attribute) (v : option Var) : Prop :=
  if attisdropped att then v = None
  else
    exists (j : Z) (natt : FormData_pg_attribute),
      attrs_at new_tupdesc j = Some (Some natt)
      /\ attisdropped natt = false
      /\ attinhcount natt <> 0
      /\ attname natt = attname att
      /\ atttypid natt = atttypid att
      /\ atttypmod natt = atttypmod att
      /\ attcollation natt = attcollation att
      /\ v = Some (makeVar newvarno (AttrNumber_of (j + 1)) (atttypid att)
                           (atttypmod att) (attcollation att) 0).

(** The entry of a column when a relation is translated to itself. *)
Definition identity_var (newvarno : Z) (old_attno : Z)
    (att : FormData_pg_attribute) : option Var :=
  if attisdropped att then None
  else Some (makeVar newvarno (AttrNumber_of (old_attno + 1)) (atttypid att)
                     (atttypmod att) (attcollation att) 0).

(** The laws of bitmapsets the proofs rely on, for members that are not
    negative. *)
Record bms_laws `{HeapEnv} : Prop := mk_bms_laws {
  bms_NULL_empty : forall x, bms_is_member x bms_NULL = false;
  bms_add_member_spec :
    forall a x y, 0 <= x ->
      bms_is_member y (bms_add_member a x) = (y =? x) || bms_is_member y a;
  first_low_negative : FirstLowInvalidHeapAttributeNumber < 0
}.

(** ** Proof automation *)

(** Case analysis on the integer comparisons of a goal or hypothesis. *)
Ltac zcases :=
  repeat match goal with
  | |- context [(?a >? ?b)] => rewrite (Z.gtb_ltb a b)
  | |- context [(?a >=? ?b)] => rewrite (Z.geb_leb a b)
  | H : context [(?a >? ?b)] |- _ => rewrite (Z.gtb_ltb a b) in H
  | H : context [(?a >=? ?b)] |- _ => rewrite (Z.geb_leb a b) in H
  | |- context [(?a <? ?b)] => destruct (Z.ltb_spec a b)
  | |- context [(?a <=? ?b)] => destruct (Z.leb_spec a b)
  | |- context [(?a =? ?b)] => destruct (Z.eqb_spec a b)
  | H : context [(?a <? ?b)] |- _ => destruct (Z.ltb_spec a b)
  | H : context [(?a <=? ?b)] |- _ => destruct (Z.leb_spec a b)
  | H : context [(?a =? ?b)] |- _ => destruct (Z.eqb_spec a b)
  end;
  cbn [andb orb negb] in *; try discriminate; try lia; try reflexivity.

(** Reduce the tests of a known strategy number. *)
Ltac known_strategy :=
  cbv [BTLessStrategyNumber BTLessEqualStrategyNumber BTEqualStrategyNumber
       BTGreaterEqualStrategyNumber BTGreaterStrategyNumber] in *;
  cbn [Z.eqb Pos.eqb andb orb negb] in *;
  rewrite ?andb_false_r, ?orb_false_r, ?andb_true_r, ?orb_true_r in *;
  cbn [andb orb negb] in *.

(** Turn the boolean tests among the hypotheses into the arithmetic facts
    they stand for. *)
Ltac zprop :=
  repeat match goal with
  | H : _ = true |- _ =>
    first [ apply andb_prop in H; destruct H
          | apply orb_prop in H; destruct H
          | apply Z.leb_le in H | apply Z.ltb_lt in H | apply Z.eqb_eq in H
          | apply Z.geb_le in H | apply Z.gtb_lt in H ]
  | H : _ = false |- _ =>
    first [ apply andb_false_iff in H; destruct H
          | apply orb_false_iff in H; destruct H
          | apply Z.leb_gt in H | apply Z.ltb_ge in H | apply Z.eqb_neq in H
          | rewrite Z.geb_leb in H | rewrite Z.gtb_ltb in H ]
  end.

(** * Properties *)

(** ** Order on bounds *)

Section BoundOrder.

Variable cmp_func : FmgrInfo.
Variable collid : Oid.
Hypothesis Hord : cmp_order (cmp_func collid).

Local Notation "'cb'" := (cmp_bounds cmp_func collid).

Lemma cmp_bounds_flip (a b : Bound) : cb a b < 0 <-> 0 < cb b a.
Proof.
  destruct a, b; simpl; try lia.
  apply (cmp_flip _ Hord).
Qed.

Lemma cmp_bounds_trans (a b c : Bound) :
  cb a b <= 0 -> cb b c <= 0 -> cb a c <= 0.
Proof.
  destruct a, b, c; simpl; try lia.
  apply (cmp_trans _ Hord).
Qed.

Lemma cmp_bounds_ge_flip (a b : Bound) : 0 <= cb a b <-> cb b a <= 0.
Proof.
  pose proof (cmp_bounds_flip a b). pose proof (cmp_bounds_flip b a). lia.
Qed.

Lemma cmp_bounds_lt_le (a b c : Bound) :
  cb a b < 0 -> cb b c <= 0 -> cb a c < 0.
Proof.
  intros Hab Hbc.
  destruct (Z_lt_ge_dec (cb a c) 0) as [Hlt | Hge]; [exact Hlt | exfalso].
  assert (Hca : cb c a <= 0) by (apply cmp_bounds_ge_flip; lia).
  pose proof (cmp_bounds_trans _ _ _ Hbc Hca) as Hba.
  apply cmp_bounds_flip in Hab. lia.
Qed.

Lemma cmp_bounds_le_lt (a b c : Bound) :
  cb a b <= 0 -> cb b c < 0 -> cb a c < 0.
Proof.
  intros Hab Hbc.
  destruct (Z_lt_ge_dec (cb a c) 0) as [Hlt | Hge]; [exact Hlt | exfalso].
  assert (Hca : cb c a <= 0) by (apply cmp_bounds_ge_flip; lia).
  pose proof (cmp_bounds_trans _ _ _ Hca Hab) as Hcb.
  apply cmp_bounds_flip in Hbc. lia.
Qed.

Lemma cmp_bounds_eq_sym (a b : Bound) : cb a b = 0 -> cb b a = 0.
Proof.
  pose proof (cmp_bounds_flip a b). pose proof (cmp_bounds_flip b a). lia.
Qed.

(** Every later entry starts at or above a bound that the first of them
    starts at or above. *)
Lemma sorted_above (b : Bound) (rs : list RangeEntry) (j : nat) (rj : RangeEntry) :
  ranges_sorted cmp_func collid rs = true ->
  match rs with [] => True | r :: _ => cb b (min r) <= 0 end ->
  nth_error rs j = Some rj ->
  cb b (min rj) <= 0 /\ cb b (max rj) <= 0.
Proof.
  revert b j. induction rs as [| r rest IH]; intros b j Hs Hb Hj.
  - destruct j; discriminate.
  - simpl in Hs. apply andb_prop in Hs as [Hs Hrest].
    apply andb_prop in Hs as [Hmm Hnext].
    apply Z.leb_le in Hmm.
    destruct j as [| j]; simpl in Hj.
    + injection Hj as ->. split; [exact Hb |].
      eapply cmp_bounds_trans; eassumption.
    + apply (IH b j Hrest); [| exact Hj].
      destruct rest as [| r' rest']; [exact I |].
      apply Z.leb_le in Hnext.
      eapply cmp_bounds_trans; [exact Hb |].
      eapply cmp_bounds_trans; eassumption.
Qed.

Lemma sorted_entry (rs : list RangeEntry) (i : nat) (ri : RangeEntry) :
  ranges_sorted cmp_func collid rs = true ->
  nth_error rs i = Some ri ->
  cb (min ri) (max ri) <= 0.
Proof.
  revert i. induction rs as [| r rest IH]; intros i Hs Hi.
  - destruct i; discriminate.
  - simpl in Hs. apply andb_prop in Hs as [Hs Hrest].
    apply andb_prop in Hs as [Hmm _]. apply Z.leb_le in Hmm.
    destruct i as [| i]; simpl in Hi.
    + injection Hi as ->. exact Hmm.
    + eapply IH; eassumption.
Qed.

(** In an ordered array an entry ends at or below the start of every later
    one. *)
Lemma sorted_pairwise (rs : list RangeEntry) (i j : nat) (ri rj : RangeEntry) :
  ranges_sorted cmp_func collid rs = true ->
  nth_error rs i = Some ri -> nth_error rs j = Some rj -> (i < j)%nat ->
  cb (max ri) (min rj) <= 0.
Proof.
  revert i j. induction rs as [| r rest IH]; intros i j Hs Hi Hj Hlt.
  - destruct i; discriminate.
  - destruct j as [| j]; [lia |].
    simpl in Hj.
    destruct i as [| i]; simpl in Hi.
    + injection Hi as ->.
      simpl in Hs. apply andb_prop in Hs as [Hs Hrest].
      apply andb_prop in Hs as [_ Hnext].
      apply (sorted_above (max ri) rest j rj Hrest); [| exact Hj].
      destruct rest; [exact I | apply Z.leb_le in Hnext; exact Hnext].
    + simpl in Hs. apply andb_prop in Hs as [_ Hrest].
      apply (IH i j Hrest Hi Hj). lia.
Qed.

End BoundOrder.

(** ** The binary search loop *)

Lemma pivot_between (startidx endidx : Z) :
  startidx <= endidx ->
  startidx <= startidx + (endidx - startidx) ÷ 2 <= endidx.
Proof.
  intros H. rewrite Z.quot_div_nonneg by lia.
  pose proof (Z.div_pos (endidx - startidx) 2 ltac:(lia) ltac:(lia)).
  pose proof (Z.div_le_upper_bound (endidx - startidx) 2 (endidx - startidx)
                ltac:(lia) ltac:(lia)).
  lia.
Qed.

Lemma pivot_below_end (startidx endidx : Z) :
  startidx < endidx -> startidx + (endidx - startidx) ÷ 2 < endidx.
Proof.
  intros H. rewrite Z.quot_div_nonneg by lia.
  pose proof (Z.div_lt (endidx - startidx) 2 ltac:(lia) ltac:(lia)). lia.
Qed.

Lemma pivot_crossed (startidx endidx : Z) :
  endidx = startidx - 1 -> startidx + (endidx - startidx) ÷ 2 = startidx.
Proof.
  intros ->. replace (startidx - 1 - startidx) with (-1) by lia.
  change (-1 ÷ 2) with 0. lia.
Qed.

Lemma ranges_at_some (ranges : list RangeEntry) (i : Z) :
  0 <= i < Z.of_nat (length ranges) -> exists r, ranges_at ranges i = Some r.
Proof.
  intros H. unfold ranges_at.
  destruct (Z.ltb_spec i 0) as [Hneg | _]; [lia |].
  destruct (nth_error ranges (Z.to_nat i)) as [r |] eqn:E; [eauto |].
  apply nth_error_None in E. lia.
Qed.

Lemma ranges_at_bound (ranges : list RangeEntry) (i : Z) (r : RangeEntry) :
  ranges_at ranges i = Some r ->
  0 <= i < Z.of_nat (length ranges) /\ nth_error ranges (Z.to_nat i) = Some r.
Proof.
  unfold ranges_at. destruct (Z.ltb_spec i 0) as [Hneg | Hpos]; [discriminate |].
  intros E. split; [| exact E].
  assert (Z.to_nat i < length ranges)%nat by (apply nth_error_Some; congruence).
  lia.
Qed.

Lemma ranges_at_In (ranges : list RangeEntry) (i : Z) (r : RangeEntry) :
  ranges_at ranges i = Some r -> In r ranges.
Proof.
  intros E. apply ranges_at_bound in E as [_ E]. eapply nth_error_In; eassumption.
Qed.

Section RangeSearch.

Variable value_bound : Bound.
Variable collid : Oid.
Variable cmp_func : FmgrInfo.
Variable ranges : list RangeEntry.
Variable strategy : Z.

Local Notation "'n'" := (Z.of_nat (length ranges)).
Local Notation "'cmp_min_of' r" := (cmp_bounds cmp_func collid value_bound (min r))
  (at level 10, r at level 9).
Local Notation "'cmp_max_of' r" := (cmp_bounds cmp_func collid value_bound (max r))
  (at level 10, r at level 9).
Local Notation "'search'" :=
  (fun fuel => range_search fuel value_bound collid cmp_func ranges strategy).

(** The loop leaves through [break] or through the gap exit, and a [break]
    is at an index whose entry is neither "less" nor "greater". *)
Lemma range_search_exit (fuel : nat) :
  forall startidx endidx,
    0 <= startidx < n -> startidx - 1 <= endidx < n ->
    endidx - startidx + 1 <= Z.of_nat fuel -> (1 <= fuel)%nat ->
    search fuel startidx endidx = LoopGap
    \/ exists i r,
         0 <= i < n /\ ranges_at ranges i = Some r
         /\ is_less_at strategy (cmp_min_of r) = false
         /\ is_greater_at strategy (cmp_max_of r) = false
         /\ search fuel startidx endidx
            = LoopBreak i (lossy_at strategy (cmp_min_of r) (cmp_max_of r)).
Proof.
  induction fuel as [| fuel IH]; intros startidx endidx Hs He Hf H1; [lia |].
  cbn [range_search].
  set (i := startidx + (endidx - startidx) ÷ 2).
  assert (Hi : startidx <= i <= Z.max startidx endidx).
  { destruct (Z_le_gt_dec startidx endidx) as [Hle | Hgt].
    - pose proof (pivot_between _ _ Hle). subst i. lia.
    - pose proof (pivot_crossed startidx endidx ltac:(lia)). subst i. lia. }
  destruct (ranges_at_some ranges i ltac:(lia)) as [r Hr]. rewrite Hr.
  destruct (is_less_at strategy (cmp_min_of r)) eqn:Hless;
    destruct (is_greater_at strategy (cmp_max_of r)) eqn:Hgreater; cbn [negb andb].
  - destruct (Z.geb_spec startidx endidx) as [Hge | Hlt]; [left; reflexivity |].
    apply IH; lia.
  - destruct (Z.geb_spec startidx endidx) as [Hge | Hlt]; [left; reflexivity |].
    apply IH; lia.
  - destruct (Z.geb_spec startidx endidx) as [Hge | Hlt]; [left; reflexivity |].
    pose proof (pivot_below_end _ _ Hlt). fold i in H.
    apply IH; lia.
  - right. exists i, r. repeat split; try assumption; lia.
Qed.

(** When the entries below the target send the search right and those above
    send it left, the search ends at the target. *)
Lemma range_search_finds (t : Z) (rt : RangeEntry) (fuel : nat) :
  ranges_at ranges t = Some rt ->
  is_less_at strategy (cmp_min_of rt) = false ->
  is_greater_at strategy (cmp_max_of rt) = false ->
  forall startidx endidx,
    0 <= startidx -> startidx <= t <= endidx -> endidx < n ->
    endidx - startidx + 1 <= Z.of_nat fuel ->
    (forall p rp, startidx <= p < t -> ranges_at ranges p = Some rp ->
       is_less_at strategy (cmp_min_of rp) = false
       /\ is_greater_at strategy (cmp_max_of rp) = true) ->
    (forall p rp, t < p <= endidx -> ranges_at ranges p = Some rp ->
       is_less_at strategy (cmp_min_of rp) = true) ->
    search fuel startidx endidx
    = LoopBreak t (lossy_at strategy (cmp_min_of rt) (cmp_max_of rt)).
Proof.
  intros Ht Hl Hg.
  induction fuel as [| fuel' IH]; intros startidx endidx Hs Hin He Hf Hbelow Habove;
    [lia |].
  cbn [range_search].
  set (i := startidx + (endidx - startidx) ÷ 2).
  pose proof (pivot_between startidx endidx ltac:(lia)) as Hi. fold i in Hi.
  destruct (ranges_at_some ranges i ltac:(lia)) as [r Hr]. rewrite Hr.
  destruct (Z.lt_total i t) as [Hlt | [Heq | Hgt]].
  - destruct (Hbelow i r ltac:(lia) Hr) as [Hless Hgreater].
    rewrite Hless, Hgreater. cbn [negb andb].
    destruct (Z.geb_spec startidx endidx) as [Hge | _]; [lia |].
    apply IH; try lia.
    + intros p rp Hp. apply Hbelow. lia.
    + exact Habove.
  - subst t. rewrite Hr in Ht. injection Ht as ->.
    rewrite Hl, Hg. reflexivity.
  - pose proof (Habove i r ltac:(lia) Hr) as Hless.
    rewrite Hless. cbn [negb andb].
    destruct (Z.geb_spec startidx endidx) as [Hge | _]; [lia |].
    apply IH; try lia.
    + exact Hbelow.
    + intros p rp Hp. apply Habove. lia.
Qed.

End RangeSearch.

(** ** select_range_partitions *)


Lemma hit_other_strategies (strategy cmp_min cmp_max : Z) :
  strategy <> BTLessStrategyNumber ->
  (is_less_at strategy cmp_min = false /\ is_greater_at strategy cmp_max = false
   <-> 0 <= cmp_min /\ cmp_max < 0).
Proof.
  intros Hs. unfold is_less_at, is_greater_at.
  split; intros [H1 H2]; [split | split]; zcases.
Qed.

Lemma hit_less_strategy (cmp_min cmp_max : Z) :
  is_less_at BTLessStrategyNumber cmp_min = false
  /\ is_greater_at BTLessStrategyNumber cmp_max = false
  <-> 0 < cmp_min /\ cmp_max <= 0.
Proof.
  unfold is_less_at, is_greater_at, BTLessStrategyNumber.
  split; intros [H1 H2]; [split | split]; zcases.
Qed.

Section SortedSearch.

Variable cmp_func : FmgrInfo.
Variable collid : Oid.
Variable ranges : list RangeEntry.
Hypothesis Hord : cmp_order (cmp_func collid).
Hypothesis Hsorted : ranges_sorted cmp_func collid ranges = true.

Local Notation "'cb'" := (cmp_bounds cmp_func collid).
Local Notation "'n'" := (Z.of_nat (length ranges)).

Lemma sorted_at_entry (i : Z) (r : RangeEntry) :
  ranges_at ranges i = Some r -> cb (min r) (max r) <= 0.
Proof.
  intros E. apply ranges_at_bound in E as [_ E].
  eapply sorted_entry; eassumption.
Qed.

Lemma sorted_at_pairwise (i j : Z) (ri rj : RangeEntry) :
  ranges_at ranges i = Some ri -> ranges_at ranges j = Some rj -> i < j ->
  cb (max ri) (min rj) <= 0.
Proof.
  intros Ei Ej Hlt.
  apply ranges_at_bound in Ei as [Hi Ei]. apply ranges_at_bound in Ej as [Hj Ej].
  eapply sorted_pairwise; try eassumption. lia.
Qed.

(** The first entry starts lowest and the last one ends highest. *)
Lemma sorted_at_min_first (i : Z) (rfirst ri : RangeEntry) :
  ranges_at ranges 0 = Some rfirst -> ranges_at ranges i = Some ri ->
  cb (min rfirst) (min ri) <= 0.
Proof.
  intros E0 Ei.
  destruct (Z.eq_dec i 0) as [-> | Hne].
  - rewrite E0 in Ei. injection Ei as ->.
    destruct (Z_le_gt_dec (cb (min ri) (min ri)) 0) as [H | H]; [exact H |].
    pose proof (cmp_bounds_flip cmp_func collid Hord (min ri) (min ri)). lia.
  - pose proof (ranges_at_bound _ _ _ Ei) as [Hi _].
    eapply cmp_bounds_trans; [exact Hord | eapply sorted_at_entry; exact E0 |].
    eapply sorted_at_pairwise; try eassumption. lia.
Qed.

Lemma sorted_at_max_last (i : Z) (ri rlast : RangeEntry) :
  ranges_at ranges i = Some ri -> ranges_at ranges (n - 1) = Some rlast ->
  cb (max ri) (max rlast) <= 0.
Proof.
  intros Ei El.
  destruct (Z.eq_dec i (n - 1)) as [-> | Hne].
  - rewrite El in Ei. injection Ei as ->.
    destruct (Z_le_gt_dec (cb (max ri) (max ri)) 0) as [H | H]; [exact H |].
    pose proof (cmp_bounds_flip cmp_func collid Hord (max ri) (max ri)). lia.
  - pose proof (ranges_at_bound _ _ _ Ei) as [Hi _].
    eapply cmp_bounds_trans; [exact Hord | | eapply sorted_at_entry; exact El].
    eapply sorted_at_pairwise; try eassumption. lia.
Qed.

(** On an ordered array the binary search ends at the entry that is neither
    "less" nor "greater", whatever the strategy. *)
Lemma range_search_sorted (value : Datum) (strategy t : Z) (rt : RangeEntry) :
  ranges_at ranges t = Some rt ->
  is_less_at strategy (cb (MakeBound value) (min rt)) = false ->
  is_greater_at strategy (cb (MakeBound value) (max rt)) = false ->
  range_search (Z.to_nat n) (MakeBound value) collid cmp_func ranges strategy
               0 (n - 1)
  = LoopBreak t (lossy_at strategy (cb (MakeBound value) (min rt))
                                   (cb (MakeBound value) (max rt))).
Proof.
  intros Et Hl Hg.
  pose proof (ranges_at_bound _ _ _ Et) as [Hbt _].
  set (v := MakeBound value) in *.
  apply range_search_finds; try assumption; try lia.
  - intros p rp Hp Ep.
    pose proof (sorted_at_pairwise p t rp rt Ep Et ltac:(lia)) as Hpt.
    pose proof (sorted_at_entry p rp Ep) as Hpp.
    destruct (Z.eq_dec strategy BTLessStrategyNumber) as [-> | Hs].
    + pose proof (proj1 (hit_less_strategy _ _) (conj Hl Hg)) as [Hmin _].
      assert (Hmax_p : cb (max rp) v < 0).
      { eapply cmp_bounds_le_lt; [exact Hord | exact Hpt |].
        apply cmp_bounds_flip; assumption. }
      assert (Hmin_p : cb (min rp) v < 0).
      { eapply cmp_bounds_le_lt; [exact Hord | exact Hpp | exact Hmax_p]. }
      apply (cmp_bounds_flip _ _ Hord) in Hmax_p, Hmin_p.
      unfold is_less_at, is_greater_at, BTLessStrategyNumber. split; zcases.
    + pose proof (proj1 (hit_other_strategies strategy _ _ Hs) (conj Hl Hg))
        as [Hmin _].
      assert (Hmax_p : cb (max rp) v <= 0).
      { eapply cmp_bounds_trans; [exact Hord | exact Hpt |].
        apply cmp_bounds_ge_flip; assumption. }
      assert (Hmin_p : cb (min rp) v <= 0).
      { eapply cmp_bounds_trans; [exact Hord | exact Hpp | exact Hmax_p]. }
      apply (cmp_bounds_ge_flip _ _ Hord) in Hmax_p, Hmin_p.
      unfold is_less_at, is_greater_at. split; zcases.
  - intros p rp Hp Ep.
    pose proof (sorted_at_pairwise t p rt rp Et Ep ltac:(lia)) as Htp.
    destruct (Z.eq_dec strategy BTLessStrategyNumber) as [-> | Hs].
    + pose proof (proj1 (hit_less_strategy _ _) (conj Hl Hg)) as [_ Hmax].
      pose proof (cmp_bounds_trans _ _ Hord _ _ _ Hmax Htp) as Hmin_p.
      unfold is_less_at, BTLessStrategyNumber. zcases.
    + pose proof (proj1 (hit_other_strategies strategy _ _ Hs) (conj Hl Hg))
        as [_ Hmax].
      pose proof (cmp_bounds_lt_le _ _ Hord _ _ _ Hmax Htp) as Hmin_p.
      unfold is_less_at. zcases.
Qed.

End SortedSearch.


Lemma span_contains_hit (cmp_func : FmgrInfo) (collid : Oid) (r : RangeEntry)
    (value : Datum) (strategy : Z) :
  strategy <> BTLessStrategyNumber ->
  (span_contains cmp_func collid r value = true
   <-> is_less_at strategy
         (cmp_bounds cmp_func collid (MakeBound value) (min r)) = false
       /\ is_greater_at strategy
            (cmp_bounds cmp_func collid (MakeBound value) (max r)) = false).
Proof.
  intros Hs. rewrite (hit_other_strategies _ _ _ Hs). unfold span_contains.
  rewrite andb_true_iff, Z.leb_le, Z.ltb_lt. tauto.
Qed.

(** The binary search of a call never reads outside the array nor runs out
    of iterations. *)
Lemma range_search_of_call (value : Datum) (collid : Oid) (cmp_func : FmgrInfo)
    (ranges : list RangeEntry) (strategy : Z) :
  let n := Z.of_nat (length ranges) in
  let vb := MakeBound value in
  n <> 0 ->
  range_search (Z.to_nat n) vb collid cmp_func ranges strategy 0 (n - 1) = LoopGap
  \/ exists i r,
       0 <= i < n /\ ranges_at ranges i = Some r
       /\ is_less_at strategy (cmp_bounds cmp_func collid vb (min r)) = false
       /\ is_greater_at strategy (cmp_bounds cmp_func collid vb (max r)) = false
       /\ range_search (Z.to_nat n) vb collid cmp_func ranges strategy 0 (n - 1)
          = LoopBreak i (lossy_at strategy (cmp_bounds cmp_func collid vb (min r))
                                           (cmp_bounds cmp_func collid vb (max r))).
Proof.
  intros n vb Hn. apply range_search_exit; lia.
Qed.

(** C10.  Under the equality operator the rangeset of
    select_range_partitions is empty or one singleton [i, i] tagged LOSSY;
    and on an ordered array a value in the span of partition k, its min
    bound included, yields exactly {[k, k], LOSSY}. *)
Theorem select_range_partitions_equality_lossy
    (value : Datum) (collid : Oid) (cmp_func : FmgrInfo)
    (ranges : list RangeEntry) (nranges : Z) (result : WrapperNode) :
  nranges = Z.of_nat (length ranges) ->
  (exists w,
     select_range_partitions value collid cmp_func ranges nranges
                             BTEqualStrategyNumber result = OK w
     /\ (rangeset w = []
         \/ exists i, 0 <= i < nranges /\ rangeset w = [make_irange i i IR_LOSSY]))
  /\ (forall k rk,
        cmp_order (cmp_func collid) ->
        ranges_sorted cmp_func collid ranges = true ->
        ranges_at ranges k = Some rk ->
        span_contains cmp_func collid rk value = true ->
        exists w,
          select_range_partitions value collid cmp_func ranges nranges
                                  BTEqualStrategyNumber result = OK w
          /\ rangeset w = [make_irange k k IR_LOSSY]).
Proof.
  intros ->. unfold select_range_partitions.
  set (n := Z.of_nat (length ranges)).
  split.
  - destruct (Z.eqb_spec n 0) as [Hz | Hnz];
      [eexists; split; [reflexivity | left; reflexivity] |].
    destruct (ranges_at_some ranges 0 ltac:(lia)) as [rfirst ->].
    destruct (ranges_at_some ranges (n - 1) ltac:(lia)) as [rlast ->].
    known_strategy.
    destruct (_ <? 0); [eexists; split; [reflexivity | left; reflexivity] |].
    destruct (_ >=? 0); [eexists; split; [reflexivity | left; reflexivity] |].
    subst n.
    destruct (range_search_of_call value collid cmp_func ranges 3 Hnz)
      as [-> | (i & r & Hi & Hr & Hl & Hg & ->)].
    + eexists; split; [reflexivity | left; reflexivity].
    + eexists; split; [reflexivity | right; exists i; split; [lia | reflexivity]].
  - intros k rk Hord Hsorted Hk Hspan.
    pose proof (ranges_at_bound _ _ _ Hk) as [Hkb _].
    destruct (Z.eqb_spec n 0) as [Hz | Hnz]; [lia |].
    destruct (ranges_at_some ranges 0 ltac:(lia)) as [rfirst Hfirst].
    destruct (ranges_at_some ranges (n - 1) ltac:(lia)) as [rlast Hlast].
    rewrite Hfirst, Hlast.
    unfold span_contains in Hspan. apply andb_prop in Hspan as [Hmin Hmax].
    apply Z.leb_le in Hmin. apply Z.ltb_lt in Hmax.
    assert (Hlo : 0 <= cmp_bounds cmp_func collid (MakeBound value) (min rfirst)).
    { apply (cmp_bounds_ge_flip _ _ Hord).
      eapply cmp_bounds_trans;
        [exact Hord
        | exact (sorted_at_min_first cmp_func collid ranges Hord Hsorted
                   k rfirst rk Hfirst Hk) |].
      apply (cmp_bounds_ge_flip _ _ Hord). exact Hmin. }
    assert (Hhi : cmp_bounds cmp_func collid (MakeBound value) (max rlast) < 0).
    { eapply cmp_bounds_lt_le; [exact Hord | exact Hmax |].
      exact (sorted_at_max_last cmp_func collid ranges Hord Hsorted
               k rk rlast Hk Hlast). }
    assert (Hne : 3 <> BTLessStrategyNumber) by discriminate.
    pose proof (proj2 (hit_other_strategies 3 _ _ Hne) (conj Hmin Hmax)) as [Hl Hg].
    known_strategy.
    destruct (Z.ltb_spec (cmp_bounds cmp_func collid (MakeBound value) (min rfirst)) 0);
      [lia |].
    rewrite Z.geb_leb.
    destruct (Z.leb_spec 0 (cmp_bounds cmp_func collid (MakeBound value) (max rlast)));
      [lia |].
    subst n.
    rewrite (range_search_sorted cmp_func collid ranges Hord Hsorted value 3
               k rk Hk Hl Hg).
    eexists; split; reflexivity.
Qed.

(** C4.  On a RANGE scheme, an equality test whose value lies inside the
    absolute [min, max) envelope but in the span of no partition makes
    select_range_partitions return the empty rangeset with found_gap set. *)
Theorem select_range_partitions_equality_in_gap
    (value : Datum) (collid : Oid) (cmp_func : FmgrInfo)
    (ranges : list RangeEntry) (nranges : Z) (rfirst rlast : RangeEntry)
    (result : WrapperNode) :
  nranges = Z.of_nat (length ranges) ->
  ranges_at ranges 0 = Some rfirst ->
  ranges_at ranges (nranges - 1) = Some rlast ->
  0 <= cmp_bounds cmp_func collid (MakeBound value) (min rfirst) ->
  cmp_bounds cmp_func collid (MakeBound value) (max rlast) < 0 ->
  forallb (fun r => negb (span_contains cmp_func collid r value)) ranges = true ->
  exists w,
    select_range_partitions value collid cmp_func ranges nranges
                            BTEqualStrategyNumber result = OK w
    /\ rangeset w = [] /\ found_gap w = true.
Proof.
  intros -> Hfirst Hlast Hlo Hhi Hnone.
  pose proof (ranges_at_bound _ _ _ Hfirst) as [Hn _].
  unfold select_range_partitions.
  destruct (Z.eqb_spec (Z.of_nat (length ranges)) 0) as [Hz | Hnz]; [lia |].
  rewrite Hfirst, Hlast.
  known_strategy.
  destruct (Z.ltb_spec (cmp_bounds cmp_func collid (MakeBound value) (min rfirst)) 0);
    [lia |].
  rewrite Z.geb_leb.
  destruct (Z.leb_spec 0 (cmp_bounds cmp_func collid (MakeBound value) (max rlast)));
    [lia |].
  destruct (range_search_of_call value collid cmp_func ranges 3 Hnz)
    as [-> | (i & r & Hi & Hr & Hl & Hg & _)].
  - eexists. repeat split.
  - exfalso.
    assert (Hne : 3 <> BTLessStrategyNumber) by discriminate.
    pose proof (proj2 (span_contains_hit cmp_func collid r value 3 Hne) (conj Hl Hg))
      as Hspan.
    rewrite forallb_forall in Hnone.
    specialize (Hnone r (ranges_at_In _ _ _ Hr)).
    rewrite Hspan in Hnone. discriminate.
Qed.

(** C5, amended.  On an ordered RANGE scheme with n partitions in which
    partition k's max bound equals partition k+1's min bound and both
    partitions are non-empty (min < max), the value equal to that bound
    yields the rangeset {[k+1, n-1], COMPLETE} under >= and the rangeset
    {[0, k], COMPLETE} under <. *)
Theorem select_range_partitions_shared_bound
    (value : Datum) (collid : Oid) (cmp_func : FmgrInfo)
    (ranges : list RangeEntry) (nranges k : Z) (rk rk1 : RangeEntry)
    (result : WrapperNode) :
  cmp_order (cmp_func collid) ->
  nranges = Z.of_nat (length ranges) ->
  ranges_sorted cmp_func collid ranges = true ->
  ranges_at ranges k = Some rk ->
  ranges_at ranges (k + 1) = Some rk1 ->
  cmp_bounds cmp_func collid (max rk) (min rk1) = 0 ->
  cmp_bounds cmp_func collid (MakeBound value) (min rk1) = 0 ->
  cmp_bounds cmp_func collid (min rk) (max rk) < 0 ->
  cmp_bounds cmp_func collid (min rk1) (max rk1) < 0 ->
  (exists w,
     select_range_partitions value collid cmp_func ranges nranges
                             BTGreaterEqualStrategyNumber result = OK w
     /\ rangeset w = [make_irange (k + 1) (nranges - 1) IR_COMPLETE]
     /\ found_gap w = false)
  /\ (exists w,
        select_range_partitions value collid cmp_func ranges nranges
                                BTLessStrategyNumber result = OK w
        /\ rangeset w = [make_irange 0 k IR_COMPLETE]
        /\ found_gap w = false).
Proof.
  intros Hord -> Hsorted Hk Hk1 Hshared Hvalue Hnek Hnek1.
  pose proof (ranges_at_bound _ _ _ Hk) as [Hkb _].
  destruct (ranges_at_some ranges 0 ltac:(lia)) as [rfirst Hfirst].
  destruct (ranges_at_some ranges (Z.of_nat (length ranges) - 1) ltac:(lia))
    as [rlast Hlast].
  (* the value against the bounds of partitions k and k + 1 *)
  assert (Hv_maxk : cmp_bounds cmp_func collid (MakeBound value) (max rk) = 0).
  { pose proof (cmp_bounds_eq_sym _ _ Hord _ _ Hshared) as Hshared'.
    pose proof (cmp_bounds_eq_sym _ _ Hord _ _ Hvalue) as Hvalue'.
    assert (A1 : cmp_bounds cmp_func collid (MakeBound value) (max rk) <= 0).
    { apply (cmp_bounds_trans _ _ Hord (MakeBound value) (min rk1) (max rk));
        [rewrite Hvalue | rewrite Hshared']; lia. }
    assert (A2 : cmp_bounds cmp_func collid (max rk) (MakeBound value) <= 0).
    { apply (cmp_bounds_trans _ _ Hord (max rk) (min rk1) (MakeBound value));
        [rewrite Hshared | rewrite Hvalue']; lia. }
    apply (cmp_bounds_ge_flip _ _ Hord) in A2. lia. }
  assert (Hv_mink : 0 < cmp_bounds cmp_func collid (MakeBound value) (min rk)).
  { apply (cmp_bounds_flip _ _ Hord).
    eapply cmp_bounds_lt_le; [exact Hord | exact Hnek |].
    apply (cmp_bounds_ge_flip _ _ Hord). lia. }
  assert (Hv_maxk1 : cmp_bounds cmp_func collid (MakeBound value) (max rk1) < 0).
  { eapply cmp_bounds_le_lt; [exact Hord | | exact Hnek1]. lia. }
  (* the value against the absolute bounds *)
  assert (Hv_first : 0 < cmp_bounds cmp_func collid (MakeBound value) (min rfirst)).
  { apply (cmp_bounds_flip _ _ Hord).
    eapply cmp_bounds_le_lt;
      [exact Hord
      | exact (sorted_at_min_first cmp_func collid ranges Hord Hsorted
                 k rfirst rk Hfirst Hk) |].
    apply (cmp_bounds_flip _ _ Hord). exact Hv_mink. }
  assert (Hv_last : cmp_bounds cmp_func collid (MakeBound value) (max rlast) < 0).
  { eapply cmp_bounds_lt_le; [exact Hord | exact Hv_maxk1 |].
    exact (sorted_at_max_last cmp_func collid ranges Hord Hsorted
             (k + 1) rk1 rlast Hk1 Hlast). }
  assert (Hnz : Z.of_nat (length ranges) <> 0) by lia.
  split.
  - (* key >= value: the search ends at k + 1, on its lower edge *)
    assert (Hl : is_less_at 4 (cmp_bounds cmp_func collid (MakeBound value) (min rk1)) = false)
      by (rewrite Hvalue; reflexivity).
    assert (Hg : is_greater_at 4 (cmp_bounds cmp_func collid (MakeBound value) (max rk1)) = false)
      by (unfold is_greater_at; zcases).
    unfold select_range_partitions.
    destruct (Z.eqb_spec (Z.of_nat (length ranges)) 0) as [Hz | _]; [lia |].
    rewrite Hfirst, Hlast.
    known_strategy.
    rewrite (range_search_sorted cmp_func collid ranges Hord Hsorted value 4
               (k + 1) rk1 Hk1 Hl Hg).
    rewrite Hvalue.
    destruct (Z.leb_spec (cmp_bounds cmp_func collid (MakeBound value) (min rfirst)) 0); [lia |].
    destruct (Z.ltb_spec (cmp_bounds cmp_func collid (MakeBound value) (min rfirst)) 0); [lia |].
    rewrite Z.geb_leb.
    destruct (Z.leb_spec 0 (cmp_bounds cmp_func collid (MakeBound value) (max rlast))); [lia |].
    cbn. eexists. repeat split.
  - (* key < value: the search ends at k, on its upper edge *)
    assert (Hl : is_less_at 1 (cmp_bounds cmp_func collid (MakeBound value) (min rk)) = false)
      by (unfold is_less_at; zcases).
    assert (Hg : is_greater_at 1 (cmp_bounds cmp_func collid (MakeBound value) (max rk)) = false)
      by (rewrite Hv_maxk; reflexivity).
    unfold select_range_partitions.
    destruct (Z.eqb_spec (Z.of_nat (length ranges)) 0) as [Hz | _]; [lia |].
    rewrite Hfirst, Hlast.
    known_strategy.
    rewrite (range_search_sorted cmp_func collid ranges Hord Hsorted value 1
               k rk Hk Hl Hg).
    rewrite Hv_maxk.
    destruct (Z.leb_spec (cmp_bounds cmp_func collid (MakeBound value) (min rfirst)) 0); [lia |].
    rewrite Z.geb_leb.
    destruct (Z.leb_spec 0 (cmp_bounds cmp_func collid (MakeBound value) (max rlast))); [lia |].
    cbn. eexists. repeat split.
Qed.

(** ** handle_const *)

Lemma DatumGetInt32_unsigned (X : Datum) :
  DatumGetInt32 X mod 2 ^ 32 = X mod 2 ^ 32.
Proof.
  unfold DatumGetInt32. rewrite Zminus_mod_idemp_l. f_equal. lia.
Qed.

(** C2.  On a HASH scheme with n >= 1 partitions, an equality test on a
    constant that is neither NULL nor boolean yields exactly the singleton
    range [idx, idx] tagged LOSSY, where idx is the 32-bit hash of the
    value (cast to the key type when the types differ) modulo n; no
    rangeset is produced only when that cast fails, which is the error of
    the call. *)
Theorem handle_const_hash_equality `{PgEnv}
    (c : Const) (context : WalkerContext) (result : WrapperNode) :
  parttype (prel context) = PT_HASH ->
  1 <= PrelChildrenCount (prel context) ->
  constisnull c = false ->
  consttype c <> BOOLOID ->
  let n := PrelChildrenCount (prel context) in
  match (if ev_type (prel context) =? consttype c then Some (constvalue c)
         else perform_type_cast (constvalue c) (getBaseType (consttype c))
                                (getBaseType (ev_type (prel context)))) with
  | Some value =>
    let hash := OidFunctionCall1 (hash_proc (prel context)) value mod 2 ^ 32 in
    let idx := hash mod n in
    0 <= idx < n
    /\ exists w,
         handle_const c BTEqualStrategyNumber context result = OK w
         /\ rangeset w = [make_irange idx idx IR_LOSSY]
  | None =>
    handle_const c BTEqualStrategyNumber context result
    = Error "Cannot select partition: unable to perform type cast"
  end.
Proof.
  intros Htype Hn Hnull Hbool n.
  unfold handle_const.
  change (BTEqualStrategyNumber =? 0) with false. cbv iota.
  rewrite Hnull, Htype.
  destruct (Z.eqb_spec (consttype c) BOOLOID) as [Hb | _]; [contradiction |].
  rewrite Z.eqb_refl. cbn [negb].
  unfold hash_to_part_index.
  destruct (Z.eqb_spec (ev_type (prel context)) (consttype c)) as [Heq | Hne];
    cbn [negb].
  - cbn [bind]. rewrite DatumGetInt32_unsigned.
    split; [apply Z.mod_pos_bound; subst n; lia |].
    eexists. split; reflexivity.
  - destruct (perform_type_cast _ _ _) as [value |]; cbn [bind]; [| reflexivity].
    rewrite DatumGetInt32_unsigned.
    split; [apply Z.mod_pos_bound; subst n; lia |].
    eexists. split; reflexivity.
Qed.

(** C3, amended.  Walking a constant leaf under any scheme: a NULL or
    boolean-false constant yields the empty rangeset with paramsel 0; a
    boolean constant other than false yields the full partition span
    tagged LOSSY with paramsel 1. *)
Theorem walk_const_null_false_true `{PgEnv} (c : Const) (context : WalkerContext) :
  (constisnull c = true
   \/ (consttype c = BOOLOID /\ constvalue c = BoolGetDatum false) ->
   exists w,
     walk_expr_tree (T_Const c) context = OK w
     /\ rangeset w = [] /\ paramsel w = 0%float)
  /\ (constisnull c = false ->
      consttype c = BOOLOID ->
      constvalue c <> BoolGetDatum false ->
      exists w,
        walk_expr_tree (T_Const c) context = OK w
        /\ rangeset w = list_make1_irange_full (prel context) IR_LOSSY
        /\ paramsel w = 1%float).
Proof.
  cbn [walk_expr_tree]. unfold handle_const.
  change (BTEqualStrategyNumber =? 0) with false. cbv iota.
  split.
  - intros [Hnull | [Hbool Hfalse]].
    + rewrite Hnull. eexists. repeat split.
    + destruct (constisnull c); [eexists; repeat split |].
      rewrite Hbool, Hfalse, !Z.eqb_refl. eexists. repeat split.
  - intros Hnull Hbool Htrue.
    rewrite Hnull, Hbool, Z.eqb_refl.
    destruct (Z.eqb_spec (constvalue c) (BoolGetDatum false)) as [Hf | _];
      [contradiction |].
    eexists. repeat split.
Qed.

(** ** handle_boolexpr *)

Lemma boolexpr_fold_error (walk : Expr -> res WrapperNode) (boolop : BoolExprType)
    (prel : PartRelationInfo) (eargs : list Expr) (msg : string) :
  fold_left (boolexpr_step walk boolop prel) eargs (Error msg) = Error msg.
Proof.
  induction eargs as [| a rest IH]; [reflexivity | exact IH].
Qed.

Lemma boolexpr_fold_and (walk : Expr -> res WrapperNode) (prel : PartRelationInfo)
    (eargs : list Expr) :
  forall r,
    fold_left (boolexpr_step walk AND_EXPR prel) eargs (OK r)
    = (do children <- res_map walk eargs;
       OK (mkWrapperNode (orig r) (args r ++ children)
             (fold_left irange_list_intersection (map rangeset children) (rangeset r))
             (found_gap r)
             (fold_left PrimFloat.mul (map paramsel children) (paramsel r)))).
Proof.
  induction eargs as [| a rest IH]; intros r.
  - destruct r. cbn. rewrite app_nil_r. reflexivity.
  - cbn [fold_left res_map]. unfold boolexpr_step at 2. cbn [bind].
    destruct (walk a) as [w | msg]; cbn [bind].
    + rewrite IH. destruct (res_map walk rest) as [ws | msg]; cbn [bind].
      * destruct r. cbn. rewrite <- app_assoc. reflexivity.
      * reflexivity.
    + apply boolexpr_fold_error.
Qed.

Lemma boolexpr_fold_or (walk : Expr -> res WrapperNode) (prel : PartRelationInfo)
    (eargs : list Expr) :
  forall r,
    fold_left (boolexpr_step walk OR_EXPR prel) eargs (OK r)
    = (do children <- res_map walk eargs;
       OK (mkWrapperNode (orig r) (args r ++ children)
             (fold_left irange_list_union (map rangeset children) (rangeset r))
             (found_gap r) (paramsel r))).
Proof.
  induction eargs as [| a rest IH]; intros r.
  - destruct r. cbn. rewrite app_nil_r. reflexivity.
  - cbn [fold_left res_map]. unfold boolexpr_step at 2. cbn [bind].
    destruct (walk a) as [w | msg]; cbn [bind].
    + rewrite IH. destruct (res_map walk rest) as [ws | msg]; cbn [bind].
      * destruct r. cbn. rewrite <- app_assoc. reflexivity.
      * reflexivity.
    + apply boolexpr_fold_error.
Qed.

Lemma or_paramsel_fold (totallen : Z) (children : list WrapperNode) :
  forall r,
    fold_left (or_paramsel_step totallen) children r
    = mkWrapperNode (orig r) (args r) (rangeset r) (found_gap r)
        (fold_left
           (fun p child =>
              PrimFloat.mul p
                (PrimFloat.sub 1
                   (PrimFloat.div
                      (PrimFloat.mul (paramsel child)
                         (double_of_int (irange_list_length (rangeset child))))
                      (double_of_int totallen))))
           children (paramsel r)).
Proof.
  induction children as [| c rest IH]; intros r.
  - destruct r. reflexivity.
  - cbn [fold_left]. rewrite IH. destruct r. reflexivity.
Qed.

(** C6.  An AND node carries its children's nodes, the intersection of
    their rangesets seeded with the full COMPLETE span, and the product of
    their paramsels; an OR node carries the union of their rangesets and
    paramsel 1 - prod_k (1 - sel_k * len_k / totalLen), len_k the length of
    child k's rangeset and totalLen the length of the union.  A child whose
    walk raises an error ends the walk with that error. *)
Theorem handle_boolexpr_and_or `{PgEnv}
    (eargs : list Expr) (location : Z) (context : WalkerContext) :
  walk_expr_tree (T_BoolExpr AND_EXPR eargs location) context
  = (do children <- res_map (fun e => walk_expr_tree e context) eargs;
     OK (mkWrapperNode (Some (T_BoolExpr AND_EXPR eargs location)) children
           (intersection_of (prel context) children) false
           (product_of_paramsel children)))
  /\ walk_expr_tree (T_BoolExpr OR_EXPR eargs location) context
     = (do children <- res_map (fun e => walk_expr_tree e context) eargs;
        OK (mkWrapperNode (Some (T_BoolExpr OR_EXPR eargs location)) children
              (union_of children) false (or_paramsel children))).
Proof.
  split; cbn [walk_expr_tree]; unfold handle_boolexpr.
  - rewrite boolexpr_fold_and.
    destruct (res_map _ eargs) as [children | msg]; reflexivity.
  - rewrite boolexpr_fold_or.
    destruct (res_map _ eargs) as [children | msg]; [| reflexivity].
    cbn [bind]. cbn [args rangeset set_orig set_args set_paramsel set_rangeset
                     palloc0_WrapperNode orig found_gap paramsel app].
    rewrite or_paramsel_fold. reflexivity.
Qed.

(** ** handle_arrexpr *)

Lemma arrexpr_fold_error `{PgEnv} (elemtype : Oid) (useOr : bool) (strategy : Z)
    (wcxt : WalkerContext) (elems : list (Datum * bool)) (msg : string) :
  fold_left (arrexpr_step elemtype useOr strategy wcxt) elems (Error msg)
  = Error msg.
Proof.
  induction elems as [| a rest IH]; [reflexivity | exact IH].
Qed.

Lemma arrexpr_fold `{PgEnv} (arrayval : ArrayType) (useOr : bool) (strategy : Z)
    (wcxt : WalkerContext) (elems : list (Datum * bool)) :
  forall ranges result,
    fold_left (arrexpr_step (ARR_ELEMTYPE arrayval) useOr strategy wcxt) elems
              (OK (ranges, result))
    = (do tests <- res_map
                     (fun elem => handle_const (element_const arrayval elem)
                                    strategy wcxt palloc0_WrapperNode) elems;
       OK (fold_left (if useOr then irange_list_union else irange_list_intersection)
                     (map rangeset tests) ranges,
           set_paramsel result (fold_left Max (map paramsel tests) (paramsel result)))).
Proof.
  induction elems as [| a rest IH]; intros ranges result.
  - destruct result. reflexivity.
  - cbn [fold_left res_map]. unfold arrexpr_step at 2. cbn [bind fst snd].
    fold (element_const arrayval a).
    destruct (handle_const (element_const arrayval a) strategy wcxt
                palloc0_WrapperNode) as [w | msg]; cbn [bind].
    + rewrite IH.
      destruct (res_map _ rest) as [ws | msg]; cbn [bind]; [| reflexivity].
      destruct result, useOr; reflexivity.
    + apply arrexpr_fold_error.
Qed.

(** C8.  An array test whose scalar side matches the partitioning key and
    whose array is a non-null constant: each element is tested as a
    constant with the array's operator, the rangeset is the union of the
    elements' rangesets for ANY and their intersection seeded with the
    full COMPLETE span for ALL, and paramsel is the largest of the
    elements' selectivities, 0 for an empty array. *)
Theorem handle_arrexpr_const_array `{PgEnv}
    (opno : Oid) (useOr : bool) (exprnode : Expr) (ac : Const)
    (context : WalkerContext) :
  match_expr_to_operand (prel_expr context) exprnode = true ->
  constisnull ac = false ->
  let expr := T_ScalarArrayOpExpr opno useOr exprnode (T_Const ac) in
  let arrayval := DatumGetArrayTypeP (constvalue ac) in
  let strategy :=
    get_op_opfamily_strategy opno (btree_opf (ev_type (prel context))) in
  walk_expr_tree expr context
  = (do tests <- res_map
                   (fun elem => handle_const (element_const arrayval elem)
                                  strategy context palloc0_WrapperNode)
                   (elem_values arrayval);
     OK (mkWrapperNode (Some expr) []
           (if useOr then union_of tests
            else intersection_of (prel context) tests)
           false
           (match tests with [] => 0%float | _ => max_paramsel tests end))).
Proof.
  intros Hkey Hnull expr arrayval strategy. subst expr.
  cbn [walk_expr_tree]. unfold handle_arrexpr.
  rewrite Hkey, Hnull. cbn [negb].
  fold arrayval. fold strategy.
  rewrite arrexpr_fold.
  destruct (elem_values arrayval) as [| e rest] eqn:Helems.
  - cbn. destruct useOr; reflexivity.
  - remember (e :: rest) as elems.
    destruct (res_map _ elems) as [tests | msg] eqn:Htests; [| reflexivity].
    cbn [bind fst snd].
    assert (Hlen : (Z.of_nat (length elems) =? 0) = false).
    { subst elems. cbn [length]. apply Z.eqb_neq. lia. }
    rewrite Hlen.
    assert (Hne : tests <> []).
    { subst elems. cbn [res_map] in Htests.
      destruct (handle_const _ _ _ _); [| discriminate].
      cbn [bind] in Htests. destruct (res_map _ rest); [| discriminate].
      cbn [bind] in Htests. injection Htests as <-. discriminate. }
    destruct tests as [| t ts]; [contradiction |].
    destruct useOr; reflexivity.
Qed.

(** ** wrapper_make_expression *)

Lemma collect_fold_error (f : WrapperNode -> res (option Expr * bool))
    (children : list WrapperNode) (msg : string) :
  fold_left (fun acc lc => collect_arg acc (f lc)) children (Error msg) = Error msg.
Proof.
  induction children as [| c rest IH]; [reflexivity | exact IH].
Qed.

Lemma collect_fold (f : WrapperNode -> res (option Expr * bool))
    (children : list WrapperNode) :
  forall acc,
    fold_left (fun acc lc => collect_arg acc (f lc)) children (OK acc)
    = (do rs <- res_map f children; OK (acc ++ surviving rs)).
Proof.
  induction children as [| c rest IH]; intros acc.
  - cbn. rewrite app_nil_r. reflexivity.
  - cbn [fold_left res_map]. unfold collect_arg at 2. cbn [bind].
    destruct (f c) as [[oe always] | msg]; cbn [bind fst].
    + destruct oe as [e |].
      * rewrite IH. destruct (res_map f rest) as [rs | msg]; cbn [bind].
        -- cbn [surviving flat_map fst]. rewrite <- app_assoc. reflexivity.
        -- reflexivity.
      * rewrite IH. destruct (res_map f rest) as [rs | msg]; reflexivity.
    + apply collect_fold_error.
Qed.

(** X19.  wrapper_make_expression on a node and a partition index: Exclude
    when the index is absent from the node's rangeset; NoFilter when it is
    present and COMPLETE; when it is present and LOSSY and the node's
    original expression is set and is an AND or an OR, the children are
    rebuilt for the same index, an error of a child is the node's error,
    those that yield no expression (NoFilter, and likewise Exclude) are
    dropped, and the result is the only surviving expression when there is
    exactly one, else a new node of the same operator and location over
    the survivors; when it is present and LOSSY and the original
    expression is set and is anything else, a copy of it.  Nothing is said
    of a LOSSY index at a node whose original expression is NULL. *)
Theorem wrapper_make_expression_cases (wrap : WrapperNode) (index : Z) :
  (fst (irange_list_find (rangeset wrap) index) = false ->
   wrapper_make_expression wrap index = OK Exclude)
  /\ (irange_list_find (rangeset wrap) index = (true, false) ->
      wrapper_make_expression wrap index = OK NoFilter)
  /\ (irange_list_find (rangeset wrap) index = (true, true) ->
      forall boolop eargs location,
        orig wrap = Some (T_BoolExpr boolop eargs location) ->
        boolop <> NOT_EXPR ->
        wrapper_make_expression wrap index
        = (do rs <- res_map (fun child => wrapper_make_expression child index)
                            (args wrap);
           OK (match surviving rs with
               | [single] => Filter single
               | survivors => Filter (T_BoolExpr boolop survivors location)
               end)))
  /\ (irange_list_find (rangeset wrap) index = (true, true) ->
      forall e,
        orig wrap = Some e ->
        (forall eargs location,
           e <> T_BoolExpr AND_EXPR eargs location
           /\ e <> T_BoolExpr OR_EXPR eargs location) ->
        wrapper_make_expression wrap index = OK (Filter e)).
Proof.
  destruct wrap as [worig wargs wrangeset wgap wsel].
  cbn [rangeset orig args wrapper_make_expression].
  repeat split.
  - intros Hfind. rewrite Hfind. reflexivity.
  - intros Hfind. rewrite Hfind. reflexivity.
  - intros Hfind boolop eargs location -> Hop. rewrite Hfind. cbn [fst snd negb].
    destruct boolop; [| | contradiction];
      rewrite collect_fold;
      (destruct (res_map _ wargs) as [rs | msg]; [| reflexivity]);
      cbn [bind app]; unfold make_boolexpr;
      destruct (surviving rs) as [| ? [| ? ?]]; reflexivity.
  - intros Hfind e -> Hkind. rewrite Hfind. cbn [fst snd negb].
    destruct e as [| | | boolop eargs location | | |]; try reflexivity.
    destruct boolop; [| | reflexivity].
    + destruct (Hkind eargs location) as [Hand _]. contradiction.
    + destruct (Hkind eargs location) as [_ Hor]. contradiction.
Qed.

(** ** Beyond the gap exit: termination and soundness of the selector *)

Lemma filter_partitions_ok (strategy nranges i : Z) (lossy : bool) :
  1 <= strategy <= 5 ->
  exists rs, filter_partitions strategy nranges i lossy = OK rs.
Proof.
  intros Hs.
  assert (Hc : strategy = 1 \/ strategy = 2 \/ strategy = 3 \/ strategy = 4
               \/ strategy = 5) by lia.
  unfold filter_partitions.
  destruct Hc as [-> | [-> | [-> | [-> | ->]]]]; known_strategy;
    destruct lossy; try (eexists; reflexivity);
    try (destruct (i >? 0); eexists; reflexivity);
    destruct (i <? nranges - 1); eexists; reflexivity.
Qed.

(** With nranges the length of the array and one of the five strategies,
    the call ends with a node. *)
Lemma select_range_partitions_returns_core
    (value : Datum) (collid : Oid) (cmp_func : FmgrInfo)
    (ranges : list RangeEntry) (nranges strategy : Z) (result : WrapperNode) :
  nranges = Z.of_nat (length ranges) ->
  1 <= strategy <= 5 ->
  exists w,
    select_range_partitions value collid cmp_func ranges nranges strategy result
    = OK w.
Proof.
  intros -> Hs. unfold select_range_partitions.
  destruct (Z.eqb_spec (Z.of_nat (length ranges)) 0) as [Hz | Hnz];
    [eexists; reflexivity |].
  destruct (ranges_at_some ranges 0 ltac:(lia)) as [rfirst ->].
  destruct (ranges_at_some ranges (Z.of_nat (length ranges) - 1) ltac:(lia))
    as [rlast ->].
  repeat match goal with
         | |- context [if ?b then OK _ else _] =>
           destruct b; [eexists; reflexivity |]
         end.
  destruct (range_search_of_call value collid cmp_func ranges strategy Hnz)
    as [-> | (i & r & Hi & Hr & Hl & Hg & ->)].
  - eexists; reflexivity.
  - destruct (filter_partitions_ok strategy (Z.of_nat (length ranges)) i
                (lossy_at strategy
                   (cmp_bounds cmp_func collid (MakeBound value) (min r))
                   (cmp_bounds cmp_func collid (MakeBound value) (max r))) Hs)
      as [rs ->].
    eexists; reflexivity.
Qed.

(** X1.  select_range_partitions returns: with nranges the length of the
    array and one of the five strategies, the binary search ends within
    nranges iterations, reads no entry outside the array, and the call
    ends with a node. *)
Theorem select_range_partitions_returns
    (value : Datum) (collid : Oid) (cmp_func : FmgrInfo)
    (ranges : list RangeEntry) (nranges strategy : Z) (result : WrapperNode) :
  nranges = Z.of_nat (length ranges) ->
  1 <= strategy <= 5 ->
  exists w,
    select_range_partitions value collid cmp_func ranges nranges strategy result
    = OK w.
Proof.
  exact (select_range_partitions_returns_core value collid cmp_func ranges
           nranges strategy result).
Qed.

Lemma key_satisfies_cases (cmp_func : FmgrInfo) (collid : Oid) (strategy : Z)
    (key value : Datum) :
  key_satisfies cmp_func collid strategy key value = true ->
  let c := cmp_bounds cmp_func collid (MakeBound key) (MakeBound value) in
  (strategy = 1 /\ c < 0) \/ (strategy = 2 /\ c <= 0) \/ (strategy = 3 /\ c = 0)
  \/ (strategy = 4 /\ 0 <= c) \/ (strategy = 5 /\ 0 < c).
Proof.
  unfold key_satisfies. cbn [cmp_bounds MakeBound].
  cbv [BTLessStrategyNumber BTLessEqualStrategyNumber BTEqualStrategyNumber
       BTGreaterEqualStrategyNumber BTGreaterStrategyNumber].
  intros Hsat.
  destruct (Z.eqb_spec strategy 1); [apply Z.ltb_lt in Hsat; lia |].
  destruct (Z.eqb_spec strategy 2); [apply Z.leb_le in Hsat; lia |].
  destruct (Z.eqb_spec strategy 3); [apply Z.eqb_eq in Hsat; lia |].
  destruct (Z.eqb_spec strategy 4); [apply Z.leb_le in Hsat; lia |].
  destruct (Z.eqb_spec strategy 5); [apply Z.ltb_lt in Hsat; lia |].
  discriminate.
Qed.

Lemma filter_partitions_mem (strategy nranges j : Z) (lossy : bool)
    (rs : list IndexRange) (i : Z) :
  filter_partitions strategy nranges j lossy = OK rs ->
  0 <= i < nranges -> 0 <= j < nranges ->
  ((strategy = 1 \/ strategy = 2) /\ i <= j)
  \/ (strategy = 3 /\ i = j)
  \/ ((strategy = 4 \/ strategy = 5) /\ j <= i) ->
  irange_list_mem rs i = true.
Proof.
  intros Hf Hi Hj Hcase. unfold filter_partitions in Hf.
  destruct Hcase as [[[-> | ->] Hle] | [[-> ->] | [[-> | ->] Hle]]];
    known_strategy;
    try (destruct lossy);
    try (destruct (Z.gtb_spec j 0));
    try (destruct (Z.ltb_spec j (nranges - 1)));
    injection Hf as <-;
    unfold irange_list_mem; cbn [irange_list_find app irange_lower irange_upper fst];
    zcases.
Qed.

Section Soundness.

Variable cmp_func : FmgrInfo.
Variable collid : Oid.
Variable ranges : list RangeEntry.
Hypothesis Hord : cmp_order (cmp_func collid).
Hypothesis Hsorted : ranges_sorted cmp_func collid ranges = true.

Variables key value : Datum.
Variable i : Z.
Variable r : RangeEntry.
Hypothesis Hr : ranges_at ranges i = Some r.
Hypothesis Hspan : span_contains cmp_func collid r key = true.

Local Notation "'cb'" := (cmp_bounds cmp_func collid).
Local Notation "'kb'" := (MakeBound key).
Local Notation "'vb'" := (MakeBound value).

(** A key of the span is not below the value when the value is at or below
    a bound that the span starts at or above. *)
Lemma key_above (b : Bound) :
  cb b (min r) <= 0 ->
  (cb vb b <= 0 -> cb kb vb < 0 -> False)
  /\ (cb vb b < 0 -> cb kb vb <= 0 -> False).
Proof.
  intros Hb.
  unfold span_contains in Hspan. apply andb_prop in Hspan as [Hmin _].
  apply Z.leb_le in Hmin.
  split; intros Hv Hk.
  - pose proof (cmp_bounds_lt_le _ _ Hord _ _ _ Hk Hv) as H1.
    pose proof (cmp_bounds_lt_le _ _ Hord _ _ _ H1 Hb). lia.
  - pose proof (cmp_bounds_le_lt _ _ Hord _ _ _ Hk Hv) as H1.
    pose proof (cmp_bounds_lt_le _ _ Hord _ _ _ H1 Hb). lia.
Qed.

(** A key of the span is below the value when the value is at or above a
    bound that the span ends at or below. *)
Lemma key_below (b : Bound) :
  cb (max r) b <= 0 -> 0 <= cb vb b -> 0 <= cb kb vb -> False.
Proof.
  intros Hb Hv Hk.
  unfold span_contains in Hspan. apply andb_prop in Hspan as [_ Hmax].
  apply Z.ltb_lt in Hmax.
  pose proof (cmp_bounds_lt_le _ _ Hord _ _ _ Hmax Hb) as H1.
  apply (cmp_bounds_ge_flip _ _ Hord) in Hv.
  pose proof (cmp_bounds_lt_le _ _ Hord _ _ _ H1 Hv). lia.
Qed.

End Soundness.

(** Where the call does not leave through the gap exit, no partition with a
    matching key is left out of the rangeset. *)
Lemma select_range_partitions_sound_core
    (value : Datum) (collid : Oid) (cmp_func : FmgrInfo)
    (ranges : list RangeEntry) (nranges strategy : Z) (result w : WrapperNode) :
  cmp_order (cmp_func collid) ->
  nranges = Z.of_nat (length ranges) ->
  ranges_sorted cmp_func collid ranges = true ->
  select_range_partitions value collid cmp_func ranges nranges strategy result
  = OK w ->
  found_gap w = false ->
  forall i r key,
    ranges_at ranges i = Some r ->
    span_contains cmp_func collid r key = true ->
    key_satisfies cmp_func collid strategy key value = true ->
    irange_list_mem (rangeset w) i = true.
Proof.
  intros Hord -> Hsorted Hsel Hgap i r key Hr Hspan Hsat.
  pose proof (ranges_at_bound _ _ _ Hr) as [Hi _].
  unfold select_range_partitions in Hsel.
  destruct (Z.eqb_spec (Z.of_nat (length ranges)) 0) as [Hz | Hnz]; [lia |].
  destruct (ranges_at_some ranges 0 ltac:(lia)) as [rfirst Hfirst].
  destruct (ranges_at_some ranges (Z.of_nat (length ranges) - 1) ltac:(lia))
    as [rlast Hlast].
  rewrite Hfirst, Hlast in Hsel.
  pose proof (key_above cmp_func collid Hord key value r Hspan (min rfirst)
                (sorted_at_min_first cmp_func collid ranges Hord Hsorted
                   i rfirst r Hfirst Hr)) as [Hfirst1 Hfirst2].
  pose proof (key_below cmp_func collid Hord key value r Hspan (max rlast)
                (sorted_at_max_last cmp_func collid ranges Hord Hsorted
                   i r rlast Hr Hlast)) as Hlast1.
  (* what a break of the search at j tells about i *)
  assert (Hbreak : forall j rj,
            ranges_at ranges j = Some rj ->
            (j < i ->
             (cmp_bounds cmp_func collid (MakeBound value) (max rj) <= 0 ->
              cmp_bounds cmp_func collid (MakeBound key) (MakeBound value) < 0 ->
              False)
             /\ (cmp_bounds cmp_func collid (MakeBound value) (max rj) < 0 ->
                 cmp_bounds cmp_func collid (MakeBound key) (MakeBound value) <= 0 ->
                 False))
            /\ (i < j ->
                0 <= cmp_bounds cmp_func collid (MakeBound value) (min rj) ->
                0 <= cmp_bounds cmp_func collid (MakeBound key) (MakeBound value) ->
                False)).
  { intros j rj Hj. split; intros Hlt.
    - apply (key_above cmp_func collid Hord key value r Hspan).
      exact (sorted_at_pairwise cmp_func collid ranges Hord Hsorted j i rj r Hj Hr Hlt).
    - apply (key_below cmp_func collid Hord key value r Hspan).
      exact (sorted_at_pairwise cmp_func collid ranges Hord Hsorted i j r rj Hr Hj Hlt). }
  pose proof (key_satisfies_cases _ _ _ _ _ Hsat) as Hcases. cbv zeta in Hcases.
  set (c := cmp_bounds cmp_func collid (MakeBound key) (MakeBound value)) in *.
  set (cmin := cmp_bounds cmp_func collid (MakeBound value) (min rfirst)) in *.
  set (cmax := cmp_bounds cmp_func collid (MakeBound value) (max rlast)) in *.
  assert (Hfull : irange_list_mem
                    [make_irange 0 (Z.of_nat (length ranges) - 1) IR_COMPLETE] i
                  = true).
  { clear - Hr. apply ranges_at_bound in Hr.
    unfold irange_list_mem. cbn [irange_list_find irange_lower irange_upper fst].
    zcases. }
  destruct (range_search_of_call value collid cmp_func ranges strategy Hnz)
    as [Hs | (j & rj & Hj & Hrj & Hl & Hg & Hs)]; rewrite Hs in Hsel; clear Hs.
  - (* the search left through the gap exit *)
    destruct Hcases as [[-> Hc] | [[-> Hc] | [[-> Hc] | [[-> Hc] | [-> Hc]]]]];
      known_strategy;
      repeat match type of Hsel with
             | (if ?b then _ else _) = _ => destruct b eqn:?
             end;
      injection Hsel as <-; cbn [rangeset found_gap set_rangeset set_found_gap] in *;
      try discriminate; try exact Hfull; exfalso; zcases.
  - (* the search broke at j *)
    destruct (Hbreak j rj Hrj) as [Hbelow Habove].
    assert (Hhit : (strategy = 1
                    /\ 0 < cmp_bounds cmp_func collid (MakeBound value) (min rj)
                    /\ cmp_bounds cmp_func collid (MakeBound value) (max rj) <= 0)
                   \/ (strategy <> 1
                       /\ 0 <= cmp_bounds cmp_func collid (MakeBound value) (min rj)
                       /\ cmp_bounds cmp_func collid (MakeBound value) (max rj) < 0)).
    { destruct (Z.eq_dec strategy 1) as [-> | Hne].
      - left. split; [reflexivity |]. apply hit_less_strategy. split; assumption.
      - right. split; [exact Hne |].
        apply (hit_other_strategies strategy); [exact Hne | split; assumption]. }
    set (cminj := cmp_bounds cmp_func collid (MakeBound value) (min rj)) in *.
    set (cmaxj := cmp_bounds cmp_func collid (MakeBound value) (max rj)) in *.
    assert (Hside : ((strategy = 1 \/ strategy = 2) /\ i <= j)
                    \/ (strategy = 3 /\ i = j)
                    \/ ((strategy = 4 \/ strategy = 5) /\ j <= i)).
    { destruct (Z.lt_total i j) as [Hlt | [Heq | Hgt]].
      - specialize (Habove Hlt). lia.
      - lia.
      - specialize (Hbelow Hgt). lia. }
    repeat match type of Hsel with
           | (if ?b then _ else _) = _ => destruct b eqn:?
           end;
      try (injection Hsel as <-;
           cbn [rangeset found_gap set_rangeset set_found_gap] in *;
           first [exact Hfull | exfalso; known_strategy; zcases]).
    destruct (filter_partitions strategy _ j _) as [rs | msg] eqn:Hf;
      cbn [bind] in Hsel; [| discriminate].
    injection Hsel as <-. cbn [rangeset set_rangeset].
    eapply filter_partitions_mem; try eassumption; lia.
Qed.

(** X2.  Away from the gap exit the selector is sound: on an ordered
    array, when the call ends with found_gap clear, every partition whose
    span holds a key satisfying [key OP value] is in the rangeset. *)
Theorem select_range_partitions_sound_without_gap
    (value : Datum) (collid : Oid) (cmp_func : FmgrInfo)
    (ranges : list RangeEntry) (nranges strategy : Z) (result w : WrapperNode) :
  cmp_order (cmp_func collid) ->
  nranges = Z.of_nat (length ranges) ->
  ranges_sorted cmp_func collid ranges = true ->
  select_range_partitions value collid cmp_func ranges nranges strategy result
  = OK w ->
  found_gap w = false ->
  forall i r key,
    ranges_at ranges i = Some r ->
    span_contains cmp_func collid r key = true ->
    key_satisfies cmp_func collid strategy key value = true ->
    irange_list_mem (rangeset w) i = true.
Proof.
  intros Hord Hn Hsorted Hsel Hgap i r key Hr Hspan Hsat.
  exact (select_range_partitions_sound_core value collid cmp_func ranges
           nranges strategy result w Hord Hn Hsorted Hsel Hgap
           i r key Hr Hspan Hsat).
Qed.

(** ** The shape of the selector's rangeset *)

Lemma filter_partitions_valid (strategy nranges j : Z) (lossy : bool)
    (rs : list IndexRange) :
  filter_partitions strategy nranges j lossy = OK rs ->
  0 <= j < nranges ->
  irange_list_valid nranges rs = true.
Proof.
  intros Hf Hj. unfold filter_partitions in Hf.
  repeat match type of Hf with
         | (if ?b then _ else _) = _ =>
           match b with
           | context [strategy] => destruct b
           | _ => destruct b eqn:?
           end
         end;
    try discriminate; injection Hf as <-;
    unfold irange_list_valid;
    cbn [irange_list_valid_from app irange_lower irange_upper irange_tag
         tag_eqb is_lossy eqb];
    zcases.
Qed.

(** X3.  The rangeset select_range_partitions returns is well formed, for
    every comparator, strategy and ranges array: its spans lie within
    [0, nranges), hold an index each, ascend without overlap, and adjoining
    spans differ in tag. *)
Theorem select_range_partitions_rangeset_valid
    (value : Datum) (collid : Oid) (cmp_func : FmgrInfo)
    (ranges : list RangeEntry) (nranges strategy : Z) (result w : WrapperNode) :
  nranges = Z.of_nat (length ranges) ->
  select_range_partitions value collid cmp_func ranges nranges strategy result
  = OK w ->
  irange_list_valid nranges (rangeset w) = true.
Proof.
  intros -> Hsel. unfold select_range_partitions in Hsel.
  destruct (Z.eqb_spec (Z.of_nat (length ranges)) 0) as [Hz | Hnz];
    [injection Hsel as <-; reflexivity |].
  destruct (ranges_at_some ranges 0 ltac:(lia)) as [rfirst Hfirst].
  destruct (ranges_at_some ranges (Z.of_nat (length ranges) - 1) ltac:(lia))
    as [rlast Hlast].
  rewrite Hfirst, Hlast in Hsel.
  assert (Hfull : irange_list_valid (Z.of_nat (length ranges))
                    [make_irange 0 (Z.of_nat (length ranges) - 1) IR_COMPLETE]
                  = true).
  { clear - Hnz. unfold irange_list_valid.
    cbn [irange_list_valid_from irange_lower irange_upper]. zcases. }
  repeat match type of Hsel with
         | (if ?b then _ else _) = _ =>
           destruct b; [injection Hsel as <-; first [reflexivity | exact Hfull] |]
         end.
  destruct (range_search_of_call value collid cmp_func ranges strategy Hnz)
    as [Hs | (j & rj & Hj & Hrj & Hl & Hg & Hs)]; rewrite Hs in Hsel; clear Hs.
  - injection Hsel as <-. reflexivity.
  - destruct (filter_partitions strategy _ j _) as [rs | msg] eqn:Hf;
      cbn [bind] in Hsel; [| discriminate].
    injection Hsel as <-. cbn [rangeset set_rangeset].
    eapply filter_partitions_valid; eassumption.
Qed.

(** ** A COMPLETE tag needs no recheck *)

Lemma lossy_at_false (strategy cmp_min cmp_max : Z) :
  lossy_at strategy cmp_min cmp_max = false ->
  (strategy = 4 /\ cmp_min = 0) \/ (strategy = 1 /\ cmp_max = 0).
Proof.
  unfold lossy_at, BTGreaterEqualStrategyNumber, BTLessStrategyNumber.
  intros H. zcases.
Qed.

Lemma filter_partitions_complete (strategy nranges j : Z) (lossy : bool)
    (rs : list IndexRange) (i : Z) :
  filter_partitions strategy nranges j lossy = OK rs ->
  irange_list_find rs i = (true, false) ->
  ((strategy = 1 \/ strategy = 2) /\ lossy = true /\ i < j)
  \/ ((strategy = 1 \/ strategy = 2) /\ lossy = false /\ i <= j)
  \/ ((strategy = 4 \/ strategy = 5) /\ lossy = true /\ j < i)
  \/ ((strategy = 4 \/ strategy = 5) /\ lossy = false /\ j <= i).
Proof.
  intros Hf Hfind. unfold filter_partitions in Hf.
  cbv [BTLessStrategyNumber BTLessEqualStrategyNumber BTEqualStrategyNumber
       BTGreaterEqualStrategyNumber BTGreaterStrategyNumber] in Hf.
  destruct lossy;
    repeat match type of Hf with
           | (if ?b then _ else _) = _ => destruct b eqn:?
           end;
    try discriminate; injection Hf as <-;
    cbn [irange_list_find app irange_lower irange_upper irange_tag is_lossy]
      in Hfind;
    repeat match type of Hfind with
           | (if ?b then _ else _) = _ => destruct b eqn:?
           end;
    try discriminate; zprop; lia.
Qed.

Lemma key_satisfies_intro (cmp_func : FmgrInfo) (collid : Oid) (strategy : Z)
    (key value : Datum) :
  let c := cmp_bounds cmp_func collid (MakeBound key) (MakeBound value) in
  (strategy = 1 /\ c < 0) \/ (strategy = 2 /\ c <= 0) \/ (strategy = 3 /\ c = 0)
  \/ (strategy = 4 /\ 0 <= c) \/ (strategy = 5 /\ 0 < c) ->
  key_satisfies cmp_func collid strategy key value = true.
Proof.
  cbn [cmp_bounds MakeBound]. unfold key_satisfies.
  cbv [BTLessStrategyNumber BTLessEqualStrategyNumber BTEqualStrategyNumber
       BTGreaterEqualStrategyNumber BTGreaterStrategyNumber].
  intros [[-> H] | [[-> H] | [[-> H] | [[-> H] | [-> H]]]]];
    cbn [Z.eqb Pos.eqb]; zcases.
Qed.

(** On an ordered array, a partition the selector tags COMPLETE holds only
    keys that satisfy [key OP value]. *)
Lemma select_range_partitions_complete_core
    (value : Datum) (collid : Oid) (cmp_func : FmgrInfo)
    (ranges : list RangeEntry) (nranges strategy : Z) (result w : WrapperNode) :
  cmp_order (cmp_func collid) ->
  nranges = Z.of_nat (length ranges) ->
  ranges_sorted cmp_func collid ranges = true ->
  select_range_partitions value collid cmp_func ranges nranges strategy result
  = OK w ->
  forall i r key,
    ranges_at ranges i = Some r ->
    span_contains cmp_func collid r key = true ->
    irange_list_find (rangeset w) i = (true, false) ->
    key_satisfies cmp_func collid strategy key value = true.
Proof.
  intros Hord -> Hsorted Hsel i r key Hr Hspan Hfind.
  pose proof (ranges_at_bound _ _ _ Hr) as [Hi _].
  unfold select_range_partitions in Hsel.
  destruct (Z.eqb_spec (Z.of_nat (length ranges)) 0) as [Hz | Hnz]; [lia |].
  destruct (ranges_at_some ranges 0 ltac:(lia)) as [rfirst Hfirst].
  destruct (ranges_at_some ranges (Z.of_nat (length ranges) - 1) ltac:(lia))
    as [rlast Hlast].
  rewrite Hfirst, Hlast in Hsel.
  pose proof (key_above cmp_func collid Hord key value r Hspan (min rfirst)
                (sorted_at_min_first cmp_func collid ranges Hord Hsorted
                   i rfirst r Hfirst Hr)) as [Hfirst1 Hfirst2].
  pose proof (key_below cmp_func collid Hord key value r Hspan (max rlast)
                (sorted_at_max_last cmp_func collid ranges Hord Hsorted
                   i r rlast Hr Hlast)) as Hlast1.
  apply key_satisfies_intro. cbv zeta.
  set (c := cmp_bounds cmp_func collid (MakeBound key) (MakeBound value)) in *.
  set (cmin := cmp_bounds cmp_func collid (MakeBound value) (min rfirst)) in *.
  set (cmax := cmp_bounds cmp_func collid (MakeBound value) (max rlast)) in *.
  cbv [BTLessStrategyNumber BTLessEqualStrategyNumber BTEqualStrategyNumber
       BTGreaterEqualStrategyNumber BTGreaterStrategyNumber] in Hsel.
  repeat match type of Hsel with
         | (if ?b then _ else _) = _ =>
           destruct b eqn:?;
             [injection Hsel as <-;
              cbn [rangeset set_rangeset set_found_gap irange_list_find] in Hfind;
              first [discriminate | clear Hfind; zprop; lia] |]
         end.
  destruct (range_search_of_call value collid cmp_func ranges strategy Hnz)
    as [Hs | (j & rj & Hj & Hrj & Hl & Hg & Hs)]; rewrite Hs in Hsel; clear Hs.
  - injection Hsel as <-. discriminate.
  - destruct (filter_partitions strategy _ j _) as [rs | msg] eqn:Hf;
      cbn [bind] in Hsel; [| discriminate].
    injection Hsel as <-. cbn [rangeset set_rangeset] in Hfind.
    pose proof (filter_partitions_complete _ _ _ _ _ _ Hf Hfind) as Hcase.
    assert (Hhit : (strategy = 1
                    /\ 0 < cmp_bounds cmp_func collid (MakeBound value) (min rj)
                    /\ cmp_bounds cmp_func collid (MakeBound value) (max rj) <= 0)
                   \/ (strategy <> 1
                       /\ 0 <= cmp_bounds cmp_func collid (MakeBound value) (min rj)
                       /\ cmp_bounds cmp_func collid (MakeBound value) (max rj) < 0)).
    { destruct (Z.eq_dec strategy 1) as [-> | Hne].
      - left. split; [reflexivity |]. apply hit_less_strategy. split; assumption.
      - right. split; [exact Hne |].
        apply (hit_other_strategies strategy); [exact Hne | split; assumption]. }
    (* the key against the bounds of the entry the search stopped at *)
    assert (Hbelow : i < j ->
              (0 <= cmp_bounds cmp_func collid (MakeBound value) (min rj) ->
               0 <= c -> False)).
    { intros Hlt. apply (key_below cmp_func collid Hord key value r Hspan).
      exact (sorted_at_pairwise cmp_func collid ranges Hord Hsorted
               i j r rj Hr Hrj Hlt). }
    assert (Hbelow' : i <= j ->
              (0 <= cmp_bounds cmp_func collid (MakeBound value) (max rj) ->
               0 <= c -> False)).
    { intros Hle. apply (key_below cmp_func collid Hord key value r Hspan).
      destruct (Z.eq_dec i j) as [-> | Hne].
      - rewrite Hrj in Hr. injection Hr as ->.
        destruct (Z_le_gt_dec (cmp_bounds cmp_func collid (max r) (max r)) 0)
          as [H | H]; [exact H |].
        pose proof (cmp_bounds_flip cmp_func collid Hord (max r) (max r)). lia.
      - eapply cmp_bounds_trans;
          [exact Hord
          | exact (sorted_at_pairwise cmp_func collid ranges Hord Hsorted
                     i j r rj Hr Hrj ltac:(lia))
          | exact (sorted_at_entry cmp_func collid ranges Hsorted j rj Hrj)]. }
    assert (Habove : j < i ->
              (cmp_bounds cmp_func collid (MakeBound value) (max rj) < 0 ->
               c <= 0 -> False)).
    { intros Hlt.
      apply (key_above cmp_func collid Hord key value r Hspan (max rj)).
      exact (sorted_at_pairwise cmp_func collid ranges Hord Hsorted
               j i rj r Hrj Hr Hlt). }
    assert (Habove' : j <= i ->
              (cmp_bounds cmp_func collid (MakeBound value) (min rj) <= 0 ->
               c < 0 -> False)).
    { intros Hle.
      apply (key_above cmp_func collid Hord key value r Hspan (min rj)).
      destruct (Z.eq_dec i j) as [-> | Hne].
      - rewrite Hrj in Hr. injection Hr as ->.
        destruct (Z_le_gt_dec (cmp_bounds cmp_func collid (min r) (min r)) 0)
          as [H | H]; [exact H |].
        pose proof (cmp_bounds_flip cmp_func collid Hord (min r) (min r)). lia.
      - eapply cmp_bounds_trans;
          [exact Hord
          | exact (sorted_at_entry cmp_func collid ranges Hsorted j rj Hrj)
          | exact (sorted_at_pairwise cmp_func collid ranges Hord Hsorted
                     j i rj r Hrj Hr ltac:(lia))]. }
    set (cminj := cmp_bounds cmp_func collid (MakeBound value) (min rj)) in *.
    set (cmaxj := cmp_bounds cmp_func collid (MakeBound value) (max rj)) in *.
    clear - Hcase Hhit Hbelow Hbelow' Habove Habove'.
    destruct Hcase as [(Hs & Hlossy & Hij) | [(Hs & Hlossy & Hij)
                      | [(Hs & Hlossy & Hij) | (Hs & Hlossy & Hij)]]];
      destruct Hs as [-> | ->];
      (destruct Hhit as [(Hst & Hmin & Hmax) | (Hst & Hmin & Hmax)];
       [try discriminate Hst | try (exfalso; apply Hst; reflexivity)]);
      try (apply lossy_at_false in Hlossy;
           destruct Hlossy as [[Hl4 Hl0] | [Hl1 Hl0]]; try discriminate);
      first [specialize (Hbelow ltac:(lia)) | clear Hbelow];
      first [specialize (Hbelow' ltac:(lia)) | clear Hbelow'];
      first [specialize (Habove ltac:(lia)) | clear Habove];
      first [specialize (Habove' ltac:(lia)) | clear Habove'];
      lia.
Qed.

(** X4.  A COMPLETE tag is never wrong: on an ordered array, whatever the
    strategy and whether or not the search met a gap, every key in the span
    of a partition that select_range_partitions tags COMPLETE satisfies
    [key OP value], so dropping the filter for that partition loses
    nothing. *)
Theorem select_range_partitions_complete_tag
    (value : Datum) (collid : Oid) (cmp_func : FmgrInfo)
    (ranges : list RangeEntry) (nranges strategy : Z) (result w : WrapperNode) :
  cmp_order (cmp_func collid) ->
  nranges = Z.of_nat (length ranges) ->
  ranges_sorted cmp_func collid ranges = true ->
  select_range_partitions value collid cmp_func ranges nranges strategy result
  = OK w ->
  forall i r key,
    ranges_at ranges i = Some r ->
    span_contains cmp_func collid r key = true ->
    irange_list_find (rangeset w) i = (true, false) ->
    key_satisfies cmp_func collid strategy key value = true.
Proof.
  exact (select_range_partitions_complete_core value collid cmp_func ranges
           nranges strategy result w).
Qed.

(** ** found_gap under the equality strategy *)

(** X5.  Under [=] on an ordered array, found_gap is set exactly when the
    value lies within the envelope of the array (at or above the first min
    bound, below the last max bound) and no partition's span holds it. *)
Theorem select_range_partitions_found_gap_iff
    (value : Datum) (collid : Oid) (cmp_func : FmgrInfo)
    (ranges : list RangeEntry) (nranges : Z) (result w : WrapperNode) :
  cmp_order (cmp_func collid) ->
  nranges = Z.of_nat (length ranges) ->
  ranges_sorted cmp_func collid ranges = true ->
  select_range_partitions value collid cmp_func ranges nranges
                          BTEqualStrategyNumber result = OK w ->
  (found_gap w = true
   <-> (exists rfirst rlast,
          ranges_at ranges 0 = Some rfirst
          /\ ranges_at ranges (nranges - 1) = Some rlast
          /\ 0 <= cmp_bounds cmp_func collid (MakeBound value) (min rfirst)
          /\ cmp_bounds cmp_func collid (MakeBound value) (max rlast) < 0)
       /\ forallb (fun r => negb (span_contains cmp_func collid r value)) ranges
          = true).
Proof.
  intros Hord -> Hsorted Hsel.
  unfold select_range_partitions in Hsel.
  destruct (Z.eqb_spec (Z.of_nat (length ranges)) 0) as [Hz | Hnz].
  { injection Hsel as <-. cbn [found_gap set_rangeset set_found_gap].
    split; [discriminate |].
    intros [(rfirst & _ & Hfirst & _) _].
    apply ranges_at_bound in Hfirst. lia. }
  destruct (ranges_at_some ranges 0 ltac:(lia)) as [rfirst Hfirst].
  destruct (ranges_at_some ranges (Z.of_nat (length ranges) - 1) ltac:(lia))
    as [rlast Hlast].
  rewrite Hfirst, Hlast in Hsel.
  assert (Hne : 3 <> BTLessStrategyNumber) by discriminate.
  (* a covering entry is where the search stops *)
  assert (Hcover : forall r, In r ranges ->
            span_contains cmp_func collid r value = true ->
            exists k,
              range_search (Z.to_nat (Z.of_nat (length ranges))) (MakeBound value)
                collid cmp_func ranges 3 0 (Z.of_nat (length ranges) - 1)
              = LoopBreak k true).
  { intros r Hin Hspan.
    destruct (In_nth_error _ _ Hin) as [k Hk].
    assert (Hrk : ranges_at ranges (Z.of_nat k) = Some r).
    { unfold ranges_at. destruct (Z.ltb_spec (Z.of_nat k) 0); [lia |].
      rewrite Nat2Z.id. exact Hk. }
    pose proof (proj1 (span_contains_hit cmp_func collid r value 3 Hne) Hspan)
      as [Hl Hg].
    exists (Z.of_nat k).
    rewrite (range_search_sorted cmp_func collid ranges Hord Hsorted value 3
               (Z.of_nat k) r Hrk Hl Hg).
    reflexivity. }
  known_strategy.
  destruct (Z.ltb_spec (cmp_bounds cmp_func collid (MakeBound value) (min rfirst)) 0)
    as [Hlo | Hlo].
  { injection Hsel as <-. cbn [found_gap set_rangeset set_found_gap].
    split; [discriminate |].
    intros [(rf & rl & Hf & _ & Hge & _) _].
    rewrite Hfirst in Hf. injection Hf as <-. lia. }
  rewrite Z.geb_leb in Hsel.
  destruct (Z.leb_spec 0 (cmp_bounds cmp_func collid (MakeBound value) (max rlast)))
    as [Hhi | Hhi].
  { injection Hsel as <-. cbn [found_gap set_rangeset set_found_gap].
    split; [discriminate |].
    intros [(rf & rl & _ & Hl & _ & Hlt) _].
    rewrite Hlast in Hl. injection Hl as <-. lia. }
  destruct (range_search_of_call value collid cmp_func ranges 3 Hnz)
    as [Hs | (j & rj & Hj & Hrj & Hl & Hg & Hs)].
  - rewrite Hs in Hsel. injection Hsel as <-.
    cbn [found_gap set_rangeset set_found_gap].
    split; [intros _ | reflexivity].
    split; [exists rfirst, rlast; repeat split; assumption |].
    apply forallb_forall. intros r Hin.
    destruct (span_contains cmp_func collid r value) eqn:Hspan; [| reflexivity].
    destruct (Hcover r Hin Hspan) as [k Hk]. rewrite Hk in Hs. discriminate.
  - rewrite Hs in Hsel. cbn [filter_partitions bind] in Hsel.
    injection Hsel as <-. cbn [found_gap set_rangeset set_found_gap].
    split; [discriminate |].
    intros [_ Hnone]. rewrite forallb_forall in Hnone.
    pose proof (proj2 (span_contains_hit cmp_func collid rj value 3 Hne)
                  (conj Hl Hg)) as Hspan.
    specialize (Hnone rj (ranges_at_In _ _ _ Hrj)).
    rewrite Hspan in Hnone. discriminate.
Qed.

(** ** The loop is logarithmic *)

(** More fuel does not change the exit of a search that has one. *)
Lemma range_search_fuel_mono (value_bound : Bound) (collid : Oid)
    (cmp_func : FmgrInfo) (ranges : list RangeEntry) (strategy : Z)
    (fuel : nat) :
  forall startidx endidx extra,
    range_search fuel value_bound collid cmp_func ranges strategy startidx endidx
    <> LoopNoFuel ->
    range_search (fuel + extra) value_bound collid cmp_func ranges strategy
                 startidx endidx
    = range_search fuel value_bound collid cmp_func ranges strategy
                   startidx endidx.
Proof.
  induction fuel as [| fuel IH]; intros startidx endidx extra Hne.
  - cbn in Hne. contradiction.
  - cbn [Nat.add range_search] in *.
    destruct (ranges_at ranges _) as [r |]; [| reflexivity].
    destruct (negb _ && negb _); [reflexivity |].
    destruct (startidx >=? endidx); [reflexivity |].
    destruct (is_less_at _ _); [apply IH; exact Hne |].
    destruct (is_greater_at _ _); apply IH; exact Hne.
Qed.

(** The interval halves at every iteration. *)
Lemma range_search_within (value_bound : Bound) (collid : Oid)
    (cmp_func : FmgrInfo) (ranges : list RangeEntry) (strategy : Z)
    (fuel : nat) :
  forall startidx endidx,
    (1 <= fuel)%nat ->
    endidx - startidx + 1 < 2 ^ Z.of_nat fuel ->
    startidx - 1 <= endidx ->
    range_search fuel value_bound collid cmp_func ranges strategy startidx endidx
    <> LoopNoFuel.
Proof.
  induction fuel as [| fuel IH]; intros startidx endidx H1 Hw He; [lia |].
  cbn [range_search].
  destruct (ranges_at ranges _) as [r |]; [| discriminate].
  destruct (is_less_at _ _) eqn:Hless; destruct (is_greater_at _ _) eqn:Hgreater;
    cbn [negb andb]; try discriminate;
    (destruct (Z.geb_spec startidx endidx) as [Hge | Hlt]; [discriminate |]);
    rewrite Nat2Z.inj_succ, Z.pow_succ_r in Hw by lia.
  all: assert (Hf : (1 <= fuel)%nat)
         by (destruct fuel; [cbn in Hw; lia | lia]).
  all: pose proof (pivot_between startidx endidx ltac:(lia)) as Hp.
  all: pose proof (pivot_below_end startidx endidx Hlt) as Hp'.
  all: assert (Hq : 2 * ((endidx - startidx) ÷ 2) <= endidx - startidx
                    <= 2 * ((endidx - startidx) ÷ 2) + 1)
         by (rewrite Z.quot_div_nonneg by lia;
             pose proof (Z.div_mod (endidx - startidx) 2 ltac:(lia));
             pose proof (Z.mod_pos_bound (endidx - startidx) 2 ltac:(lia)); lia).
  all: apply IH; lia.
Qed.

(** X6.  The binary search of a call leaves its loop within
    floor(log2 nranges) + 1 iterations: run with that many, it has the exit
    it has with nranges iterations, and that exit is not exhaustion. *)
Theorem range_search_logarithmic (value : Datum) (collid : Oid) (cmp_func : FmgrInfo)
    (ranges : list RangeEntry) (strategy : Z) :
  ranges <> [] ->
  let n := Z.of_nat (length ranges) in
  range_search (S (Z.to_nat (Z.log2 n))) (MakeBound value) collid cmp_func
               ranges strategy 0 (n - 1)
  = range_search (Z.to_nat n) (MakeBound value) collid cmp_func
                 ranges strategy 0 (n - 1)
  /\ range_search (S (Z.to_nat (Z.log2 n))) (MakeBound value) collid cmp_func
                  ranges strategy 0 (n - 1)
     <> LoopNoFuel.
Proof.
  intros Hne n.
  assert (Hn : 1 <= n) by (subst n; destruct ranges; [contradiction | cbn; lia]).
  set (f := S (Z.to_nat (Z.log2 n))).
  assert (Hlog : n < 2 ^ Z.of_nat f).
  { subst f. rewrite Nat2Z.inj_succ, Z2Nat.id by apply Z.log2_nonneg.
    apply Z.log2_spec. lia. }
  assert (Hshort : range_search f (MakeBound value) collid cmp_func ranges
                     strategy 0 (n - 1) <> LoopNoFuel).
  { apply range_search_within; [subst f; lia | lia | lia]. }
  assert (Hfull : range_search (Z.to_nat n) (MakeBound value) collid cmp_func
                    ranges strategy 0 (n - 1) <> LoopNoFuel).
  { destruct (range_search_of_call value collid cmp_func ranges strategy
                ltac:(fold n; lia)) as [H | (i & r & _ & _ & _ & _ & H)];
      fold n in H; rewrite H; discriminate. }
  split; [| exact Hshort].
  destruct (Nat.le_ge_cases f (Z.to_nat n)) as [Hle | Hge].
  - replace (Z.to_nat n) with (f + (Z.to_nat n - f))%nat by lia.
    symmetry. apply range_search_fuel_mono. exact Hshort.
  - replace f with (Z.to_nat n + (f - Z.to_nat n))%nat by lia.
    apply range_search_fuel_mono. exact Hfull.
Qed.

(** ** Schemes without gaps *)

Section Contiguous.

Variable cmp_func : FmgrInfo.
Variable collid : Oid.
Hypothesis Hord : cmp_order (cmp_func collid).

Local Notation "'cb'" := (cmp_bounds cmp_func collid).

Lemma cmp_bounds_eq_compat (v a b : Bound) :
  cb a b = 0 ->
  (cb v a < 0 <-> cb v b < 0) /\ (0 < cb v a <-> 0 < cb v b).
Proof.
  intros Hab.
  pose proof (cmp_bounds_eq_sym _ _ Hord _ _ Hab) as Hba.
  repeat split; intros H.
  - eapply cmp_bounds_lt_le; [exact Hord | exact H | lia].
  - eapply cmp_bounds_lt_le; [exact Hord | exact H | lia].
  - apply (cmp_bounds_flip _ _ Hord). apply (cmp_bounds_flip _ _ Hord) in H.
    eapply cmp_bounds_le_lt; [exact Hord | | exact H]. lia.
  - apply (cmp_bounds_flip _ _ Hord). apply (cmp_bounds_flip _ _ Hord) in H.
    eapply cmp_bounds_le_lt; [exact Hord | | exact H]. lia.
Qed.

(** On an array without gaps, a value between the first min and the last
    max is at some entry neither "less" nor "greater". *)
Lemma contiguous_hit (v : Bound) (strategy : Z) (ranges : list RangeEntry) :
  forall rfirst,
    ranges_contiguous cmp_func collid ranges = true ->
    nth_error ranges 0 = Some rfirst ->
    is_less_at strategy (cb v (min rfirst)) = false ->
    (forall rlast, nth_error ranges (length ranges - 1) = Some rlast ->
                   is_greater_at strategy (cb v (max rlast)) = false) ->
    exists k r,
      nth_error ranges k = Some r
      /\ is_less_at strategy (cb v (min r)) = false
      /\ is_greater_at strategy (cb v (max r)) = false.
Proof.
  induction ranges as [| r rest IH]; intros rfirst Hc Hfirst Hlo Hhi;
    [discriminate |].
  cbn in Hfirst. injection Hfirst as <-.
  destruct (is_greater_at strategy (cb v (max r))) eqn:Hg.
  - destruct rest as [| r' rest'].
    + specialize (Hhi r eq_refl). congruence.
    + cbn [ranges_contiguous] in Hc. apply andb_prop in Hc as [Hadj Hc].
      apply Z.eqb_eq in Hadj.
      destruct (cmp_bounds_eq_compat v _ _ Hadj) as [Hlt Hgt].
      destruct (IH r' Hc eq_refl) as (k & rk & Hk & Hlk & Hgk).
      * unfold is_less_at, is_greater_at in *. zcases.
      * intros rlast Hl. apply Hhi.
        cbn [length] in *. replace (S (S (length rest')) - 1)%nat
          with (S (S (length rest') - 1)) by lia. exact Hl.
      * exists (S k), rk. repeat split; assumption.
  - exists 0%nat, r. repeat split; assumption.
Qed.

End Contiguous.

(** On an ordered array without gaps the search never takes the gap exit,
    and the selector is sound. *)
Lemma select_range_partitions_contiguous_core
    (value : Datum) (collid : Oid) (cmp_func : FmgrInfo)
    (ranges : list RangeEntry) (nranges strategy : Z) (result w : WrapperNode) :
  cmp_order (cmp_func collid) ->
  nranges = Z.of_nat (length ranges) ->
  ranges_sorted cmp_func collid ranges = true ->
  ranges_contiguous cmp_func collid ranges = true ->
  BTLessStrategyNumber <= strategy <= BTGreaterStrategyNumber ->
  select_range_partitions value collid cmp_func ranges nranges strategy result
  = OK w ->
  found_gap w = false
  /\ forall i r key,
       ranges_at ranges i = Some r ->
       span_contains cmp_func collid r key = true ->
       key_satisfies cmp_func collid strategy key value = true ->
       irange_list_mem (rangeset w) i = true.
Proof.
  intros Hord Hn Hsorted Hcont Hstrat Hsel.
  assert (Hgap : found_gap w = false).
  { subst nranges. unfold select_range_partitions in Hsel.
    destruct (Z.eqb_spec (Z.of_nat (length ranges)) 0) as [Hz | Hnz];
      [injection Hsel as <-; reflexivity |].
    destruct (ranges_at_some ranges 0 ltac:(lia)) as [rfirst Hfirst].
    destruct (ranges_at_some ranges (Z.of_nat (length ranges) - 1) ltac:(lia))
      as [rlast Hlast].
    rewrite Hfirst, Hlast in Hsel.
    destruct (range_search_of_call value collid cmp_func ranges strategy Hnz)
      as [Hs | (j & rj & Hj & Hrj & Hl & Hg & Hs)]; rewrite Hs in Hsel.
    - (* the gap exit: only behind a short-circuit *)
      repeat match type of Hsel with
             | (if ?b then _ else _) = _ =>
               destruct b eqn:?; [injection Hsel as <-; reflexivity |]
             end.
      exfalso.
      apply ranges_at_bound in Hfirst as [_ Hfirst].
      apply ranges_at_bound in Hlast as [_ Hlast].
      destruct (contiguous_hit cmp_func collid Hord (MakeBound value) strategy
                  ranges rfirst Hcont Hfirst) as (k & rk & Hk & Hlk & Hgk).
      + unfold is_less_at.
        cbv [BTLessStrategyNumber BTLessEqualStrategyNumber BTEqualStrategyNumber
             BTGreaterEqualStrategyNumber BTGreaterStrategyNumber] in *.
        zcases.
      + intros rl Hrl.
        replace (Z.to_nat (Z.of_nat (length ranges) - 1))
          with (length ranges - 1)%nat in Hlast by lia.
        rewrite Hlast in Hrl. injection Hrl as <-.
        unfold is_greater_at.
        cbv [BTLessStrategyNumber BTLessEqualStrategyNumber BTEqualStrategyNumber
             BTGreaterEqualStrategyNumber BTGreaterStrategyNumber] in *.
        zcases.
      + assert (Hrk : ranges_at ranges (Z.of_nat k) = Some rk).
        { unfold ranges_at. destruct (Z.ltb_spec (Z.of_nat k) 0); [lia |].
          rewrite Nat2Z.id. exact Hk. }
        rewrite (range_search_sorted cmp_func collid ranges Hord Hsorted value
                   strategy (Z.of_nat k) rk Hrk Hlk Hgk) in Hs.
        discriminate.
    - repeat match type of Hsel with
             | (if ?b then _ else _) = _ =>
               destruct b eqn:?; [injection Hsel as <-; reflexivity |]
             end.
      destruct (filter_partitions strategy _ j _) as [rs | msg];
        cbn [bind] in Hsel; [| discriminate].
      injection Hsel as <-. reflexivity. }
  split; [exact Hgap |].
  intros i r key Hr Hspan Hsat.
  exact (select_range_partitions_sound_core value collid cmp_func ranges nranges
           strategy result w Hord Hn Hsorted Hsel Hgap i r key Hr Hspan Hsat).
Qed.

(** X7.  Pruning is sound on a scheme without gaps: on an ordered array
    whose consecutive partitions share their bound, for each of the five
    operators, select_range_partitions never sets found_gap, and its
    rangeset contains every partition whose span holds a key satisfying
    [key OP value]. *)
Theorem select_range_partitions_sound_contiguous
    (value : Datum) (collid : Oid) (cmp_func : FmgrInfo)
    (ranges : list RangeEntry) (nranges strategy : Z) (result w : WrapperNode) :
  cmp_order (cmp_func collid) ->
  nranges = Z.of_nat (length ranges) ->
  ranges_sorted cmp_func collid ranges = true ->
  ranges_contiguous cmp_func collid ranges = true ->
  BTLessStrategyNumber <= strategy <= BTGreaterStrategyNumber ->
  select_range_partitions value collid cmp_func ranges nranges strategy result
  = OK w ->
  found_gap w = false
  /\ forall i r key,
       ranges_at ranges i = Some r ->
       span_contains cmp_func collid r key = true ->
       key_satisfies cmp_func collid strategy key value = true ->
       irange_list_mem (rangeset w) i = true.
Proof.
  exact (select_range_partitions_contiguous_core value collid cmp_func ranges
           nranges strategy result w).
Qed.

(** ** handle_opexpr and the opaque nodes *)

(** A comparison of the partitioning key with a constant is settled by
    the Const handler under the operator's strategy, and the node keeps
    the comparison as its original expression. *)
Lemma handle_opexpr_key_op_const `{PgEnv}
    (opno : Oid) (key_side : Expr) (c : Const) (context : WalkerContext) :
  match_expr_to_operand (prel_expr context) key_side = true ->
  let expr := T_OpExpr opno [key_side; T_Const c] in
  let strategy :=
    get_op_opfamily_strategy opno (btree_opf (ev_type (prel context))) in
  walk_expr_tree expr context
  = (do result <- handle_const c strategy context palloc0_WrapperNode;
     OK (set_orig result expr)).
Proof.
  intros Hkey expr strategy. subst expr.
  cbn [walk_expr_tree]. unfold handle_opexpr.
  cbn [length Z.of_nat Pos.of_succ_nat Pos.succ Z.eqb Pos.eqb is_key_op_param].
  rewrite Hkey. cbn [IsConstValue ExtractConst bind]. reflexivity.
Qed.

(** A comparison of the key with a parameter, when no expression context
    is at hand to evaluate it, selects the full span tagged LOSSY with the
    default selectivity of the scheme and operator. *)
Lemma handle_opexpr_key_op_param `{PgEnv}
    (opno : Oid) (key_side : Expr) (p : Param) (context : WalkerContext) :
  match_expr_to_operand (prel_expr context) key_side = true ->
  econtext context = None ->
  let expr := T_OpExpr opno [key_side; T_Param p] in
  let strategy :=
    get_op_opfamily_strategy opno (btree_opf (ev_type (prel context))) in
  walk_expr_tree expr context
  = OK (mkWrapperNode (Some expr) []
          (list_make1_irange_full (prel context) IR_LOSSY) false
          (estimate_paramsel_using_prel (prel context) strategy)).
Proof.
  intros Hkey Hctx expr strategy. subst expr.
  cbn [walk_expr_tree]. unfold handle_opexpr.
  cbn [length Z.of_nat Pos.of_succ_nat Pos.succ Z.eqb Pos.eqb is_key_op_param].
  rewrite Hkey. unfold IsConstValue, WcxtHasExprContext. rewrite Hctx. reflexivity.
Qed.

(** NOT is not pushed through the bounds: the node of [NOT e] carries the
    walked child, the full span tagged LOSSY and paramsel 1. *)
Lemma handle_boolexpr_not `{PgEnv}
    (e : Expr) (location : Z) (context : WalkerContext) :
  let expr := T_BoolExpr NOT_EXPR [e] location in
  walk_expr_tree expr context
  = (do child <- walk_expr_tree e context;
     OK (mkWrapperNode (Some expr) [child]
           (list_make1_irange_full (prel context) IR_LOSSY) false 1%float)).
Proof.
  intros expr. subst expr.
  cbn [walk_expr_tree]. unfold handle_boolexpr.
  cbn [fold_left]. unfold boolexpr_step. cbn [bind].
  destruct (walk_expr_tree e context) as [child | msg]; reflexivity.
Qed.

(** X8.  The walker does not look at the side the key is on: a comparison
    written [const OP key] gets the node of [key OP const], under the
    strategy of OP itself and not of its commutator; only the original
    expression kept in the node differs. *)
Theorem walk_ignores_operand_order `{PgEnv} (opno : Oid) (key_side : Expr) (c : Const)
    (context : WalkerContext) :
  match_expr_to_operand (prel_expr context) key_side = true ->
  match_expr_to_operand (prel_expr context) (T_Const c) = false ->
  walk_expr_tree (T_OpExpr opno [T_Const c; key_side]) context
  = (do w <- walk_expr_tree (T_OpExpr opno [key_side; T_Const c]) context;
     OK (set_orig w (T_OpExpr opno [T_Const c; key_side]))).
Proof.
  intros Hkey Hconst.
  cbn [walk_expr_tree]. unfold handle_opexpr.
  cbn [length Z.of_nat Pos.of_succ_nat Pos.succ Z.eqb Pos.eqb is_key_op_param].
  rewrite Hkey, Hconst. cbn [IsConstValue ExtractConst bind].
  destruct (handle_const c _ context palloc0_WrapperNode) as [w | msg];
    reflexivity.
Qed.

(** ** The original expression of a node *)

Lemma select_range_partitions_orig (value : Datum) (collid : Oid)
    (cmp_func : FmgrInfo) (ranges : list RangeEntry) (nranges strategy : Z)
    (result w : WrapperNode) :
  select_range_partitions value collid cmp_func ranges nranges strategy result
  = OK w ->
  orig w = orig result.
Proof.
  unfold select_range_partitions, bind. intros Hsel.
  repeat match type of Hsel with
         | (if ?b then _ else _) = _ => destruct b
         | match ?x with _ => _ end = _ => destruct x
         end;
    try discriminate; injection Hsel as <-; reflexivity.
Qed.

Lemma handle_const_orig `{PgEnv} (c : Const) (strategy : Z)
    (context : WalkerContext) (result w : WrapperNode) :
  handle_const c strategy context result = OK w ->
  orig w = orig result.
Proof.
  unfold handle_const, bind. intros Hconst.
  repeat match type of Hconst with
         | (if ?b then _ else _) = _ => destruct b
         | match ?x with _ => _ end = _ => destruct x eqn:?
         end;
    try discriminate; injection Hconst as <-;
    cbn [orig set_paramsel set_rangeset]; try reflexivity.
  eapply select_range_partitions_orig. eassumption.
Qed.

Lemma boolexpr_fold_orig (walk : Expr -> res WrapperNode) (boolop : BoolExprType)
    (p : PartRelationInfo) (eargs : list Expr) :
  forall r r',
    fold_left (boolexpr_step walk boolop p) eargs (OK r) = OK r' ->
    orig r' = orig r.
Proof.
  induction eargs as [| e rest IH]; intros r r' Hfold.
  - injection Hfold as <-. reflexivity.
  - cbn [fold_left] in Hfold. unfold boolexpr_step at 2 in Hfold.
    cbn [bind] in Hfold.
    destruct (walk e) as [w |]; cbn [bind] in Hfold;
      [| rewrite boolexpr_fold_error in Hfold; discriminate].
    destruct boolop; apply IH in Hfold; exact Hfold.
Qed.

Lemma arrexpr_fold_orig `{PgEnv} (elemtype : Oid) (useOr : bool) (strategy : Z)
    (context : WalkerContext) (elems : list (Datum * bool)) :
  forall st st',
    fold_left (arrexpr_step elemtype useOr strategy context) elems (OK st)
    = OK st' ->
    orig (snd st') = orig (snd st).
Proof.
  induction elems as [| elem rest IH]; intros st st' Hfold.
  - injection Hfold as <-. reflexivity.
  - cbn [fold_left] in Hfold. unfold arrexpr_step at 2 in Hfold.
    cbn [bind] in Hfold.
    destruct (handle_const _ strategy context palloc0_WrapperNode) as [w |];
      cbn [bind] in Hfold;
      [| rewrite arrexpr_fold_error in Hfold; discriminate].
    apply IH in Hfold. exact Hfold.
Qed.

(** X17.  Every node but that of a Const keeps its expression: a
    successful walk of an expression other than a Const leaves the
    expression as the node's orig; the node of a Const has none, since
    handle_const never sets it, and rebuilding that node for a partition
    its rangeset tags LOSSY ends in an error, the read through the NULL
    orig. *)
Theorem walk_expr_tree_orig `{PgEnv} (e : Expr) (context : WalkerContext) (w : WrapperNode) :
  walk_expr_tree e context = OK w ->
  match e with
  | T_Const _ =>
    orig w = None
    /\ forall i,
         irange_list_find (rangeset w) i = (true, true) ->
         exists msg, wrapper_make_expression w i = Error msg
  | _ => orig w = Some e
  end.
Proof.
  intros Hwalk.
  destruct e as [c | prm | a | boolop eargs location | opno eargs
                 | opno useOr exprnode arraynode | tag];
    try (injection Hwalk as <-; reflexivity).
  - (* Const *)
    cbn [walk_expr_tree] in Hwalk. apply handle_const_orig in Hwalk.
    cbn [orig palloc0_WrapperNode] in Hwalk. split; [exact Hwalk |].
    intros i Hfind. destruct w as [worig wargs wrangeset wgap wsel].
    cbn [orig rangeset] in *. subst worig.
    cbn [wrapper_make_expression]. rewrite Hfind. cbn [fst snd negb].
    eexists; reflexivity.
  - (* BoolExpr *)
    cbn [walk_expr_tree] in Hwalk. unfold handle_boolexpr in Hwalk.
    destruct (fold_left _ eargs _) as [r |] eqn:Hfold; cbn [bind] in Hwalk;
      [| discriminate].
    apply boolexpr_fold_orig in Hfold. cbn [orig set_rangeset set_paramsel
                                            set_args set_orig] in Hfold.
    destruct boolop; try (injection Hwalk as <-; exact Hfold).
    injection Hwalk as <-. cbn [orig set_paramsel].
    rewrite or_paramsel_fold. exact Hfold.
  - (* OpExpr *)
    cbn [walk_expr_tree] in Hwalk. unfold handle_opexpr, bind in Hwalk.
    repeat match type of Hwalk with
           | (if ?b then _ else _) = _ => destruct b
           | match ?x with _ => _ end = _ => destruct x
           end;
      try discriminate; injection Hwalk as <-; reflexivity.
  - (* ScalarArrayOpExpr *)
    cbn [walk_expr_tree] in Hwalk. unfold handle_arrexpr in Hwalk.
    destruct (negb (match_expr_to_operand _ exprnode));
      [injection Hwalk as <-; reflexivity |].
    destruct arraynode as [ac | | | | | |];
      try (injection Hwalk as <-; reflexivity).
    destruct (negb (constisnull ac)); [| injection Hwalk as <-; reflexivity].
    destruct (fold_left _ _ _) as [st |] eqn:Hfold; cbn [bind] in Hwalk;
      [| discriminate].
    apply arrexpr_fold_orig in Hfold. cbn [snd orig set_orig] in Hfold.
    destruct (_ =? 0); injection Hwalk as <-; exact Hfold.
Qed.

(** ** The walk raises no error *)

Section WalkReturns.

Context `{PgEnv}.
Variable context : WalkerContext.

Local Notation "'p'" := (prel context).

Hypothesis Hstrategies :
  forall opno opf, 0 <= get_op_opfamily_strategy opno opf <= 5.
Hypothesis Hscheme :
  (parttype p = PT_RANGE
   /\ PrelChildrenCount p = Z.of_nat (length (PrelGetRangesArray p)))
  \/ (parttype p = PT_HASH
      /\ 0 < PrelChildrenCount p
      /\ forall v from to, perform_type_cast v from to <> None).

Lemma handle_const_returns (c : Const) (strategy : Z) (result : WrapperNode) :
  0 <= strategy <= 5 ->
  exists w, handle_const c strategy context result = OK w.
Proof.
  intros Hs. unfold handle_const.
  destruct (Z.eqb_spec strategy 0) as [| Hnz]; [eexists; reflexivity |].
  destruct (constisnull c); [eexists; reflexivity |].
  destruct (consttype c =? BOOLOID).
  { destruct (constvalue c =? BoolGetDatum false); eexists; reflexivity. }
  destruct Hscheme as [[-> Hcount] | (-> & _ & Hcast)].
  - match goal with
    | |- context [if ?b then _ else _] => destruct b; [eexists; reflexivity |]
    end.
    destruct (select_range_partitions_returns_core
                (constvalue c) (constcollid c)
                (fill_type_cmp_fmgr_info (getBaseType (consttype c))
                                         (getBaseType (ev_type p)))
                (PrelGetRangesArray p) (PrelChildrenCount p) strategy result
                Hcount ltac:(lia)) as [w ->].
    eexists; reflexivity.
  - destruct (negb (strategy =? BTEqualStrategyNumber)); [eexists; reflexivity |].
    destruct (negb (ev_type p =? consttype c)).
    + destruct (perform_type_cast (constvalue c) (getBaseType (consttype c))
                                  (getBaseType (ev_type p))) as [v |] eqn:Hv;
        [eexists; reflexivity |].
      exfalso. exact (Hcast _ _ _ Hv).
    + eexists; reflexivity.
Qed.

Lemma boolexpr_fold_returns (walk : Expr -> res WrapperNode)
    (boolop : BoolExprType) (eargs : list Expr) :
  Forall (fun e => exists w, walk e = OK w) eargs ->
  forall r, exists r',
    fold_left (boolexpr_step walk boolop p) eargs (OK r) = OK r'.
Proof.
  induction 1 as [| e rest [w Hw] _ IH]; intros r; [eexists; reflexivity |].
  cbn [fold_left]. unfold boolexpr_step at 2. cbn [bind]. rewrite Hw. cbn [bind].
  destruct boolop; apply IH.
Qed.

Lemma arrexpr_fold_returns (elemtype : Oid) (useOr : bool) (strategy : Z)
    (elems : list (Datum * bool)) :
  0 <= strategy <= 5 ->
  forall st, exists st',
    fold_left (arrexpr_step elemtype useOr strategy context) elems (OK st)
    = OK st'.
Proof.
  intros Hs. induction elems as [| elem rest IH]; intros st;
    [eexists; reflexivity |].
  cbn [fold_left]. unfold arrexpr_step at 2. cbn [bind].
  destruct (handle_const_returns
              (mkConst elemtype (-1) InvalidOid (fst elem) (snd elem)) strategy
              palloc0_WrapperNode Hs) as [w ->].
  cbn [bind]. apply IH.
Qed.

Lemma walk_expr_tree_returns_all (e : Expr) :
  exists w, walk_expr_tree e context = OK w.
Proof.
  induction e as [c | prm | a | boolop eargs location IH | opno eargs _
                  | opno useOr exprnode arraynode _ _ | tag]
    using Expr_nested_ind; try (eexists; reflexivity).
  - (* Const *)
    apply handle_const_returns. unfold BTEqualStrategyNumber. lia.
  - (* BoolExpr *)
    cbn [walk_expr_tree]. unfold handle_boolexpr.
    match goal with
    | |- context [fold_left _ eargs (OK ?r)] =>
      destruct (boolexpr_fold_returns (fun e => walk_expr_tree e context)
                  boolop eargs IH r) as [r' ->]
    end.
    cbn [bind]. destruct boolop; eexists; reflexivity.
  - (* OpExpr *)
    cbn [walk_expr_tree]. unfold handle_opexpr.
    destruct (Z.of_nat (length eargs) =? 2); [| eexists; reflexivity].
    destruct (is_key_op_param eargs context) as [param |];
      [| eexists; reflexivity].
    destruct (IsConstValue param context) eqn:Hconst.
    + assert (Hc : exists c, ExtractConst param context = OK c).
      { destruct param; cbn in Hconst |- *; try discriminate;
          [eexists; reflexivity |].
        unfold WcxtHasExprContext in Hconst. unfold extract_const.
        destruct (econtext context); [eexists; reflexivity | discriminate]. }
      destruct Hc as [c ->]. cbn [bind].
      destruct (handle_const_returns c
                  (get_op_opfamily_strategy opno (btree_opf (ev_type p)))
                  palloc0_WrapperNode (Hstrategies _ _)) as [w ->].
      eexists; reflexivity.
    + destruct param; eexists; reflexivity.
  - (* ScalarArrayOpExpr *)
    cbn [walk_expr_tree]. unfold handle_arrexpr.
    destruct (negb (match_expr_to_operand (prel_expr context) exprnode));
      [eexists; reflexivity |].
    destruct arraynode as [ac | | | | | |]; try (eexists; reflexivity).
    destruct (negb (constisnull ac)); [| eexists; reflexivity].
    match goal with
    | |- context [fold_left (arrexpr_step ?t ?u ?s context) ?l (OK ?st)] =>
      destruct (arrexpr_fold_returns t u s l (Hstrategies _ _) st) as [st' ->]
    end.
    cbn [bind]. eexists; reflexivity.
Qed.

End WalkReturns.

(** X18.  The walk raises no error: when every operator has a btree
    strategy between 0 and 5, on a RANGE scheme whose count of partitions
    is the length of its ranges array, and on a HASH scheme with at least
    one partition whose type casts succeed, walk_expr_tree returns a node
    for every expression; "Unknown btree strategy", a read outside the
    ranges array, a failed cast and a Param without a context are never
    met. *)
Theorem walk_expr_tree_returns `{PgEnv} (context : WalkerContext) (e : Expr) :
  let p := prel context in
  (forall opno opf, 0 <= get_op_opfamily_strategy opno opf <= 5) ->
  (parttype p = PT_RANGE
   /\ PrelChildrenCount p = Z.of_nat (length (PrelGetRangesArray p)))
  \/ (parttype p = PT_HASH
      /\ 0 < PrelChildrenCount p
      /\ forall v from to, perform_type_cast v from to <> None) ->
  exists w, walk_expr_tree e context = OK w.
Proof.
  intros p Hstrategies Hscheme.
  exact (walk_expr_tree_returns_all context Hstrategies Hscheme e).
Qed.

(** ** The rangeset algebra, index by index *)

Lemma irange_tag_at_cons (r : IndexRange) (rest : list IndexRange) (i : Z) :
  irange_tag_at (r :: rest) i
  = if (irange_lower r <=? i) && (i <=? irange_upper r)
    then Some (irange_tag r) else irange_tag_at rest i.
Proof.
  unfold irange_tag_at. cbn [irange_list_find].
  destruct ((irange_lower r <=? i) && (i <=? irange_upper r)); [| reflexivity].
  destruct (irange_tag r); reflexivity.
Qed.

Lemma tag_eqb_eq (a b : IRangeTag) : tag_eqb a b = true -> a = b.
Proof. destruct a, b; cbn; congruence. Qed.

Lemma irange_cons_inhabited (index : Z) (t : IRangeTag) (rangeset : list IndexRange) :
  spans_inhabited rangeset -> spans_inhabited (irange_cons index t rangeset).
Proof.
  unfold spans_inhabited, irange_cons. intros Hrs.
  destruct rangeset as [| r rest].
  - constructor; [cbn; lia | constructor].
  - inversion Hrs as [| ? ? Hr Hrest]; subst.
    destruct ((irange_lower r =? index + 1) && tag_eqb (irange_tag r) t) eqn:Hmerge.
    + apply andb_prop in Hmerge as [Hlow _]. apply Z.eqb_eq in Hlow.
      constructor; [cbn; lia | exact Hrest].
    + constructor; [cbn; lia | exact Hrs].
Qed.

Lemma irange_tag_at_irange_cons (index : Z) (t : IRangeTag)
    (rangeset : list IndexRange) (i : Z) :
  spans_inhabited rangeset ->
  irange_tag_at (irange_cons index t rangeset) i
  = if i =? index then Some t else irange_tag_at rangeset i.
Proof.
  unfold irange_cons. intros Hrs. destruct rangeset as [| r rest].
  - rewrite irange_tag_at_cons. cbn [irange_lower irange_upper irange_tag].
    unfold irange_tag_at. cbn [irange_list_find]. zcases.
  - inversion Hrs as [| ? ? Hr Hrest]; subst.
    destruct ((irange_lower r =? index + 1) && tag_eqb (irange_tag r) t) eqn:Hmerge.
    + apply andb_prop in Hmerge as [Hlow Htag].
      apply Z.eqb_eq in Hlow. apply tag_eqb_eq in Htag.
      rewrite !irange_tag_at_cons. cbn [irange_lower irange_upper irange_tag].
      rewrite Hlow in *. rewrite Htag. zcases.
    + rewrite (irange_tag_at_cons (make_irange index index t)).
      cbn [irange_lower irange_upper irange_tag]. zcases.
Qed.

Lemma irange_list_of_inhabited (f : Z -> option IRangeTag) (count : nat) :
  forall from, spans_inhabited (irange_list_of f from count).
Proof.
  induction count as [| n IH]; intros from; [constructor |].
  cbn [irange_list_of]. destruct (f from); [| apply IH].
  apply irange_cons_inhabited, IH.
Qed.

Lemma irange_tag_at_irange_list_of (f : Z -> option IRangeTag) (count : nat) :
  forall from i,
    irange_tag_at (irange_list_of f from count) i
    = if (from <=? i) && (i <? from + Z.of_nat count) then f i else None.
Proof.
  induction count as [| n IH]; intros from i.
  - cbn [irange_list_of]. unfold irange_tag_at. cbn [irange_list_find]. zcases.
  - cbn [irange_list_of]. destruct (f from) as [t |] eqn:Hf.
    + rewrite irange_tag_at_irange_cons by apply irange_list_of_inhabited.
      rewrite IH.
      destruct (Z.eqb_spec i from) as [-> | Hne]; [rewrite Hf |]; zcases.
    + rewrite IH. destruct (Z.eqb_spec i from) as [-> | Hne]; [rewrite Hf |]; zcases.
Qed.

Lemma irange_tag_at_none (rangeset : list IndexRange) (i : Z) :
  (forall r, In r rangeset -> irange_upper r < i) ->
  irange_tag_at rangeset i = None.
Proof.
  induction rangeset as [| r rest IH]; intros Hup; [reflexivity |].
  rewrite irange_tag_at_cons.
  pose proof (Hup r (or_introl eq_refl)).
  destruct (Z.leb_spec i (irange_upper r)); [lia |].
  rewrite andb_false_r. apply IH. intros r' Hr'. apply Hup. right. exact Hr'.
Qed.

Lemma irange_list_bound_fold (rangeset : list IndexRange) :
  forall b,
    b <= fold_left (fun b r => Z.max b (irange_upper r + 1)) rangeset b
    /\ forall r, In r rangeset ->
         irange_upper r + 1
         <= fold_left (fun b r => Z.max b (irange_upper r + 1)) rangeset b.
Proof.
  induction rangeset as [| r rest IH]; intros b.
  - split; [cbn; lia | intros r []].
  - cbn [fold_left]. destruct (IH (Z.max b (irange_upper r + 1))) as [Hb Hin].
    split; [lia |].
    intros r' [<- | Hr']; [lia | apply Hin; exact Hr'].
Qed.

Lemma irange_tag_at_above (rangeset : list IndexRange) (i : Z) :
  irange_list_bound rangeset <= i -> irange_tag_at rangeset i = None.
Proof.
  unfold irange_list_bound. intros Hi. apply irange_tag_at_none.
  intros r Hr. pose proof (proj2 (irange_list_bound_fold rangeset 0) r Hr). lia.
Qed.

Lemma irange_tag_at_union (a b : list IndexRange) (i : Z) :
  0 <= i ->
  irange_tag_at (irange_list_union a b) i
  = union_tag (irange_tag_at a i) (irange_tag_at b i).
Proof.
  intros Hi. unfold irange_list_union. rewrite irange_tag_at_irange_list_of.
  destruct (Z.leb_spec 0 i); [| lia]. cbn [andb].
  destruct (Z.ltb_spec i (0 + Z.of_nat (Z.to_nat (Z.max (irange_list_bound a)
                                                         (irange_list_bound b)))));
    [reflexivity |].
  rewrite (irange_tag_at_above a), (irange_tag_at_above b) by lia. reflexivity.
Qed.

Lemma irange_tag_at_intersection (a b : list IndexRange) (i : Z) :
  0 <= i ->
  irange_tag_at (irange_list_intersection a b) i
  = intersect_tag (irange_tag_at a i) (irange_tag_at b i).
Proof.
  intros Hi. unfold irange_list_intersection. rewrite irange_tag_at_irange_list_of.
  destruct (Z.leb_spec 0 i); [| lia]. cbn [andb].
  destruct (Z.ltb_spec i (0 + Z.of_nat (Z.to_nat (Z.max (irange_list_bound a)
                                                         (irange_list_bound b)))));
    [reflexivity |].
  rewrite (irange_tag_at_above a), (irange_tag_at_above b) by lia. reflexivity.
Qed.

Lemma irange_tag_at_full (p : PartRelationInfo) (t : IRangeTag) (i : Z) :
  0 <= i < PrelChildrenCount p ->
  irange_tag_at (list_make1_irange_full p t) i = Some t.
Proof.
  intros Hi. unfold list_make1_irange_full, PrelLastChild.
  rewrite irange_tag_at_cons. cbn [irange_lower irange_upper irange_tag]. zcases.
Qed.

(** The tag an AND node gives an index, from the tags of its children. *)
Lemma intersect_tags_fold (tags : list (option IRangeTag)) :
  forall acc,
    fold_left intersect_tag tags acc
    = match acc with
      | None => None
      | Some a =>
        if existsb (fun t => match t with None => true | _ => false end) tags
        then None
        else if forallb (fun t => match t with
                                  | Some IR_COMPLETE => true
                                  | _ => false
                                  end) tags
             then Some a
             else Some IR_LOSSY
      end.
Proof.
  induction tags as [| t rest IH]; intros acc.
  - destruct acc; reflexivity.
  - cbn [fold_left existsb forallb]. rewrite IH.
    destruct acc as [[|] |], t as [[|] |]; cbn [intersect_tag orb andb];
      try reflexivity;
      destruct (existsb _ rest); try reflexivity;
      destruct (forallb _ rest); reflexivity.
Qed.

(** The tag an OR node gives an index, from the tags of its children. *)
Lemma union_tags_fold (tags : list (option IRangeTag)) :
  forall acc,
    fold_left union_tag tags acc
    = if match acc with Some IR_COMPLETE => true | _ => false end
         || existsb (fun t => match t with
                              | Some IR_COMPLETE => true
                              | _ => false
                              end) tags
      then Some IR_COMPLETE
      else if match acc with Some _ => true | None => false end
              || existsb (fun t => match t with Some _ => true | None => false end)
                         tags
           then Some IR_LOSSY
           else None.
Proof.
  induction tags as [| t rest IH]; intros acc.
  - destruct acc as [[|] |]; reflexivity.
  - cbn [fold_left existsb]. rewrite IH.
    destruct acc as [[|] |], t as [[|] |]; cbn [union_tag orb];
      try reflexivity;
      destruct (existsb _ rest); try reflexivity.
Qed.

Lemma tag_at_fold_intersection (children : list WrapperNode) (i : Z) :
  0 <= i ->
  forall acc,
    irange_tag_at (fold_left irange_list_intersection (map rangeset children) acc) i
    = fold_left intersect_tag
        (map (fun c => irange_tag_at (rangeset c) i) children)
        (irange_tag_at acc i).
Proof.
  intros Hi. induction children as [| c rest IH]; intros acc; [reflexivity |].
  cbn [map fold_left]. rewrite IH, irange_tag_at_intersection by exact Hi.
  reflexivity.
Qed.

Lemma tag_at_fold_union (children : list WrapperNode) (i : Z) :
  0 <= i ->
  forall acc,
    irange_tag_at (fold_left irange_list_union (map rangeset children) acc) i
    = fold_left union_tag
        (map (fun c => irange_tag_at (rangeset c) i) children)
        (irange_tag_at acc i).
Proof.
  intros Hi. induction children as [| c rest IH]; intros acc; [reflexivity |].
  cbn [map fold_left]. rewrite IH, irange_tag_at_union by exact Hi.
  reflexivity.
Qed.

(** ** Walking a clause and rebuilding it for a partition *)

(** Tags and the answers of irange_list_find. *)
Lemma irange_tag_at_find (rangeset : list IndexRange) (i : Z) :
  irange_list_find rangeset i
  = match irange_tag_at rangeset i with
    | None => (false, snd (irange_list_find rangeset i))
    | Some IR_COMPLETE => (true, false)
    | Some IR_LOSSY => (true, true)
    end.
Proof.
  unfold irange_tag_at.
  destruct (irange_list_find rangeset i) as [[|] [|]]; reflexivity.
Qed.

(** The outcome of a node at an index, by the tag of the index. *)
Lemma wrapper_make_expression_tag (w : WrapperNode) (i : Z) :
  match irange_tag_at (rangeset w) i with
  | None => wrapper_make_expression w i = OK Exclude
  | Some IR_COMPLETE => wrapper_make_expression w i = OK NoFilter
  | Some IR_LOSSY =>
    (exists msg, wrapper_make_expression w i = Error msg)
    \/ exists f, wrapper_make_expression w i = OK (Filter f)
  end.
Proof.
  destruct w as [worig wargs wrangeset wgap wsel].
  cbn [rangeset wrapper_make_expression].
  rewrite (irange_tag_at_find wrangeset i).
  destruct (irange_tag_at wrangeset i) as [[|] |]; cbn [fst snd negb];
    try reflexivity.
  destruct worig as [e |]; [| left; eauto].
  destruct e as [| | | boolop eargs location | | |]; try (right; eauto; fail).
  destruct boolop; try (right; eauto; fail).
  - destruct (fold_left _ wargs (OK [])) as [es | msg]; cbn [bind];
      [right | left; eauto].
    unfold make_boolexpr. destruct es as [| ? [| ? ?]]; eauto.
  - destruct (fold_left _ wargs (OK [])) as [es | msg]; cbn [bind];
      [right | left; eauto].
    unfold make_boolexpr. destruct es as [| ? [| ? ?]]; eauto.
Qed.

(** The same from the outcome's side: what is left when no error is
    raised. *)
Lemma outcome_tag (w : WrapperNode) (i : Z) (o : option Expr * bool) :
  wrapper_make_expression w i = OK o ->
  match irange_tag_at (rangeset w) i with
  | None => o = Exclude
  | Some IR_COMPLETE => o = NoFilter
  | Some IR_LOSSY => exists f, o = Filter f
  end.
Proof.
  intros Ho. pose proof (wrapper_make_expression_tag w i) as Ht.
  destruct (irange_tag_at (rangeset w) i) as [[|] |].
  - congruence.
  - destruct Ht as [[msg Hm] | [f Hf]]; [congruence |].
    exists f. congruence.
  - congruence.
Qed.

Lemma res_map_ok {A B : Type} (f : A -> res B) (l : list A) (bs : list B) :
  res_map f l = OK bs -> Forall2 (fun a b => f a = OK b) l bs.
Proof.
  revert bs. induction l as [| a rest IH]; intros bs Hm.
  - injection Hm as <-. constructor.
  - cbn [res_map] in Hm. destruct (f a) as [b |] eqn:Hb; cbn [bind] in Hm;
      [| discriminate].
    destruct (res_map f rest) as [bs' |]; cbn [bind] in Hm; [| discriminate].
    injection Hm as <-. constructor; [exact Hb | apply IH; reflexivity].
Qed.

Section Rebuild.

Context `{PgEnv}.
Variable context : WalkerContext.
Variable truth : Expr -> Datum -> bool.
Variable span : Datum -> bool.
Variable i : Z.
Hypothesis Hi : 0 <= i < PrelChildrenCount (prel context).

Local Notation "'holds'" := (clause_holds truth).

Lemma children_outcomes (eargs : list Expr) (children : list WrapperNode) :
  Forall2 (child_agrees truth span i) eargs children ->
  exists rs,
    res_map (fun c => wrapper_make_expression c i) children = OK rs
    /\ Forall2 (fun c o => wrapper_make_expression c i = OK o) children rs
    /\ Forall2 (fun e o => filter_agrees truth e span (OK o)) eargs rs.
Proof.
  induction 1 as [| e w eargs children Hew _ (rs & Hmap & Hout & Hagree)].
  - exists []. repeat split; constructor.
  - unfold child_agrees in Hew.
    destruct (wrapper_make_expression w i) as [o | msg] eqn:Ho; [| destruct Hew].
    exists (o :: rs). repeat split.
    + cbn [res_map]. rewrite Ho, Hmap. reflexivity.
    + constructor; assumption.
    + constructor; assumption.
Qed.

(** AND: the survivors stand for all the children when none is excluded,
    and an excluded child makes the conjunction false. *)
Lemma and_outcomes (eargs : list Expr) (rs : list (option Expr * bool)) :
  Forall2 (fun e o => filter_agrees truth e span (OK o)) eargs rs ->
  forall key, span key = true ->
    (existsb (fun o => match o with (None, false) => true | _ => false end) rs = true ->
     forallb (fun a => holds a key) eargs = false)
    /\ (existsb (fun o => match o with (None, false) => true | _ => false end) rs
        = false ->
        forallb (fun a => holds a key) (surviving rs)
        = forallb (fun a => holds a key) eargs).
Proof.
  induction 1 as [| e o eargs rs Heo _ IH]; intros key Hkey.
  - split; [discriminate | reflexivity].
  - destruct (IH key Hkey) as [IHex IHall].
    cbn [existsb forallb]. unfold surviving in *. cbn [flat_map].
    destruct o as [[f |] [|]]; cbn [filter_agrees fst app forallb orb] in *.
    + split; [intros Hex; rewrite (IHex Hex); apply andb_false_r |].
      intros Hex. rewrite (IHall Hex), (Heo key Hkey). reflexivity.
    + split; [intros Hex; rewrite (IHex Hex); apply andb_false_r |].
      intros Hex. rewrite (IHall Hex), (Heo key Hkey). reflexivity.
    + split; [intros Hex; rewrite (IHex Hex); apply andb_false_r |].
      intros Hex. rewrite (IHall Hex), (Heo key Hkey). reflexivity.
    + split; [intros _; rewrite (Heo key Hkey); reflexivity | discriminate].
Qed.

(** OR: the survivors stand for all the children when none is always
    true, and a child that is always true makes the disjunction true. *)
Lemma or_outcomes (eargs : list Expr) (rs : list (option Expr * bool)) :
  Forall2 (fun e o => filter_agrees truth e span (OK o)) eargs rs ->
  forall key, span key = true ->
    (existsb (fun o => match o with (None, true) => true | _ => false end) rs = true ->
     existsb (fun a => holds a key) eargs = true)
    /\ (existsb (fun o => match o with (None, true) => true | _ => false end) rs
        = false ->
        existsb (fun a => holds a key) (surviving rs)
        = existsb (fun a => holds a key) eargs).
Proof.
  induction 1 as [| e o eargs rs Heo _ IH]; intros key Hkey.
  - split; [discriminate | reflexivity].
  - destruct (IH key Hkey) as [IHex IHall].
    cbn [existsb]. unfold surviving in *. cbn [flat_map].
    destruct o as [[f |] [|]]; cbn [filter_agrees fst app existsb orb] in *.
    + split; [intros Hex; rewrite (IHex Hex); apply orb_true_r |].
      intros Hex. rewrite (IHall Hex), (Heo key Hkey). reflexivity.
    + split; [intros Hex; rewrite (IHex Hex); apply orb_true_r |].
      intros Hex. rewrite (IHall Hex), (Heo key Hkey). reflexivity.
    + split; [intros _; rewrite (Heo key Hkey); reflexivity | discriminate].
    + split; [intros Hex; rewrite (IHex Hex); apply orb_true_r |].
      intros Hex. rewrite (IHall Hex), (Heo key Hkey). reflexivity.
Qed.

(** The children's tags at [i], read off their outcomes. *)
Lemma outcomes_tags (children : list WrapperNode) (rs : list (option Expr * bool)) :
  Forall2 (fun c o => wrapper_make_expression c i = OK o) children rs ->
  existsb (fun t => match t with None => true | _ => false end)
          (map (fun c => irange_tag_at (rangeset c) i) children)
  = existsb (fun o => match o with (None, false) => true | _ => false end) rs
  /\ existsb (fun t => match t with Some IR_COMPLETE => true | _ => false end)
             (map (fun c => irange_tag_at (rangeset c) i) children)
     = existsb (fun o => match o with (None, true) => true | _ => false end) rs
  /\ forallb (fun t => match t with Some IR_COMPLETE => true | _ => false end)
             (map (fun c => irange_tag_at (rangeset c) i) children)
     = forallb (fun o => match o with (None, true) => true | _ => false end) rs
  /\ existsb (fun t => match t with Some _ => true | None => false end)
             (map (fun c => irange_tag_at (rangeset c) i) children)
     = existsb (fun o => match o with (None, false) => false | _ => true end) rs.
Proof.
  induction 1 as [| c o children rs Hco _ (IH1 & IH2 & IH3 & IH4)].
  - repeat split.
  - cbn [map existsb forallb]. rewrite IH1, IH2, IH3, IH4.
    pose proof (outcome_tag c i o Hco) as Ht.
    destruct (irange_tag_at (rangeset c) i) as [[|] |].
    + subst o. repeat split.
    + destruct Ht as [f ->]. repeat split.
    + subst o. repeat split.
Qed.

Lemma holds_make_boolexpr_and (location : Z) (es : list Expr) (key : Datum) :
  match make_boolexpr AND_EXPR location es with
  | (Some f, _) => holds f key = forallb (fun a => holds a key) es
  | _ => False
  end.
Proof.
  unfold make_boolexpr. destruct es as [| e [| e' rest]]; cbn [Filter].
  - reflexivity.
  - cbn [forallb]. rewrite andb_true_r. reflexivity.
  - reflexivity.
Qed.

Lemma holds_make_boolexpr_or (location : Z) (es : list Expr) (key : Datum) :
  match make_boolexpr OR_EXPR location es with
  | (Some f, _) => holds f key = existsb (fun a => holds a key) es
  | _ => False
  end.
Proof.
  unfold make_boolexpr. destruct es as [| e [| e' rest]]; cbn [Filter].
  - reflexivity.
  - cbn [existsb]. rewrite orb_false_r. reflexivity.
  - reflexivity.
Qed.

(** An AND node agrees with its clause when its children do. *)
Lemma and_node_agrees (eargs : list Expr) (location : Z) (w : WrapperNode) :
  walk_expr_tree (T_BoolExpr AND_EXPR eargs location) context = OK w ->
  (forall children,
     res_map (fun e => walk_expr_tree e context) eargs = OK children ->
     Forall2 (child_agrees truth span i) eargs children) ->
  filter_agrees truth (T_BoolExpr AND_EXPR eargs location) span
                (wrapper_make_expression w i).
Proof.
  intros Hwalk Hchildren.
  cbn [walk_expr_tree] in Hwalk. unfold handle_boolexpr in Hwalk.
  rewrite boolexpr_fold_and in Hwalk.
  destruct (res_map _ eargs) as [children | msg] eqn:Hmap; cbn [bind] in Hwalk;
    [| discriminate].
  injection Hwalk as <-.
  cbn [args rangeset set_orig set_args set_paramsel set_rangeset
       palloc0_WrapperNode orig found_gap paramsel app].
  specialize (Hchildren children eq_refl).
  destruct (children_outcomes eargs children Hchildren) as (rs & Hrs & Hout & Hagree).
  destruct (outcomes_tags children rs Hout) as (Tnone & _ & Tall & _).
  cbn [wrapper_make_expression].
  rewrite irange_tag_at_find, tag_at_fold_intersection by lia.
  rewrite irange_tag_at_full by exact Hi.
  rewrite intersect_tags_fold, Tnone, Tall.
  destruct (existsb _ rs) eqn:Hex.
  - cbn [fst snd negb filter_agrees]. intros key Hkey.
    cbn [clause_holds]. exact (proj1 (and_outcomes eargs rs Hagree key Hkey) Hex).
  - destruct (forallb _ rs) eqn:Hall.
    + cbn [fst snd negb filter_agrees]. intros key Hkey. cbn [clause_holds].
      rewrite <- (proj2 (and_outcomes eargs rs Hagree key Hkey) Hex).
      assert (Hs : surviving rs = []).
      { clear - Hall. induction rs as [| [[f |] [|]] rest IH];
          cbn [forallb andb] in Hall; try discriminate; [reflexivity |].
        unfold surviving in *. cbn [flat_map fst app]. apply IH. exact Hall. }
      rewrite Hs. reflexivity.
    + cbn [fst snd negb]. rewrite collect_fold, Hrs. cbn [bind app].
      pose proof (holds_make_boolexpr_and location (surviving rs)) as Hmk.
      destruct (make_boolexpr AND_EXPR location (surviving rs)) as [[f |] always];
        [| destruct (Hmk 0)].
      cbn [filter_agrees]. intros key Hkey. cbn [clause_holds].
      rewrite (Hmk key).
      exact (proj2 (and_outcomes eargs rs Hagree key Hkey) Hex).
Qed.

(** An OR node agrees with its clause when its children do. *)
Lemma or_node_agrees (eargs : list Expr) (location : Z) (w : WrapperNode) :
  walk_expr_tree (T_BoolExpr OR_EXPR eargs location) context = OK w ->
  (forall children,
     res_map (fun e => walk_expr_tree e context) eargs = OK children ->
     Forall2 (child_agrees truth span i) eargs children) ->
  filter_agrees truth (T_BoolExpr OR_EXPR eargs location) span
                (wrapper_make_expression w i).
Proof.
  intros Hwalk Hchildren.
  cbn [walk_expr_tree] in Hwalk. unfold handle_boolexpr in Hwalk.
  rewrite boolexpr_fold_or in Hwalk.
  destruct (res_map _ eargs) as [children | msg] eqn:Hmap; cbn [bind] in Hwalk;
    [| discriminate].
  cbn [args rangeset set_orig set_args set_paramsel set_rangeset
       palloc0_WrapperNode orig found_gap paramsel app] in Hwalk.
  rewrite or_paramsel_fold in Hwalk.
  injection Hwalk as <-.
  unfold set_paramsel. cbn [args rangeset orig found_gap paramsel].
  specialize (Hchildren children eq_refl).
  destruct (children_outcomes eargs children Hchildren) as (rs & Hrs & Hout & Hagree).
  destruct (outcomes_tags children rs Hout) as (_ & Tcomplete & _ & Tsome).
  cbn [wrapper_make_expression].
  rewrite irange_tag_at_find, tag_at_fold_union by lia.
  rewrite union_tags_fold, Tcomplete, Tsome.
  replace (irange_tag_at [] i) with (@None IRangeTag) by reflexivity.
  cbn [orb].
  destruct (existsb _ rs) eqn:Hex.
  - cbn [fst snd negb filter_agrees]. intros key Hkey.
    cbn [clause_holds]. exact (proj1 (or_outcomes eargs rs Hagree key Hkey) Hex).
  - destruct (existsb (fun o => match o with (None, false) => false | _ => true end) rs)
      eqn:Hsome.
    + cbn [fst snd negb]. rewrite collect_fold, Hrs. cbn [bind app].
      pose proof (holds_make_boolexpr_or location (surviving rs)) as Hmk.
      destruct (make_boolexpr OR_EXPR location (surviving rs)) as [[f |] always];
        [| destruct (Hmk 0)].
      cbn [filter_agrees]. intros key Hkey. cbn [clause_holds].
      rewrite (Hmk key).
      exact (proj2 (or_outcomes eargs rs Hagree key Hkey) Hex).
    + cbn [fst snd negb filter_agrees]. intros key Hkey. cbn [clause_holds].
      rewrite <- (proj2 (or_outcomes eargs rs Hagree key Hkey) Hex).
      assert (Hs : surviving rs = []).
      { clear - Hsome. induction rs as [| [[f |] [|]] rest IH];
          cbn [existsb orb] in Hsome; try discriminate; [reflexivity |].
        unfold surviving in *. cbn [flat_map fst app]. apply IH. exact Hsome. }
      rewrite Hs. reflexivity.
Qed.

End Rebuild.

(** AND and OR keep the agreement of the nodes below them. *)
Lemma walk_agrees_of_leaves `{PgEnv} (context : WalkerContext)
    (truth : Expr -> Datum -> bool) (span_of : Z -> Datum -> bool) (e : Expr) :
  Forall (walk_agrees context truth span_of) (clause_leaves e) ->
  walk_agrees context truth span_of e.
Proof.
  induction e as [c | p | a | boolop eargs location IH | opno eargs _
                  | opno useOr exprnode arraynode _ _ | tag]
    using Expr_nested_ind;
    intros Hleaves;
    try (inversion Hleaves; assumption).
  assert (Hchildren : forall children,
            res_map (fun e => walk_expr_tree e context) eargs = OK children ->
            forall i, 0 <= i < PrelChildrenCount (prel context) ->
            flat_map clause_leaves eargs = clause_leaves (T_BoolExpr boolop eargs location) ->
            Forall2 (child_agrees truth (span_of i) i) eargs children).
  { intros children Hmap i Hi Heq. rewrite <- Heq in Hleaves.
    apply res_map_ok in Hmap. clear Heq.
    induction Hmap as [| e w eargs children Hew _ IHl]; [constructor |].
    cbn [flat_map] in Hleaves. apply Forall_app in Hleaves as [Hhead Htail].
    inversion IH as [| ? ? IHe IHrest]; subst.
    constructor; [| apply IHl; assumption].
    unfold child_agrees. apply (IHe Hhead w Hew i Hi). }
  destruct boolop.
  - intros w Hwalk i Hi.
    apply (and_node_agrees context truth (span_of i) i Hi eargs location w Hwalk).
    intros children Hmap. apply Hchildren; [exact Hmap | exact Hi | reflexivity].
  - intros w Hwalk i Hi.
    apply (or_node_agrees context truth (span_of i) i Hi eargs location w Hwalk).
    intros children Hmap. apply Hchildren; [exact Hmap | exact Hi | reflexivity].
  - inversion Hleaves; assumption.
Qed.

(** X9.  AND and OR preserve agreement, for any partitioning scheme and
    any reading [truth] of the nodes below them: if walking and rebuilding
    each of those nodes agrees with the node on the keys of every
    partition (no filter only where every key satisfies it, exclusion only
    where none does, else a filter equivalent to it), then walking and
    rebuilding the whole clause agrees with the clause, and the rebuild
    raises no error. *)
Theorem walk_and_or_agree `{PgEnv} (context : WalkerContext)
    (truth : Expr -> Datum -> bool) (span_of : Z -> Datum -> bool)
    (e : Expr) (w : WrapperNode) (i : Z) :
  Forall (walk_agrees context truth span_of) (clause_leaves e) ->
  walk_expr_tree e context = OK w ->
  0 <= i < PrelChildrenCount (prel context) ->
  filter_agrees truth e (span_of i) (wrapper_make_expression w i).
Proof.
  intros Hleaves Hwalk Hi.
  exact (walk_agrees_of_leaves context truth span_of e Hleaves w Hwalk i Hi).
Qed.

(** ** Clauses over a RANGE scheme *)

(** The outcome of a node that is neither an AND nor an OR. *)
Lemma wrapper_make_expression_copy (w : WrapperNode) (e : Expr) (i : Z) :
  orig w = Some e ->
  (forall eargs location, e <> T_BoolExpr AND_EXPR eargs location
                          /\ e <> T_BoolExpr OR_EXPR eargs location) ->
  wrapper_make_expression w i
  = OK (match irange_tag_at (rangeset w) i with
        | None => Exclude
        | Some IR_COMPLETE => NoFilter
        | Some IR_LOSSY => Filter e
        end).
Proof.
  destruct w as [worig wargs wrangeset wgap wsel]. cbn [orig rangeset].
  intros -> Hkind. cbn [wrapper_make_expression].
  rewrite (irange_tag_at_find wrangeset i).
  destruct (irange_tag_at wrangeset i) as [[|] |]; cbn [fst snd negb];
    try reflexivity.
  destruct e as [| | | boolop eargs location | | |]; try reflexivity.
  destruct boolop; [| | reflexivity].
  - destruct (Hkind eargs location) as [Hand _]. contradiction.
  - destruct (Hkind eargs location) as [_ Hor]. contradiction.
Qed.

Lemma copy_agrees (truth : Expr -> Datum -> bool) (span : Datum -> bool)
    (w : WrapperNode) (e : Expr) (i : Z) :
  orig w = Some e ->
  (forall eargs location, e <> T_BoolExpr AND_EXPR eargs location
                          /\ e <> T_BoolExpr OR_EXPR eargs location) ->
  tag_agrees (truth e) span (irange_tag_at (rangeset w) i) ->
  filter_agrees truth e span (wrapper_make_expression w i).
Proof.
  intros Horig Hkind Htag.
  rewrite (wrapper_make_expression_copy w e i Horig Hkind).
  assert (Hleaf : forall key, clause_holds truth e key = truth e key).
  { intros key. destruct e as [| | | boolop eargs location | | |]; try reflexivity.
    destruct boolop; [| | reflexivity].
    - destruct (Hkind eargs location) as [Hand _]. contradiction.
    - destruct (Hkind eargs location) as [_ Hor]. contradiction. }
  destruct (irange_tag_at (rangeset w) i) as [[|] |];
    cbn [filter_agrees NoFilter Exclude Filter tag_agrees] in *.
  - intros key Hkey. rewrite Hleaf. apply Htag. exact Hkey.
  - intros key _. reflexivity.
  - intros key Hkey. rewrite Hleaf. apply Htag. exact Hkey.
Qed.

Lemma tag_agrees_ext (f g : Datum -> bool) (span : Datum -> bool)
    (t : option IRangeTag) :
  (forall key, f key = g key) -> tag_agrees f span t -> tag_agrees g span t.
Proof.
  intros Hfg. destruct t as [[|] |]; cbn [tag_agrees]; [| trivial |];
    intros Hf key Hkey; rewrite <- Hfg; apply Hf; exact Hkey.
Qed.

Ltac not_and_or := intros ? ?; split; discriminate.

Section RangeClauses.

Context `{PgEnv}.
Variable context : WalkerContext.
Variable cmp_func : FmgrInfo.
Variable collid : Oid.
Variable opaque_truth : Expr -> Datum -> bool.

Local Notation "'p'" := (prel context).
Local Notation "'rs'" := (PrelGetRangesArray (prel context)).

Hypothesis Hrange : parttype p = PT_RANGE.
Hypothesis Hcount : PrelChildrenCount p = Z.of_nat (length rs).
Hypothesis Hord : cmp_order (cmp_func collid).
Hypothesis Hsorted : ranges_sorted cmp_func collid rs = true.
Hypothesis Hcont : ranges_contiguous cmp_func collid rs = true.

(** The Const handler on a RANGE scheme: the tags of the test
    [key OP c]. *)
Lemma handle_const_tag_agrees (c : Const) (strategy : Z)
    (result t : WrapperNode) (i : Z) (r : RangeEntry) :
  consttype c <> BOOLOID ->
  BTLessStrategyNumber <= strategy <= BTGreaterStrategyNumber ->
  fill_type_cmp_fmgr_info (getBaseType (consttype c)) (getBaseType (ev_type p))
  = cmp_func ->
  constcollid c = collid ->
  handle_const c strategy context result = OK t ->
  ranges_at rs i = Some r ->
  tag_agrees (fun key => element_satisfies cmp_func collid strategy key
                           (constvalue c, constisnull c))
             (span_contains cmp_func collid r)
             (irange_tag_at (rangeset t) i).
Proof.
  intros Hbool Hstrat Hcmp Hcoll Hconst Hr.
  pose proof (ranges_at_bound _ _ _ Hr) as Hi.
  unfold handle_const in Hconst.
  destruct (Z.eqb_spec strategy 0) as [Hz | _];
    [unfold BTLessStrategyNumber in Hstrat; lia |].
  unfold element_satisfies. cbn [fst snd].
  destruct (constisnull c).
  { injection Hconst as <-. cbn. intros key _. reflexivity. }
  cbn [negb andb].
  destruct (Z.eqb_spec (consttype c) BOOLOID) as [| _]; [contradiction |].
  rewrite Hrange in Hconst.
  match type of Hconst with
  | context [if ?b then _ else _] => destruct b
  end.
  - injection Hconst as <-. cbn [rangeset set_paramsel set_rangeset].
    rewrite irange_tag_at_full by lia. exact I.
  - rewrite Hcmp, Hcoll in Hconst.
    destruct (select_range_partitions _ _ _ _ _ _ _) as [w' | msg] eqn:Hsel;
      cbn [bind] in Hconst; [| discriminate].
    injection Hconst as <-. cbn [rangeset set_paramsel].
    unfold irange_tag_at.
    destruct (irange_list_find (rangeset w') i) as [[|] [|]] eqn:Hfind;
      cbn [tag_agrees].
    + exact I.
    + intros key Hspan.
      exact (select_range_partitions_complete_core
               (constvalue c) collid cmp_func rs (PrelChildrenCount p) strategy
               result w' Hord Hcount Hsorted Hsel i r key Hr Hspan Hfind).
    + intros key Hspan.
      destruct (key_satisfies cmp_func collid strategy key (constvalue c)) eqn:Hsat;
        [| reflexivity].
      destruct (select_range_partitions_contiguous_core
                  (constvalue c) collid cmp_func rs (PrelChildrenCount p) strategy
                  result w' Hord Hcount Hsorted Hcont Hstrat Hsel) as [_ Hsound].
      specialize (Hsound i r key Hr Hspan Hsat).
      unfold irange_list_mem in Hsound. rewrite Hfind in Hsound. discriminate.
    + intros key Hspan.
      destruct (key_satisfies cmp_func collid strategy key (constvalue c)) eqn:Hsat;
        [| reflexivity].
      destruct (select_range_partitions_contiguous_core
                  (constvalue c) collid cmp_func rs (PrelChildrenCount p) strategy
                  result w' Hord Hcount Hsorted Hcont Hstrat Hsel) as [_ Hsound].
      specialize (Hsound i r key Hr Hspan Hsat).
      unfold irange_list_mem in Hsound. rewrite Hfind in Hsound. discriminate.
Qed.

(** The tags of the tests of the elements, folded. *)
Lemma element_tags (strategy : Z) (span : Datum -> bool)
    (elems : list (Datum * bool)) (tags : list (option IRangeTag)) :
  Forall2 (fun elem t =>
             tag_agrees (fun key => element_satisfies cmp_func collid strategy key elem)
                        span t) elems tags ->
  forall key, span key = true ->
    (existsb (fun t => match t with Some IR_COMPLETE => true | _ => false end) tags
     = true ->
     existsb (element_satisfies cmp_func collid strategy key) elems = true)
    /\ (existsb (fun t => match t with Some _ => true | None => false end) tags
        = false ->
        existsb (element_satisfies cmp_func collid strategy key) elems = false)
    /\ (existsb (fun t => match t with None => true | _ => false end) tags = true ->
        forallb (element_satisfies cmp_func collid strategy key) elems = false)
    /\ (forallb (fun t => match t with Some IR_COMPLETE => true | _ => false end) tags
        = true ->
        forallb (element_satisfies cmp_func collid strategy key) elems = true).
Proof.
  induction 1 as [| elem t elems tags Ht _ IH]; intros key Hkey.
  - repeat split; try discriminate.
  - destruct (IH key Hkey) as (IH1 & IH2 & IH3 & IH4).
    cbn [existsb forallb].
    destruct t as [[|] |]; cbn [tag_agrees orb andb] in *.
    + rewrite (Ht key Hkey). cbn [orb andb].
      repeat split; try discriminate; try reflexivity; assumption.
    + repeat split; try discriminate.
      * intros Hex. rewrite (IH1 Hex). apply orb_true_r.
      * intros Hex. rewrite (IH3 Hex). apply andb_false_r.
    + rewrite (Ht key Hkey). cbn [orb andb].
      repeat split; try discriminate; try reflexivity; assumption.
Qed.

Lemma pruning_leaf_agrees (e : Expr) :
  pruning_leaf context cmp_func collid e ->
  walk_agrees context (comparison_truth context cmp_func collid opaque_truth)
              (partition_span cmp_func collid rs) e.
Proof.
  intros Hleaf w Hwalk i Hi.
  destruct (ranges_at_some rs i ltac:(lia)) as [r Hr].
  assert (Hspan : partition_span cmp_func collid rs i = span_contains cmp_func collid r).
  { unfold partition_span. rewrite Hr. reflexivity. }
  rewrite Hspan. clear Hspan.
  assert (Hopaque : forall e',
            (forall eargs location, e' <> T_BoolExpr AND_EXPR eargs location
                                    /\ e' <> T_BoolExpr OR_EXPR eargs location) ->
            orig w = Some e' ->
            rangeset w = list_make1_irange_full p IR_LOSSY ->
            filter_agrees (comparison_truth context cmp_func collid opaque_truth) e'
                          (span_contains cmp_func collid r)
                          (wrapper_make_expression w i)).
  { intros e' Hkind Horig Hfull. apply copy_agrees; [exact Horig | exact Hkind |].
    rewrite Hfull, irange_tag_at_full by exact Hi. exact I. }
  destruct Hleaf as [opno key_side c Hkey Hnull Hbool Hstrat Hcmp Hcoll
                    | opno useOr key_side ac Hkey Hnull Hbool Hstrat Hcmp Hcoll
                    | opno key_side prm Hkey Hctx
                    | opno eargs Hnokey | arg location | prm | a | tag].
  - (* key OP const *)
    rewrite (handle_opexpr_key_op_const opno key_side c context Hkey) in Hwalk.
    cbv zeta in Hwalk.
    destruct (handle_const c _ context palloc0_WrapperNode) as [t |] eqn:Hconst;
      cbn [bind] in Hwalk; [| discriminate].
    injection Hwalk as <-.
    apply copy_agrees; [reflexivity | not_and_or |].
    cbn [rangeset set_orig].
    refine (tag_agrees_ext _ _ _ _ _
              (handle_const_tag_agrees c _ palloc0_WrapperNode t i r Hbool Hstrat
                 Hcmp Hcoll Hconst Hr)).
    intros key. cbn [comparison_truth]. rewrite Hkey.
    unfold element_satisfies. cbn [fst snd]. rewrite Hnull. reflexivity.
  - (* key OP ANY/ALL (array) *)
    cbn [walk_expr_tree] in Hwalk. unfold handle_arrexpr in Hwalk.
    rewrite Hkey, Hnull in Hwalk. cbn [negb] in Hwalk.
    rewrite arrexpr_fold in Hwalk.
    destruct (res_map _ (elem_values (DatumGetArrayTypeP (constvalue ac))))
      as [tests | msg] eqn:Htests; cbn [bind fst snd] in Hwalk; [| discriminate].
    set (strategy := get_op_opfamily_strategy opno (btree_opf (ev_type p))) in *.
    set (arrayval := DatumGetArrayTypeP (constvalue ac)) in *.
    assert (Htags : Forall2
              (fun elem t =>
                 tag_agrees (fun key => element_satisfies cmp_func collid strategy
                                          key elem)
                            (span_contains cmp_func collid r) t)
              (elem_values arrayval)
              (map (fun c => irange_tag_at (rangeset c) i) tests)).
    { apply res_map_ok in Htests. clear Hwalk.
      induction Htests as [| elem t elems tests Ht _ IH]; [constructor |].
      cbn [map]. constructor; [| exact IH].
      pose proof (handle_const_tag_agrees (element_const arrayval elem) strategy
                    palloc0_WrapperNode t i r Hbool Hstrat Hcmp
                    Hcoll Ht Hr) as Htag.
      cbn [element_const constvalue constisnull] in Htag.
      destruct elem. exact Htag. }
    assert (Hw : orig w = Some (T_ScalarArrayOpExpr opno useOr key_side (T_Const ac))
                 /\ rangeset w
                    = fold_left (if useOr then irange_list_union
                                 else irange_list_intersection)
                                (map rangeset tests)
                                (if useOr then []
                                 else list_make1_irange_full p IR_COMPLETE)).
    { destruct (Z.of_nat (length (elem_values arrayval)) =? 0);
        injection Hwalk as <-; split; reflexivity. }
    destruct Hw as [Horig Hrs].
    apply copy_agrees; [exact Horig | not_and_or |].
    rewrite Hrs.
    apply (tag_agrees_ext
             (fun key =>
                if useOr
                then existsb (element_satisfies cmp_func collid strategy key)
                             (elem_values arrayval)
                else forallb (element_satisfies cmp_func collid strategy key)
                             (elem_values arrayval))).
    { intros key. cbn [comparison_truth]. rewrite Hkey, Hnull. reflexivity. }
    destruct useOr.
    + rewrite tag_at_fold_union by lia. rewrite union_tags_fold.
      replace (irange_tag_at [] i) with (@None IRangeTag) by reflexivity.
      cbn [orb].
      destruct (existsb _ (map _ tests)) eqn:Hc; cbn [tag_agrees].
      * intros key Hspan.
        exact (proj1 (element_tags strategy _ _ _ Htags key Hspan) Hc).
      * destruct (existsb (fun t => match t with Some _ => true | None => false end)
                          (map _ tests)) eqn:Hs; cbn [tag_agrees]; [exact I |].
        intros key Hspan.
        exact (proj1 (proj2 (element_tags strategy _ _ _ Htags key Hspan)) Hs).
    + rewrite tag_at_fold_intersection by lia.
      rewrite irange_tag_at_full by exact Hi. rewrite intersect_tags_fold.
      destruct (existsb _ (map _ tests)) eqn:Hn; cbn [tag_agrees].
      * intros key Hspan.
        exact (proj1 (proj2 (proj2 (element_tags strategy _ _ _ Htags key Hspan))) Hn).
      * destruct (forallb _ (map _ tests)) eqn:Ha; cbn [tag_agrees]; [| exact I].
        intros key Hspan.
        exact (proj2 (proj2 (proj2 (element_tags strategy _ _ _ Htags key Hspan))) Ha).
  - (* key OP param, at plan time *)
    rewrite (handle_opexpr_key_op_param opno key_side prm context Hkey Hctx) in Hwalk.
    injection Hwalk as <-. apply Hopaque; [not_and_or | reflexivity | reflexivity].
  - (* an operator that does not mention the key *)
    assert (Hw : w = mkWrapperNode (Some (T_OpExpr opno eargs)) []
                       (list_make1_irange_full p IR_LOSSY) false 1%float).
    { cbn [walk_expr_tree] in Hwalk. unfold handle_opexpr in Hwalk.
      destruct (Z.of_nat (length eargs) =? 2);
        [| injection Hwalk as <-; reflexivity].
      destruct eargs as [| l [| r' rest]]; cbn [is_key_op_param] in Hwalk;
        try (injection Hwalk as <-; reflexivity).
      inversion Hnokey as [| ? ? Hl Hrest]; subst.
      inversion Hrest as [| ? ? Hr' _]; subst.
      rewrite Hl, Hr' in Hwalk. injection Hwalk as <-. reflexivity. }
    subst w. apply Hopaque; [not_and_or | reflexivity | reflexivity].
  - (* NOT *)
    rewrite handle_boolexpr_not in Hwalk. cbv zeta in Hwalk.
    destruct (walk_expr_tree arg context) as [child | msg]; cbn [bind] in Hwalk;
      [| discriminate].
    injection Hwalk as <-. apply Hopaque; [not_and_or | reflexivity | reflexivity].
  - injection Hwalk as <-. apply Hopaque; [not_and_or | reflexivity | reflexivity].
  - injection Hwalk as <-. apply Hopaque; [not_and_or | reflexivity | reflexivity].
  - injection Hwalk as <-. apply Hopaque; [not_and_or | reflexivity | reflexivity].
Qed.

End RangeClauses.

(** The walk and rebuild of a clause over a RANGE scheme without gaps. *)
Lemma range_clause_core
    `{PgEnv} (context : WalkerContext) (cmp_func : FmgrInfo) (collid : Oid)
    (opaque_truth : Expr -> Datum -> bool) (e : Expr) (w : WrapperNode)
    (i : Z) (r : RangeEntry) :
  let p := prel context in
  let rs := PrelGetRangesArray p in
  parttype p = PT_RANGE ->
  PrelChildrenCount p = Z.of_nat (length rs) ->
  cmp_order (cmp_func collid) ->
  ranges_sorted cmp_func collid rs = true ->
  ranges_contiguous cmp_func collid rs = true ->
  Forall (pruning_leaf context cmp_func collid) (clause_leaves e) ->
  walk_expr_tree e context = OK w ->
  ranges_at rs i = Some r ->
  filter_agrees (comparison_truth context cmp_func collid opaque_truth) e
                (span_contains cmp_func collid r)
                (wrapper_make_expression w i).
Proof.
  intros p rs Hrange Hcount Hord Hsorted Hcont Hleaves Hwalk Hr.
  pose proof (ranges_at_bound _ _ _ Hr) as Hi.
  assert (Hagree : walk_agrees context
                     (comparison_truth context cmp_func collid opaque_truth)
                     (partition_span cmp_func collid rs) e).
  { apply walk_agrees_of_leaves.
    eapply Forall_impl; [| exact Hleaves].
    intros leaf Hleaf.
    apply pruning_leaf_agrees; assumption. }
  specialize (Hagree w Hwalk i ltac:(fold p; lia)).
  destruct (wrapper_make_expression w i) as [[[f |] [|]] | msg];
    cbn [filter_agrees] in *; try exact Hagree;
    intros key Hspan; apply Hagree; unfold partition_span; fold rs;
    rewrite Hr; exact Hspan.
Qed.

(** X10.  Pruning and filter rebuilding agree with a clause, on a RANGE
    scheme whose array is ordered and has no gaps under a comparator and a
    collation that obey the comparator laws.  The clause is one whose walk
    returns a node and that holds, below its ANDs and ORs, only the nodes
    of [pruning_leaf]: [key OP const] and [key OP ANY/ALL (const array)]
    with the key as first operand, a constant that is not NULL and whose
    type (element type for an array) is not boolean, an operator of
    strategy 1 to 5, the comparator being the one looked up for the base
    types of the constant and the key, and the collation the constant's
    (InvalidOid for the elements of an array); [key OP Param] with no
    executor context; operators no argument of which is the key; NOT;
    Param; Var; other kinds of node; never a bare constant.  Then
    rebuilding the walked clause for a partition raises no error; it
    excludes the partition only if no key of the partition's span
    satisfies the clause, drops the filter only if every key does, and
    else returns a filter that equals the clause on the keys of the span,
    the comparisons judged by the comparator and every other leaf by any
    fixed truth function. *)
Theorem range_clause_filter_agrees
    `{PgEnv} (context : WalkerContext) (cmp_func : FmgrInfo) (collid : Oid)
    (opaque_truth : Expr -> Datum -> bool) (e : Expr) (w : WrapperNode)
    (i : Z) (r : RangeEntry) :
  let p := prel context in
  let rs := PrelGetRangesArray p in
  parttype p = PT_RANGE ->
  PrelChildrenCount p = Z.of_nat (length rs) ->
  cmp_order (cmp_func collid) ->
  ranges_sorted cmp_func collid rs = true ->
  ranges_contiguous cmp_func collid rs = true ->
  Forall (pruning_leaf context cmp_func collid) (clause_leaves e) ->
  walk_expr_tree e context = OK w ->
  ranges_at rs i = Some r ->
  filter_agrees (comparison_truth context cmp_func collid opaque_truth) e
                (span_contains cmp_func collid r)
                (wrapper_make_expression w i).
Proof.
  exact (range_clause_core context cmp_func collid opaque_truth e w i r).
Qed.

(** ** The restrictions of a partition *)

Lemma append_child_quals_agree (truth : Expr -> Datum -> bool)
    (span : Datum -> bool) (i : Z)
    (baserestrictinfo : list RestrictInfo) (wrappers : list WrapperNode) :
  Forall2 (fun rinfo w =>
             filter_agrees truth (clause rinfo) span (wrapper_make_expression w i)
             /\ irange_list_mem (rangeset w) i = true)
          baserestrictinfo wrappers ->
  forall acc,
    exists filters,
      append_child_quals wrappers baserestrictinfo i (map Some acc)
      = OK (map Some (acc ++ filters))
      /\ forall key, span key = true ->
           forallb (fun f => clause_holds truth f key) filters
           = forallb (fun rinfo => clause_holds truth (clause rinfo) key)
                     baserestrictinfo.
Proof.
  induction 1 as [| rinfo w rinfos ws [Hagree Hmem] _ IH]; intros acc.
  - exists []. rewrite app_nil_r. split; reflexivity.
  - cbn [append_child_quals].
    pose proof (wrapper_make_expression_tag w i) as Htag.
    unfold irange_list_mem in Hmem. rewrite irange_tag_at_find in Hmem.
    destruct (irange_tag_at (rangeset w) i) as [[|] |]; [| | discriminate].
    + (* COMPLETE: skipped *)
      rewrite Htag in *. cbn [bind snd NoFilter].
      destruct (IH acc) as (filters & Hloop & Hsem).
      exists filters. split; [exact Hloop |].
      intros key Hkey. cbn [forallb]. cbn [filter_agrees NoFilter] in Hagree.
      rewrite (Hagree key Hkey), (Hsem key Hkey). reflexivity.
    + (* LOSSY: a filter *)
      destruct Htag as [[msg Hm] | [f Hf]]; [rewrite Hm in Hagree; destruct Hagree |].
      rewrite Hf in *. cbn [bind fst snd Filter].
      destruct (IH (acc ++ [f])) as (filters & Hloop & Hsem).
      exists (f :: filters). split.
      * rewrite map_app in Hloop. cbn [map] in Hloop. rewrite Hloop.
        rewrite <- app_assoc. reflexivity.
      * intros key Hkey. cbn [forallb]. cbn [filter_agrees Filter] in Hagree.
        rewrite (Hagree key Hkey), (Hsem key Hkey). reflexivity.
Qed.

(** X11.  The restrictions append_child_relation gives a partition say
    what the parent's say.  On a RANGE scheme whose array is ordered and
    has no gaps under a comparator and a collation that obey the
    comparator laws, with each wrapper the node walk_expr_tree returned
    for the restriction at its position, every restriction holding below
    its ANDs and ORs only the nodes of [pruning_leaf] (so never a bare
    constant), for a partition that every node's rangeset contains: the
    loop raises no error, appends no NULL clause (so Assert(new_clause)
    cannot fail), and on the keys of the partition's span the conjunction
    of the clauses it collects equals the conjunction of the parent's
    restrictions. *)
Theorem append_child_quals_equivalent
    `{PgEnv} (context : WalkerContext) (cmp_func : FmgrInfo) (collid : Oid)
    (opaque_truth : Expr -> Datum -> bool)
    (baserestrictinfo : list RestrictInfo) (wrappers : list WrapperNode)
    (ir_index : Z) (r : RangeEntry) :
  let p := prel context in
  let rs := PrelGetRangesArray p in
  let truth := comparison_truth context cmp_func collid opaque_truth in
  parttype p = PT_RANGE ->
  PrelChildrenCount p = Z.of_nat (length rs) ->
  cmp_order (cmp_func collid) ->
  ranges_sorted cmp_func collid rs = true ->
  ranges_contiguous cmp_func collid rs = true ->
  Forall (fun rinfo =>
            Forall (pruning_leaf context cmp_func collid)
                   (clause_leaves (clause rinfo))) baserestrictinfo ->
  Forall2 (fun rinfo w => walk_expr_tree (clause rinfo) context = OK w)
          baserestrictinfo wrappers ->
  ranges_at rs ir_index = Some r ->
  Forall (fun w => irange_list_mem (rangeset w) ir_index = true) wrappers ->
  exists filters,
    append_child_quals wrappers baserestrictinfo ir_index [] = OK (map Some filters)
    /\ forall key,
         span_contains cmp_func collid r key = true ->
         forallb (fun f => clause_holds truth f key) filters
         = forallb (fun rinfo => clause_holds truth (clause rinfo) key)
                   baserestrictinfo.
Proof.
  intros p rs truth Hrange Hcount Hord Hsorted Hcont Hleaves Hwalks Hr Hmem.
  apply (append_child_quals_agree truth (span_contains cmp_func collid r) ir_index
           baserestrictinfo wrappers) with (acc := []).
  clear - Hrange Hcount Hord Hsorted Hcont Hleaves Hwalks Hr Hmem.
  induction Hwalks as [| rinfo w rinfos ws Hwalk _ IH]; [constructor |].
  inversion Hleaves as [| ? ? Hleaf Hleaves']; subst.
  inversion Hmem as [| ? ? Hw Hmem']; subst.
  constructor; [| apply IH; assumption].
  split; [| exact Hw].
  exact (range_clause_core context cmp_func collid opaque_truth (clause rinfo) w
           ir_index r
           Hrange Hcount Hord Hsorted Hcont Hleaf Hwalk Hr).
Qed.

(** ** make_inh_translation_list *)

Lemma inherited_match_true (name : string) (natt : FormData_pg_attribute) :
  inherited_match name natt = true
  <-> attisdropped natt = false /\ attinhcount natt <> 0 /\ attname natt = name.
Proof.
  unfold inherited_match. rewrite !andb_true_iff, !negb_true_iff, String.eqb_eq.
  rewrite Z.eqb_neq. intuition congruence.
Qed.

Lemma attrs_at_shift (a : option FormData_pg_attribute) (rest : TupleDesc) (j : Z) :
  0 <= j -> attrs_at (a :: rest) (j + 1) = attrs_at rest j.
Proof.
  intros Hj. unfold attrs_at.
  destruct (Z.ltb_spec (j + 1) 0); [lia |].
  destruct (Z.ltb_spec j 0); [lia |].
  replace (Z.to_nat (j + 1)) with (S (Z.to_nat j)) by lia. reflexivity.
Qed.

Lemma search_inherited_some (name : string) (new_attrs : TupleDesc) :
  forall k j natt,
    search_inherited name new_attrs k = OK (Some (j, natt)) ->
    k <= j
    /\ attrs_at new_attrs (j - k) = Some (Some natt)
    /\ inherited_match name natt = true.
Proof.
  induction new_attrs as [| a rest IH]; intros k j natt Hs; [discriminate |].
  cbn [search_inherited] in Hs. destruct a as [att |]; [| discriminate].
  destruct (inherited_match name att) eqn:Hm.
  - injection Hs as <- <-. rewrite Z.sub_diag. repeat split; [lia | assumption].
  - destruct (IH _ _ _ Hs) as (Hk & Hat & Hmatch).
    repeat split; [lia | | assumption].
    replace (j - k) with (j - (k + 1) + 1) by lia.
    rewrite attrs_at_shift by lia. exact Hat.
Qed.

Lemma search_by_name_ok (name : string) (new_tupdesc : TupleDesc)
    (j : Z) (natt : FormData_pg_attribute) :
  search_by_name name new_tupdesc = OK (j, natt) ->
  attrs_at new_tupdesc j = Some (Some natt) /\ inherited_match name natt = true.
Proof.
  unfold search_by_name.
  destruct (search_inherited name new_tupdesc 0) as [[[j' natt'] |] | msg] eqn:Hs;
    cbn [bind]; try discriminate.
  intros [= -> ->]. apply search_inherited_some in Hs.
  destruct Hs as (_ & Hat & Hm). rewrite Z.sub_0_r in Hat. split; assumption.
Qed.

Lemma translate_attribute_translates (new_tupdesc : TupleDesc) (newvarno old_attno : Z)
    (att : FormData_pg_attribute) (v : option Var) :
  translate_attribute false new_tupdesc newvarno old_attno (Some att) = OK v ->
  translates new_tupdesc newvarno att v.
Proof.
  unfold translate_attribute, translates.
  destruct (attisdropped att); [intros [= <-]; reflexivity |].
  cbv zeta.
  match goal with
  | |- (do found <- ?m; _) = _ -> _ =>
    assert (Hfound : forall j natt, m = OK (j, natt) ->
              attrs_at new_tupdesc j = Some (Some natt)
              /\ inherited_match (attname att) natt = true);
      [| destruct m as [[j natt] | msg]; cbn [bind fst snd]; [| discriminate]]
  end.
  { intros j natt.
    destruct (old_attno <? Z.of_nat (length new_tupdesc));
      [| apply search_by_name_ok].
    destruct (attrs_at new_tupdesc old_attno) as [[cand |] |] eqn:Hat;
      try apply search_by_name_ok.
    destruct (inherited_match (attname att) cand) eqn:Hm;
      [| apply search_by_name_ok].
    intros [= <- <-]. split; assumption. }
  destruct (Hfound j natt eq_refl) as [Hat Hm].
  apply inherited_match_true in Hm as (Hlive & Hinh & Hname).
  destruct (Z.eqb_spec (atttypid att) (atttypid natt)); cbn [negb orb];
    [| discriminate].
  destruct (Z.eqb_spec (atttypmod att) (atttypmod natt)); cbn [negb];
    [| discriminate].
  destruct (Z.eqb_spec (attcollation att) (attcollation natt)); cbn [negb];
    [| discriminate].
  intros [= <-]. exists j, natt. repeat split; congruence.
Qed.

Lemma translate_attributes_spec (same : bool) (new_tupdesc : TupleDesc) (newvarno : Z)
    (old_attrs : TupleDesc) :
  forall old_attno vars vars',
    translate_attributes same new_tupdesc newvarno old_attrs old_attno vars = OK vars' ->
    exists vs,
      vars' = vars ++ vs
      /\ length vs = length old_attrs
      /\ forall (i : nat) v,
           nth_error vs i = Some v ->
           exists old_att,
             nth_error old_attrs i = Some old_att
             /\ translate_attribute same new_tupdesc newvarno
                                    (old_attno + Z.of_nat i) old_att = OK v.
Proof.
  induction old_attrs as [| a rest IH]; intros old_attno vars vars' Hloop.
  - injection Hloop as <-. exists []. rewrite app_nil_r.
    repeat split. intros [|] v; discriminate.
  - cbn [translate_attributes] in Hloop.
    destruct (translate_attribute same new_tupdesc newvarno old_attno a)
      as [v0 | msg] eqn:Hv0; cbn [bind] in Hloop; [| discriminate].
    destruct (IH _ _ _ Hloop) as (vs & -> & Hlen & Hvs).
    exists (v0 :: vs). rewrite <- app_assoc. repeat split.
    + cbn [length]. congruence.
    + intros [| i] v Hv.
      * injection Hv as <-. exists a. rewrite Z.add_0_r. split; [reflexivity | exact Hv0].
      * destruct (Hvs i v Hv) as (old_att & Hnth & Ht).
        exists old_att. split; [exact Hnth |].
        replace (old_attno + Z.of_nat (S i)) with (old_attno + 1 + Z.of_nat i) by lia.
        exact Ht.
Qed.

(** The entries of a translation list, one by one. *)
Lemma translation_list_nth (oldrelation newrelation : Relation) (newvarno : Z)
    (vars : list (option Var)) :
  rd_address oldrelation <> rd_address newrelation ->
  make_inh_translation_list oldrelation newrelation newvarno = OK vars ->
  length vars = length (rd_att oldrelation)
  /\ forall (i : nat) v,
       nth_error vars i = Some v ->
       exists att,
         nth_error (rd_att oldrelation) i = Some (Some att)
         /\ translates (rd_att newrelation) newvarno att v.
Proof.
  intros Hdiff Hmake. unfold make_inh_translation_list, RelationGetDescr in Hmake.
  apply Z.eqb_neq in Hdiff. rewrite Hdiff in Hmake.
  destruct (translate_attributes_spec _ _ _ _ _ _ _ Hmake) as (vs & -> & Hlen & Hvs).
  cbn [app]. split; [exact Hlen |].
  intros i v Hv. destruct (Hvs i v Hv) as (old_att & Hnth & Ht).
  destruct old_att as [att |]; [| discriminate].
  exists att. split; [exact Hnth |].
  eapply translate_attribute_translates. exact Ht.
Qed.

Lemma Forall2_of_nth {A B : Type} (R : A -> B -> Prop) (l : list A) (l' : list B) :
  length l' = length l ->
  (forall i b, nth_error l' i = Some b -> exists a, nth_error l i = Some a /\ R a b) ->
  Forall2 R l l'.
Proof.
  revert l'. induction l as [| a rest IH]; intros [| b rest'] Hlen Hnth;
    try discriminate.
  - constructor.
  - constructor.
    + destruct (Hnth 0%nat b eq_refl) as (a' & [= <-] & HR). exact HR.
    + apply IH; [cbn [length] in Hlen; lia |].
      intros i b' Hb'. exact (Hnth (S i) b' Hb').
Qed.

(** X12.  A translation list built for a partition has one entry per
    column of the parent, in order: NULL for a dropped column, and for a
    live column a Var of the partition, at level 0, carrying the column's
    type, typmod and collation and numbered after a live, inherited column
    of the partition that has the same name, type, typmod and
    collation. *)
Theorem make_inh_translation_list_translates
    (oldrelation newrelation : Relation) (newvarno : Z)
    (vars : list (option Var)) :
  rd_address oldrelation <> rd_address newrelation ->
  make_inh_translation_list oldrelation newrelation newvarno = OK vars ->
  Forall2 (fun old_att v =>
             exists att, old_att = Some att
                         /\ translates (rd_att newrelation) newvarno att v)
          (rd_att oldrelation) vars.
Proof.
  intros Hdiff Hmake.
  destruct (translation_list_nth _ _ _ _ Hdiff Hmake) as [Hlen Hnth].
  apply Forall2_of_nth; [exact Hlen |].
  intros i v Hv. destruct (Hnth i v Hv) as (att & Hold & Htr).
  exists (Some att). split; [exact Hold |].
  exists att. split; [reflexivity | exact Htr].
Qed.

Lemma attrs_at_In (tupdesc : TupleDesc) (j : Z) (a : option FormData_pg_attribute) :
  attrs_at tupdesc j = Some a -> In a tupdesc.
Proof.
  unfold attrs_at. destruct (j <? 0); [discriminate |]. apply nth_error_In.
Qed.

Lemma search_inherited_finds (name : string) (new_attrs : TupleDesc) :
  forall k,
    Forall (fun a => a <> None) new_attrs ->
    (exists natt, In (Some natt) new_attrs /\ inherited_match name natt = true) ->
    exists j natt, search_inherited name new_attrs k = OK (Some (j, natt)).
Proof.
  induction new_attrs as [| a rest IH]; intros k Hnn (natt & Hin & Hm).
  - destruct Hin.
  - inversion Hnn as [| ? ? Ha Hrest]; subst.
    destruct a as [att |]; [| contradiction].
    cbn [search_inherited].
    destruct (inherited_match name att) eqn:Hatt; [eauto |].
    apply IH; [exact Hrest |].
    destruct Hin as [[= ->] | Hin]; [congruence |].
    exists natt. split; assumption.
Qed.

Lemma translate_attributes_ok (same : bool) (new_tupdesc : TupleDesc) (newvarno : Z)
    (old_attrs : TupleDesc) :
  (forall a k, In a old_attrs ->
               exists v, translate_attribute same new_tupdesc newvarno k a = OK v) ->
  forall old_attno vars,
    exists vars',
      translate_attributes same new_tupdesc newvarno old_attrs old_attno vars
      = OK vars'.
Proof.
  induction old_attrs as [| a rest IH]; intros Hall old_attno vars.
  - eexists. reflexivity.
  - cbn [translate_attributes].
    destruct (Hall a old_attno (or_introl eq_refl)) as [v ->]. cbn [bind].
    apply IH. intros a' k Hin. apply Hall. right. exact Hin.
Qed.

(** X13.  When the translation succeeds: with no NULL attribute pointer in
    either descriptor, if every live column of the parent has a live,
    inherited namesake in the partition, and every such namesake has the
    parent column's type, typmod and collation, make_inh_translation_list
    returns a list and raises no error. *)
Theorem make_inh_translation_list_succeeds
    (oldrelation newrelation : Relation) (newvarno : Z) :
  rd_address oldrelation <> rd_address newrelation ->
  Forall (fun a => a <> None) (rd_att oldrelation) ->
  Forall (fun a => a <> None) (rd_att newrelation) ->
  (forall att,
     In (Some att) (rd_att oldrelation) -> attisdropped att = false ->
     (exists natt, In (Some natt) (rd_att newrelation)
                   /\ inherited_match (attname att) natt = true)
     /\ (forall natt, In (Some natt) (rd_att newrelation) ->
                      inherited_match (attname att) natt = true ->
                      atttypid natt = atttypid att
                      /\ atttypmod natt = atttypmod att
                      /\ attcollation natt = attcollation att)) ->
  exists vars,
    make_inh_translation_list oldrelation newrelation newvarno = OK vars.
Proof.
  intros Hdiff Hold Hnew Hcols.
  unfold make_inh_translation_list, RelationGetDescr.
  apply translate_attributes_ok. intros a k Hin.
  apply Z.eqb_neq in Hdiff. rewrite Hdiff.
  rewrite Forall_forall in Hold. specialize (Hold a Hin).
  destruct a as [att |]; [| contradiction].
  unfold translate_attribute. destruct (attisdropped att) eqn:Hlive; [eauto |].
  cbv zeta. destruct (Hcols att Hin Hlive) as [Hex Hty].
  assert (Hslow : exists j natt,
            search_by_name (attname att) (rd_att newrelation) = OK (j, natt)
            /\ In (Some natt) (rd_att newrelation)
            /\ inherited_match (attname att) natt = true).
  { destruct (search_inherited_finds (attname att) (rd_att newrelation) 0 Hnew Hex)
      as (j & natt & Hs).
    exists j, natt. unfold search_by_name. rewrite Hs. cbn [bind].
    apply search_inherited_some in Hs as (_ & Hat & Hm).
    repeat split; [| exact Hm]. eapply attrs_at_In. exact Hat. }
  match goal with
  | |- exists v, (do found <- ?m; _) = _ =>
    assert (Hfound : exists j natt,
              m = OK (j, natt) /\ In (Some natt) (rd_att newrelation)
              /\ inherited_match (attname att) natt = true)
  end.
  { destruct (k <? Z.of_nat (length (rd_att newrelation))); [| exact Hslow].
    destruct (attrs_at (rd_att newrelation) k) as [[cand |] |] eqn:Hat;
      try exact Hslow.
    destruct (inherited_match (attname att) cand) eqn:Hm; [| exact Hslow].
    exists k, cand. repeat split; [| exact Hm]. eapply attrs_at_In. exact Hat. }
  destruct Hfound as (j & natt & -> & Hinn & Hm). cbn [bind fst snd].
  destruct (Hty natt Hinn Hm) as (-> & -> & ->).
  rewrite !Z.eqb_refl. cbn [negb orb]. eauto.
Qed.

(** X14.  Translating a relation to itself searches nothing: the list it
    returns has one entry per column, NULL for a dropped column and else
    the Var of the column itself, numbered by its position and carrying
    its type, typmod and collation. *)
Theorem make_inh_translation_list_same_relation
    (relation : Relation) (newvarno : Z) (vars : list (option Var)) :
  make_inh_translation_list relation relation newvarno = OK vars ->
  length vars = length (rd_att relation)
  /\ forall (i : nat) v,
       nth_error vars i = Some v ->
       exists att,
         nth_error (rd_att relation) i = Some (Some att)
         /\ v = identity_var newvarno (Z.of_nat i) att.
Proof.
  unfold make_inh_translation_list, RelationGetDescr. rewrite Z.eqb_refl.
  intros Hmake.
  destruct (translate_attributes_spec _ _ _ _ _ _ _ Hmake) as (vs & -> & Hlen & Hvs).
  cbn [app]. split; [exact Hlen |].
  intros i v Hv. destruct (Hvs i v Hv) as (old_att & Hnth & Ht).
  destruct old_att as [att |]; [| discriminate].
  exists att. split; [exact Hnth |].
  unfold translate_attribute in Ht. unfold identity_var.
  destruct (attisdropped att); injection Ht as <-; reflexivity.
Qed.

(** ** translate_col_privs *)

Section ColPrivs.

Context `{HeapEnv}.
Hypothesis Hlaws : bms_laws.

Local Notation "'low'" := FirstLowInvalidHeapAttributeNumber.

Lemma copy_system_privs_member (parent_privs : Bitmapset) (fuel : nat) :
  forall attno child_privs y,
    low < attno ->
    - attno <= Z.of_nat fuel ->
    bms_is_member y (copy_system_privs fuel attno parent_privs child_privs)
    = (((attno - low <=? y) && (y <? - low)) && bms_is_member y parent_privs)
      || bms_is_member y child_privs.
Proof.
  induction fuel as [| fuel IH]; intros attno child_privs y Hlow Hfuel.
  - cbn [copy_system_privs]. zcases.
  - cbn [copy_system_privs]. destruct (Z.ltb_spec attno 0) as [Hneg | Hpos].
    + rewrite IH by lia.
      destruct (bms_is_member (attno - low) parent_privs) eqn:Hmem.
      * rewrite (bms_add_member_spec Hlaws) by lia.
        destruct (Z.eqb_spec y (attno - low)) as [-> | Hne].
        -- rewrite Hmem.
           destruct (bms_is_member (attno - low) child_privs); zcases.
        -- destruct (bms_is_member y parent_privs),
             (bms_is_member y child_privs); zcases.
      * destruct (Z.eqb_spec y (attno - low)) as [-> | Hne].
        -- rewrite Hmem.
           destruct (bms_is_member (attno - low) child_privs); zcases.
        -- destruct (bms_is_member y parent_privs),
             (bms_is_member y child_privs); zcases.
    + zcases.
Qed.

Lemma translate_user_privs_member (parent_privs : Bitmapset) (whole_row : bool)
    (vars : list (option Var)) :
  forall attno child_privs y,
    Forall (fun var => match var with
                       | Some v => low <= varattno v
                       | None => True
                       end) vars ->
    bms_is_member y (translate_user_privs vars attno whole_row parent_privs
                                          child_privs) = true
    <-> (exists (i : nat) (v : Var),
           nth_error vars i = Some (Some v)
           /\ y = varattno v - low
           /\ (whole_row = true
               \/ bms_is_member (attno + Z.of_nat i + 1 - low) parent_privs = true))
        \/ bms_is_member y child_privs = true.
Proof.
  induction vars as [| var rest IH]; intros attno child_privs y Hvars.
  - cbn [translate_user_privs]. split; [intros Hm; right; exact Hm |].
    intros [(i & v & Hnth & _) | Hm]; [destruct i; discriminate | exact Hm].
  - inversion Hvars as [| ? ? Hvar Hrest]; subst.
    cbn [translate_user_privs]. destruct var as [v0 |].
    + rewrite IH by exact Hrest. split.
      * intros [(i & v & Hnth & Hy & Hpriv) | Hm].
        -- left. exists (S i), v. repeat split; [exact Hnth | exact Hy |].
           destruct Hpriv as [Hw | Hp]; [left; exact Hw | right].
           replace (attno + Z.of_nat (S i) + 1 - low)
             with (attno + 1 + Z.of_nat i + 1 - low) by lia. exact Hp.
        -- destruct (whole_row || bms_is_member (attno + 1 - low) parent_privs)
             eqn:Hgrant.
           ++ rewrite (bms_add_member_spec Hlaws) in Hm by lia.
              apply orb_true_iff in Hm as [Hy | Hm]; [| right; exact Hm].
              apply Z.eqb_eq in Hy. left. exists 0%nat, v0.
              repeat split; [exact Hy |].
              apply orb_true_iff in Hgrant as [Hw | Hp]; [left; exact Hw | right].
              replace (attno + Z.of_nat 0 + 1 - low) with (attno + 1 - low) by lia.
              exact Hp.
           ++ right. exact Hm.
      * intros [(i & v & Hnth & Hy & Hpriv) | Hm].
        -- destruct i as [| i].
           ++ injection Hnth as ->. right.
              assert (Hgrant : whole_row
                               || bms_is_member (attno + 1 - low) parent_privs = true).
              { apply orb_true_iff. destruct Hpriv as [Hw | Hp]; [left; exact Hw |].
                right.
                replace (attno + Z.of_nat 0 + 1 - low) with (attno + 1 - low) in Hp
                  by lia. exact Hp. }
              rewrite Hgrant. rewrite (bms_add_member_spec Hlaws) by lia.
              apply orb_true_iff. left. apply Z.eqb_eq. exact Hy.
           ++ left. exists i, v. repeat split; [exact Hnth | exact Hy |].
              destruct Hpriv as [Hw | Hp]; [left; exact Hw | right].
              replace (attno + 1 + Z.of_nat i + 1 - low)
                with (attno + Z.of_nat (S i) + 1 - low) by lia. exact Hp.
        -- right.
           destruct (whole_row || bms_is_member (attno + 1 - low) parent_privs);
             [| exact Hm].
           rewrite (bms_add_member_spec Hlaws) by lia.
           apply orb_true_iff. right. exact Hm.
    + rewrite IH by exact Hrest. split.
      * intros [(i & v & Hnth & Hy & Hpriv) | Hm]; [| right; exact Hm].
        left. exists (S i), v. repeat split; [exact Hnth | exact Hy |].
        destruct Hpriv as [Hw | Hp]; [left; exact Hw | right].
        replace (attno + Z.of_nat (S i) + 1 - low)
          with (attno + 1 + Z.of_nat i + 1 - low) by lia. exact Hp.
      * intros [(i & v & Hnth & Hy & Hpriv) | Hm]; [| right; exact Hm].
        destruct i as [| i]; [discriminate |].
        left. exists i, v. repeat split; [exact Hnth | exact Hy |].
        destruct Hpriv as [Hw | Hp]; [left; exact Hw | right].
        replace (attno + 1 + Z.of_nat i + 1 - low)
          with (attno + Z.of_nat (S i) + 1 - low) by lia. exact Hp.
Qed.

End ColPrivs.

(** The child's privileges, member by member. *)
Lemma translate_col_privs_core `{HeapEnv} (parent_privs : Bitmapset)
    (translated_vars : list (option Var)) (y : Z) :
  bms_laws ->
  Forall (fun var => match var with
                     | Some v => FirstLowInvalidHeapAttributeNumber <= varattno v
                     | None => True
                     end) translated_vars ->
  let low := FirstLowInvalidHeapAttributeNumber in
  bms_is_member y (translate_col_privs parent_privs translated_vars) = true
  <-> (0 < y < - low /\ bms_is_member y parent_privs = true)
      \/ exists (i : nat) (v : Var),
           nth_error translated_vars i = Some (Some v)
           /\ y = varattno v - low
           /\ (bms_is_member (- low) parent_privs = true
               \/ bms_is_member (Z.of_nat i + 1 - low) parent_privs = true).
Proof.
  intros Hlaws Hvars low. unfold translate_col_privs.
  rewrite (translate_user_privs_member Hlaws) by exact Hvars.
  pose proof (first_low_negative Hlaws) as Hneg. fold low in Hneg.
  rewrite (copy_system_privs_member Hlaws) by (fold low; lia).
  rewrite (bms_NULL_empty Hlaws), orb_false_r.
  unfold InvalidAttrNumber. fold low.
  replace (0 - low) with (- low) by lia.
  replace (low + 1 - low) with 1 by lia.
  split.
  - intros [(i & v & Hnth & Hy & Hpriv) | Hsys].
    + right. exists i, v. repeat split; [exact Hnth | exact Hy |].
      replace (Z.of_nat i + 1 - low) with (0 + Z.of_nat i + 1 - low) by lia.
      exact Hpriv.
    + left. apply andb_true_iff in Hsys as [Hrange Hm].
      apply andb_true_iff in Hrange as [Hlo Hhi].
      apply Z.leb_le in Hlo. apply Z.ltb_lt in Hhi.
      split; [lia | exact Hm].
  - intros [[Hrange Hm] | (i & v & Hnth & Hy & Hpriv)].
    + right. rewrite Hm, andb_true_r. apply andb_true_iff.
      split; [apply Z.leb_le | apply Z.ltb_lt]; lia.
    + left. exists i, v. repeat split; [exact Hnth | exact Hy |].
      replace (0 + Z.of_nat i + 1 - low) with (Z.of_nat i + 1 - low) by lia.
      exact Hpriv.
Qed.

(** X15.  Membership in the set translate_col_privs returns, for Vars
    numbered at or above the lowest system attribute: a member is in the
    child's set exactly when it lies strictly between 0 and the whole-row
    member and is in the parent's set, or it is the member of the
    attribute number of the Var at some position [i] of the list and the
    parent's set holds the whole-row member or the member of the parent's
    column [i + 1].  The two cases are not exclusive: a Var numbered as a
    system attribute adds its member whether or not the parent's set holds
    that member. *)
Theorem translate_col_privs_member `{HeapEnv} (parent_privs : Bitmapset)
    (translated_vars : list (option Var)) (y : Z) :
  bms_laws ->
  Forall (fun var => match var with
                     | Some v => FirstLowInvalidHeapAttributeNumber <= varattno v
                     | None => True
                     end) translated_vars ->
  let low := FirstLowInvalidHeapAttributeNumber in
  bms_is_member y (translate_col_privs parent_privs translated_vars) = true
  <-> (0 < y < - low /\ bms_is_member y parent_privs = true)
      \/ exists (i : nat) (v : Var),
           nth_error translated_vars i = Some (Some v)
           /\ y = varattno v - low
           /\ (bms_is_member (- low) parent_privs = true
               \/ bms_is_member (Z.of_nat i + 1 - low) parent_privs = true).
Proof.
  exact (translate_col_privs_core parent_privs translated_vars y).
Qed.

Lemma AttrNumber_of_small (x : Z) : - 2 ^ 15 <= x < 2 ^ 15 -> AttrNumber_of x = x.
Proof.
  intros Hx. unfold AttrNumber_of.
  rewrite Z.mod_small by lia. lia.
Qed.

Lemma attrs_at_bound (tupdesc : TupleDesc) (j : Z) (a : option FormData_pg_attribute) :
  attrs_at tupdesc j = Some a -> 0 <= j < Z.of_nat (length tupdesc).
Proof.
  unfold attrs_at. destruct (Z.ltb_spec j 0); [discriminate |].
  intros Hnth. assert (nth_error tupdesc (Z.to_nat j) <> None) as Hsome by congruence.
  apply nth_error_Some in Hsome. lia.
Qed.

(** X16.  The privileges of a partition, from those of its parent and
    the translation list make_inh_translation_list builds: the partition
    never gets the whole-row member; its system columns are the parent's;
    a user column of the partition is granted only if it is the namesake
    of a live parent column that is granted (by its own member or by the
    parent's whole-row member); and every live parent column so granted
    has a granted namesake in the partition. *)
Theorem translate_col_privs_of_translation
    `{HeapEnv} (oldrelation newrelation : Relation) (newvarno : Z)
    (vars : list (option Var)) (parent_privs : Bitmapset) :
  bms_laws ->
  rd_address oldrelation <> rd_address newrelation ->
  Z.of_nat (length (rd_att newrelation)) < 2 ^ 15 ->
  make_inh_translation_list oldrelation newrelation newvarno = OK vars ->
  let low := FirstLowInvalidHeapAttributeNumber in
  let child_privs := translate_col_privs parent_privs vars in
  let granted (i : nat) :=
    bms_is_member (InvalidAttrNumber - low) parent_privs = true
    \/ bms_is_member (Z.of_nat i + 1 - low) parent_privs = true in
  bms_is_member (InvalidAttrNumber - low) child_privs = false
  /\ (forall y, 0 < y < - low ->
                bms_is_member y child_privs = bms_is_member y parent_privs)
  /\ (forall j, 0 <= j ->
         bms_is_member (j + 1 - low) child_privs = true ->
         exists (i : nat) att natt,
           nth_error (rd_att oldrelation) i = Some (Some att)
           /\ attisdropped att = false
           /\ attrs_at (rd_att newrelation) j = Some (Some natt)
           /\ attisdropped natt = false
           /\ attname natt = attname att
           /\ granted i)
  /\ (forall (i : nat) att,
         nth_error (rd_att oldrelation) i = Some (Some att) ->
         attisdropped att = false ->
         granted i ->
         exists j natt,
           attrs_at (rd_att newrelation) j = Some (Some natt)
           /\ attisdropped natt = false
           /\ attname natt = attname att
           /\ bms_is_member (j + 1 - low) child_privs = true).
Proof.
  intros Hlaws Hdiff Hnatts Hmake low child_privs granted.
  destruct (translation_list_nth _ _ _ _ Hdiff Hmake) as [Hlen Hnth].
  pose proof (first_low_negative Hlaws) as Hneg. fold low in Hneg.
  assert (Hvar : forall (i : nat) v,
            nth_error vars i = Some (Some v) ->
            exists att j natt,
              nth_error (rd_att oldrelation) i = Some (Some att)
              /\ attisdropped att = false
              /\ attrs_at (rd_att newrelation) j = Some (Some natt)
              /\ attisdropped natt = false
              /\ attname natt = attname att
              /\ varattno v = j + 1 /\ 0 <= j).
  { intros i v Hv. destruct (Hnth i _ Hv) as (att & Hold & Htr).
    unfold translates in Htr. destruct (attisdropped att) eqn:Hlive; [discriminate |].
    destruct Htr as (j & natt & Hat & Hnlive & _ & Hname & _ & _ & _ & [= ->]).
    pose proof (attrs_at_bound _ _ _ Hat) as Hj.
    exists att, j, natt. cbn [varattno].
    rewrite AttrNumber_of_small by lia. repeat split; try assumption; lia. }
  assert (Hall : Forall (fun var => match var with
                                    | Some v => low <= varattno v
                                    | None => True
                                    end) vars).
  { apply Forall_forall. intros [v |] Hin; [| exact I].
    apply In_nth_error in Hin as [i Hi].
    destruct (Hvar i v Hi) as (_ & j & _ & _ & _ & _ & _ & _ & Hv & Hj). lia. }
  pose proof (fun y => translate_col_privs_core parent_privs vars y Hlaws Hall) as Hmem.
  cbv zeta in Hmem. fold low in Hmem. fold child_privs in Hmem.
  unfold InvalidAttrNumber in *. replace (0 - low) with (- low) in * by lia.
  repeat split.
  - destruct (bms_is_member (- low) child_privs) eqn:Hw; [| reflexivity].
    apply Hmem in Hw as [[Hrange _] | (i & v & Hv & Hy & _)]; [lia |].
    destruct (Hvar i v Hv) as (_ & j & _ & _ & _ & _ & _ & _ & Hvj & Hj). lia.
  - intros y Hy.
    destruct (bms_is_member y parent_privs) eqn:Hp.
    + apply Hmem. left. split; assumption.
    + destruct (bms_is_member y child_privs) eqn:Hc; [| reflexivity].
      apply Hmem in Hc as [[_ Hc] | (i & v & Hv & Hyv & _)]; [congruence |].
      destruct (Hvar i v Hv) as (_ & j & _ & _ & _ & _ & _ & _ & Hvj & Hj). lia.
  - intros j Hj Hc.
    apply Hmem in Hc as [[Hrange _] | (i & v & Hv & Hyv & Hgrant)]; [lia |].
    destruct (Hvar i v Hv) as (att & j' & natt & Hold & Hlive & Hat & Hnlive
                               & Hname & Hvj & Hj').
    assert (j' = j) as -> by lia.
    exists i, att, natt. repeat split; assumption.
  - intros i att Hold Hlive Hgrant.
    assert (Hi : (i < length vars)%nat).
    { rewrite Hlen. apply nth_error_Some. congruence. }
    destruct (nth_error vars i) as [var |] eqn:Hv;
      [| apply nth_error_None in Hv; lia].
    destruct (Hnth i var Hv) as (att' & Hold' & Htr).
    rewrite Hold in Hold'. injection Hold' as <-.
    unfold translates in Htr. rewrite Hlive in Htr.
    destruct Htr as (j & natt & Hat & Hnlive & _ & Hname & _ & _ & _ & ->).
    pose proof (attrs_at_bound _ _ _ Hat) as Hj.
    exists j, natt. repeat split; try assumption.
    apply Hmem. right. eexists i, _. split; [exact Hv |].
    cbn [varattno]. rewrite AttrNumber_of_small by lia.
    split; [reflexivity | exact Hgrant].
Qed.

(** ** The code on explicit inputs *)

(** btint4cmp obeys the comparator laws. *)
Lemma btint4cmp_order (collid : Oid) : cmp_order (btint4cmp collid).
Proof.
  split; unfold btint4cmp.
  - intros a b. destruct (Z.compare_spec a b), (Z.compare_spec b a); lia.
  - intros a b c.
    destruct (Z.compare_spec a b), (Z.compare_spec b c), (Z.compare_spec a c); lia.
Qed.

(** C1 (the code departs from the claim).  The claim: on an ordered,
    non-overlapping ranges array, gaps allowed, the rangeset of
    select_range_partitions holds every partition whose span has a key
    satisfying [key OP value].  The code on the two partitions [0, 10) and
    [20, 30) and the value 15, which lies in the gap: under [key < 15] and
    under [key > 15] alike the search leaves through its gap exit and the
    rangeset is empty, although partition 0 holds the key 5 < 15 and
    partition 1 holds the key 25 > 15. *)
Theorem select_range_partitions_omits_partition_beside_gap :
  ranges_sorted btint4cmp InvalidOid ranges_with_gap = true
  /\ (exists w,
        select_range_partitions 15 InvalidOid btint4cmp ranges_with_gap 2
                                BTLessStrategyNumber palloc0_WrapperNode = OK w
        /\ rangeset w = [] /\ found_gap w = true
        /\ ranges_at ranges_with_gap 0 = Some (int4_range 0 10)
        /\ span_contains btint4cmp InvalidOid (int4_range 0 10) 5 = true
        /\ key_satisfies btint4cmp InvalidOid BTLessStrategyNumber 5 15 = true
        /\ irange_list_mem (rangeset w) 0 = false)
  /\ (exists w,
        select_range_partitions 15 InvalidOid btint4cmp ranges_with_gap 2
                                BTGreaterStrategyNumber palloc0_WrapperNode = OK w
        /\ rangeset w = [] /\ found_gap w = true
        /\ ranges_at ranges_with_gap 1 = Some (int4_range 20 30)
        /\ span_contains btint4cmp InvalidOid (int4_range 20 30) 25 = true
        /\ key_satisfies btint4cmp InvalidOid BTGreaterStrategyNumber 25 15 = true
        /\ irange_list_mem (rangeset w) 1 = false).
Proof.
  split; [reflexivity |].
  split; eexists; (split; [vm_compute; reflexivity |]); repeat split.
Qed.

(** C2 at the constant 6 over four hash partitions: index 6 mod 4. *)
Lemma handle_const_hash_equality_witness :
  exists w,
    handle_const (int4_const 6) BTEqualStrategyNumber (int4_context (hash_prel 4))
                 palloc0_WrapperNode = OK w
    /\ rangeset w = [make_irange 2 2 IR_LOSSY].
Proof.
  refine (proj2 (handle_const_hash_equality
                   (int4_const 6) (int4_context (hash_prel 4))
                   palloc0_WrapperNode _ _ _ _)).
  - reflexivity.
  - vm_compute. discriminate.
  - reflexivity.
  - vm_compute. discriminate.
Defined.

(** C3 as stated fails on the constant true: the full span comes back
    tagged LOSSY, not COMPLETE. *)
Lemma walk_const_true_is_lossy :
  exists w,
    walk_expr_tree (T_Const true_const) three_ranges_context = OK w
    /\ rangeset w = [make_irange 0 2 IR_LOSSY]
    /\ rangeset w
       <> list_make1_irange_full (range_prel ranges_0_10_20_30) IR_COMPLETE.
Proof.
  eexists. split; [reflexivity |]. split; [reflexivity | discriminate].
Qed.

(** C3, amended, at a NULL constant and at the constant true. *)
Lemma walk_const_null_false_true_witness :
  (exists w,
     walk_expr_tree (T_Const null_const) three_ranges_context = OK w
     /\ rangeset w = [] /\ paramsel w = 0%float)
  /\ (exists w,
        walk_expr_tree (T_Const true_const) three_ranges_context = OK w
        /\ rangeset w = [make_irange 0 2 IR_LOSSY] /\ paramsel w = 1%float).
Proof.
  split.
  - apply (proj1 (walk_const_null_false_true null_const three_ranges_context)).
    left. reflexivity.
  - apply (proj2 (walk_const_null_false_true true_const three_ranges_context)).
    + reflexivity.
    + reflexivity.
    + vm_compute. discriminate.
Defined.

(** C4 at the value 15 between [0, 10) and [20, 30). *)
Lemma select_range_partitions_equality_in_gap_witness :
  exists w,
    select_range_partitions 15 InvalidOid btint4cmp ranges_with_gap 2
                            BTEqualStrategyNumber palloc0_WrapperNode = OK w
    /\ rangeset w = [] /\ found_gap w = true.
Proof.
  apply (select_range_partitions_equality_in_gap
           15 InvalidOid btint4cmp ranges_with_gap 2
           (int4_range 0 10) (int4_range 20 30)).
  - reflexivity.
  - reflexivity.
  - reflexivity.
  - vm_compute. discriminate.
  - reflexivity.
  - reflexivity.
Defined.

(** C5 as stated fails when one of the two partitions is empty.  With
    [0, 10) and [10, 10), k = 0 and the value 10, [key >= 10] selects
    nothing where the claim has {[1, 1], COMPLETE}; with [10, 10) and
    [10, 20), [key < 10] selects nothing where the claim has
    {[0, 0], COMPLETE}. *)
Lemma shared_bound_of_empty_partition :
  (ranges_sorted btint4cmp InvalidOid [int4_range 0 10; int4_range 10 10] = true
   /\ cmp_bounds btint4cmp InvalidOid
        (max (int4_range 0 10)) (min (int4_range 10 10)) = 0
   /\ exists w,
        select_range_partitions 10 InvalidOid btint4cmp
          [int4_range 0 10; int4_range 10 10] 2
          BTGreaterEqualStrategyNumber palloc0_WrapperNode = OK w
        /\ rangeset w = []
        /\ rangeset w <> [make_irange 1 1 IR_COMPLETE])
  /\ (ranges_sorted btint4cmp InvalidOid [int4_range 10 10; int4_range 10 20] = true
      /\ cmp_bounds btint4cmp InvalidOid
           (max (int4_range 10 10)) (min (int4_range 10 20)) = 0
      /\ exists w,
           select_range_partitions 10 InvalidOid btint4cmp
             [int4_range 10 10; int4_range 10 20] 2
             BTLessStrategyNumber palloc0_WrapperNode = OK w
           /\ rangeset w = []
           /\ rangeset w <> [make_irange 0 0 IR_COMPLETE]).
Proof.
  split; (split; [reflexivity |]); (split; [reflexivity |]);
    eexists; (split; [reflexivity |]); (split; [reflexivity | discriminate]).
Qed.

(** C5, amended, at the bound 10 shared by [0, 10) and [10, 20). *)
Lemma select_range_partitions_shared_bound_witness :
  (exists w,
     select_range_partitions 10 InvalidOid btint4cmp ranges_0_10_20_30 3
                             BTGreaterEqualStrategyNumber palloc0_WrapperNode = OK w
     /\ rangeset w = [make_irange 1 2 IR_COMPLETE] /\ found_gap w = false)
  /\ (exists w,
        select_range_partitions 10 InvalidOid btint4cmp ranges_0_10_20_30 3
                                BTLessStrategyNumber palloc0_WrapperNode = OK w
        /\ rangeset w = [make_irange 0 0 IR_COMPLETE] /\ found_gap w = false).
Proof.
  apply (select_range_partitions_shared_bound
           10 InvalidOid btint4cmp ranges_0_10_20_30 3 0
           (int4_range 0 10) (int4_range 10 20)).
  - apply btint4cmp_order.
  - reflexivity.
  - reflexivity.
  - reflexivity.
  - reflexivity.
  - reflexivity.
  - reflexivity.
  - reflexivity.
  - reflexivity.
Defined.

(** X19 at partition 0 of the walked [key = 5 OR key = 25]. *)
Lemma wrapper_make_expression_cases_witness :
  wrapper_make_expression or_5_25_wrapper 0
  = (do rs <- res_map (fun child => wrapper_make_expression child 0)
                      (args or_5_25_wrapper);
     OK (match surviving rs with
         | [single] => Filter single
         | survivors => Filter (T_BoolExpr OR_EXPR survivors 0)
         end)).
Proof.
  apply (proj1 (proj2 (proj2 (wrapper_make_expression_cases or_5_25_wrapper 0)))
           eq_refl OR_EXPR [key_op 96 5; key_op 96 25] 0).
  - reflexivity.
  - discriminate.
Defined.


(** C8 at [key = ANY ({1, 2, 3})] over four hash partitions. *)
Lemma handle_arrexpr_const_array_witness :
  walk_expr_tree key_in_1_2_3 (int4_context (hash_prel 4))
  = OK (mkWrapperNode (Some key_in_1_2_3) [] [make_irange 1 3 IR_LOSSY] false
                      0.25%float).
Proof.
  unfold key_in_1_2_3.
  rewrite (@handle_arrexpr_const_array int4_env 96 true (T_Var 1)
              (mkConst 1007 (-1) InvalidOid 1000 false)
              (int4_context (hash_prel 4)) eq_refl eq_refl).
  reflexivity.
Defined.

(** C9 (the code departs from the claim).  The claim: every node of a walk
    has paramsel in [0, 1].  The code on [key = 100 OR key = 200] over the
    partitions [0, 10), [10, 20), [20, 30): both tests select nothing, the
    union has length 0, the OR branch divides by that length and paramsel
    is NaN, which is not in [0, 1]. *)
Theorem walk_or_of_empty_rangesets_paramsel :
  exists w,
    walk_expr_tree (T_BoolExpr OR_EXPR [key_op 96 100; key_op 96 200] 0)
                   three_ranges_context
    = OK w
    /\ rangeset w = []
    /\ irange_list_length (rangeset w) = 0
    /\ paramsel_in_unit_interval (paramsel w) = false.
Proof.
  eexists. split; [vm_compute; reflexivity |]. repeat split.
Qed.

(** C10 at the value 10, the min bound of partition 1. *)
Lemma select_range_partitions_equality_lossy_witness :
  exists w,
    select_range_partitions 10 InvalidOid btint4cmp ranges_0_10_20_30 3
                            BTEqualStrategyNumber palloc0_WrapperNode = OK w
    /\ rangeset w = [make_irange 1 1 IR_LOSSY].
Proof.
  apply (proj2 (select_range_partitions_equality_lossy
                  10 InvalidOid btint4cmp ranges_0_10_20_30 3
                  palloc0_WrapperNode eq_refl) 1 (int4_range 10 20)).
  - apply btint4cmp_order.
  - reflexivity.
  - reflexivity.
  - reflexivity.
Defined.

(** X1 at [key < 15] over the two partitions with a gap. *)
Lemma select_range_partitions_returns_witness :
  exists w,
    select_range_partitions 15 InvalidOid btint4cmp ranges_with_gap 2
                            BTLessStrategyNumber palloc0_WrapperNode = OK w.
Proof.
  apply (select_range_partitions_returns
           15 InvalidOid btint4cmp ranges_with_gap 2 BTLessStrategyNumber
           palloc0_WrapperNode).
  - reflexivity.
  - vm_compute. split; discriminate.
Defined.

(** X2 at [key < 15] over the three adjoining partitions: partition 0
    holds the key 5. *)
Lemma select_range_partitions_sound_without_gap_witness :
  irange_list_mem
    (rangeset
       (walked (select_range_partitions 15 InvalidOid btint4cmp ranges_0_10_20_30 3
                  BTLessStrategyNumber palloc0_WrapperNode))) 0
  = true.
Proof.
  apply (select_range_partitions_sound_without_gap
           15 InvalidOid btint4cmp ranges_0_10_20_30 3 BTLessStrategyNumber
           palloc0_WrapperNode _ (btint4cmp_order InvalidOid) eq_refl eq_refl
           eq_refl eq_refl 0 (int4_range 0 10) 5).
  - reflexivity.
  - reflexivity.
  - reflexivity.
Defined.

(** X3 at [key < 15] over the three adjoining partitions. *)
Lemma select_range_partitions_rangeset_valid_witness :
  irange_list_valid 3
    (rangeset
       (walked (select_range_partitions 15 InvalidOid btint4cmp ranges_0_10_20_30 3
                  BTLessStrategyNumber palloc0_WrapperNode)))
  = true.
Proof.
  apply (select_range_partitions_rangeset_valid
           15 InvalidOid btint4cmp ranges_0_10_20_30 3 BTLessStrategyNumber
           palloc0_WrapperNode _ eq_refl eq_refl).
Defined.

(** X4 at [key < 15] over the three adjoining partitions: partition 0 is
    tagged COMPLETE, and its key 5 is below 15. *)
Lemma select_range_partitions_complete_tag_witness :
  key_satisfies btint4cmp InvalidOid BTLessStrategyNumber 5 15 = true.
Proof.
  apply (select_range_partitions_complete_tag
           15 InvalidOid btint4cmp ranges_0_10_20_30 3 BTLessStrategyNumber
           palloc0_WrapperNode _ (btint4cmp_order InvalidOid) eq_refl eq_refl
           eq_refl 0 (int4_range 0 10) 5).
  - reflexivity.
  - reflexivity.
  - reflexivity.
Defined.

(** X5 at [key = 15] over the two partitions with a gap. *)
Lemma select_range_partitions_found_gap_iff_witness :
  found_gap
    (walked (select_range_partitions 15 InvalidOid btint4cmp ranges_with_gap 2
               BTEqualStrategyNumber palloc0_WrapperNode))
  = true.
Proof.
  apply (proj2 (select_range_partitions_found_gap_iff
                  15 InvalidOid btint4cmp ranges_with_gap 2 palloc0_WrapperNode _
                  (btint4cmp_order InvalidOid) eq_refl eq_refl eq_refl)).
  split; [| reflexivity].
  exists (int4_range 0 10), (int4_range 20 30).
  repeat split; vm_compute; discriminate.
Defined.

(** X6 over the three adjoining partitions: two iterations are enough. *)
Lemma range_search_logarithmic_witness :
  range_search 2 (MakeBound 15) InvalidOid btint4cmp ranges_0_10_20_30
               BTLessStrategyNumber 0 2
  = range_search 3 (MakeBound 15) InvalidOid btint4cmp ranges_0_10_20_30
                 BTLessStrategyNumber 0 2
  /\ range_search 2 (MakeBound 15) InvalidOid btint4cmp ranges_0_10_20_30
                  BTLessStrategyNumber 0 2
     <> LoopNoFuel.
Proof.
  refine (range_search_logarithmic 15 InvalidOid btint4cmp ranges_0_10_20_30
            BTLessStrategyNumber _).
  discriminate.
Defined.

(** X7 at [key > 15] over the three adjoining partitions: partition 2
    holds the key 25. *)
Lemma select_range_partitions_sound_contiguous_witness :
  irange_list_mem
    (rangeset
       (walked (select_range_partitions 15 InvalidOid btint4cmp ranges_0_10_20_30 3
                  BTGreaterStrategyNumber palloc0_WrapperNode))) 2
  = true.
Proof.
  refine (proj2 (select_range_partitions_sound_contiguous
                   15 InvalidOid btint4cmp ranges_0_10_20_30 3
                   BTGreaterStrategyNumber palloc0_WrapperNode _
                   (btint4cmp_order InvalidOid) eq_refl eq_refl eq_refl _ eq_refl)
                2 (int4_range 20 30) 25 eq_refl eq_refl eq_refl).
  vm_compute. split; discriminate.
Defined.

(** X8 at [15 < key] over the three adjoining partitions: the rangeset is
    that of [key < 15], without partition 2. *)
Lemma walk_ignores_operand_order_witness :
  rangeset
    (walked (walk_expr_tree (T_OpExpr 97 [T_Const (int4_const 15); T_Var 1])
                            three_ranges_context))
  = [make_irange 0 0 IR_COMPLETE; make_irange 1 1 IR_LOSSY].
Proof.
  rewrite (@walk_ignores_operand_order int4_env 97 (T_Var 1) (int4_const 15)
             three_ranges_context eq_refl eq_refl).
  reflexivity.
Defined.

(** The leaves of the example clause are among those the theorems cover. *)
Lemma key_op_leaf (opno : Oid) (v : Z) :
  BTLessStrategyNumber <= int4_strategy opno <= BTGreaterStrategyNumber ->
  pruning_leaf three_ranges_context btint4cmp InvalidOid (key_op opno v).
Proof.
  intros Hstrat. unfold key_op. apply leaf_key_op_const.
  - reflexivity.
  - reflexivity.
  - discriminate.
  - exact Hstrat.
  - reflexivity.
  - reflexivity.
Qed.

Lemma and_or_clause_leaves :
  Forall (pruning_leaf three_ranges_context btint4cmp InvalidOid)
         (clause_leaves and_or_clause).
Proof.
  unfold and_or_clause. cbn [clause_leaves flat_map app].
  constructor; [apply key_op_leaf; vm_compute; split; discriminate |].
  constructor; [apply key_op_leaf; vm_compute; split; discriminate |].
  constructor; [apply leaf_other | constructor].
Qed.

(** X9 at the example clause and partition 0. *)
Lemma walk_and_or_agree_witness :
  filter_agrees
    (comparison_truth three_ranges_context btint4cmp InvalidOid (fun _ _ => true))
    and_or_clause
    (partition_span btint4cmp InvalidOid ranges_0_10_20_30 0)
    (wrapper_make_expression
       (walked (walk_expr_tree and_or_clause three_ranges_context)) 0).
Proof.
  apply (@walk_and_or_agree int4_env three_ranges_context
           (comparison_truth three_ranges_context btint4cmp InvalidOid
                             (fun _ _ => true))
           (partition_span btint4cmp InvalidOid ranges_0_10_20_30)
           and_or_clause _ 0).
  - eapply Forall_impl; [| exact and_or_clause_leaves].
    intros leaf Hleaf.
    apply (@pruning_leaf_agrees int4_env three_ranges_context btint4cmp InvalidOid
             (fun _ _ => true) eq_refl eq_refl (btint4cmp_order InvalidOid)
             eq_refl eq_refl leaf Hleaf).
  - reflexivity.
  - vm_compute. split; [discriminate | reflexivity].
Defined.

(** X10 at the example clause and partition 1. *)
Lemma range_clause_filter_agrees_witness :
  filter_agrees
    (comparison_truth three_ranges_context btint4cmp InvalidOid (fun _ _ => true))
    and_or_clause
    (span_contains btint4cmp InvalidOid (int4_range 10 20))
    (wrapper_make_expression
       (walked (walk_expr_tree and_or_clause three_ranges_context)) 1).
Proof.
  apply (@range_clause_filter_agrees int4_env three_ranges_context btint4cmp
           InvalidOid (fun _ _ => true) and_or_clause _ 1 (int4_range 10 20)
           eq_refl eq_refl (btint4cmp_order InvalidOid) eq_refl eq_refl
           and_or_clause_leaves eq_refl eq_refl).
Defined.

(** X11 at the restrictions [key < 15 AND (key = 5 OR other)] and
    [key >= 3], for partition 1. *)
Lemma append_child_quals_equivalent_witness :
  exists filters,
    append_child_quals
      [walked (walk_expr_tree and_or_clause three_ranges_context);
       walked (walk_expr_tree (key_op 525 3) three_ranges_context)]
      [mkRestrictInfo and_or_clause; mkRestrictInfo (key_op 525 3)] 1 []
    = OK (map Some filters)
    /\ forall key,
         span_contains btint4cmp InvalidOid (int4_range 10 20) key = true ->
         forallb (fun f =>
                    clause_holds
                      (comparison_truth three_ranges_context btint4cmp InvalidOid
                                        (fun _ _ => true)) f key) filters
         = forallb (fun rinfo =>
                      clause_holds
                        (comparison_truth three_ranges_context btint4cmp InvalidOid
                                          (fun _ _ => true)) (clause rinfo) key)
                   [mkRestrictInfo and_or_clause; mkRestrictInfo (key_op 525 3)].
Proof.
  apply (@append_child_quals_equivalent int4_env three_ranges_context btint4cmp
           InvalidOid (fun _ _ => true)
           [mkRestrictInfo and_or_clause; mkRestrictInfo (key_op 525 3)]
           [walked (walk_expr_tree and_or_clause three_ranges_context);
            walked (walk_expr_tree (key_op 525 3) three_ranges_context)]
           1 (int4_range 10 20)
           eq_refl eq_refl (btint4cmp_order InvalidOid) eq_refl eq_refl).
  - constructor; [exact and_or_clause_leaves |].
    constructor; [| constructor].
    constructor; [| constructor].
    apply key_op_leaf. vm_compute. split; discriminate.
  - constructor; [reflexivity |]. constructor; [reflexivity | constructor].
  - reflexivity.
  - constructor; [reflexivity |]. constructor; [reflexivity | constructor].
Defined.

(** X12 at the parent (id, dropped, val) and its partition (val, id). *)
Lemma make_inh_translation_list_translates_witness :
  Forall2 (fun old_att v =>
             exists att, old_att = Some att
                         /\ translates (rd_att child_relation) 2 att v)
          (rd_att parent_relation)
          [Some (makeVar 2 2 INT4OID (-1) InvalidOid 0); None;
           Some (makeVar 2 1 INT4OID (-1) InvalidOid 0)].
Proof.
  apply (make_inh_translation_list_translates parent_relation child_relation 2).
  - discriminate.
  - reflexivity.
Defined.

(** X13 at the same two relations. *)
Lemma make_inh_translation_list_succeeds_witness :
  exists vars, make_inh_translation_list parent_relation child_relation 2 = OK vars.
Proof.
  apply (make_inh_translation_list_succeeds parent_relation child_relation 2).
  - discriminate.
  - repeat constructor; discriminate.
  - repeat constructor; discriminate.
  - intros att [Hatt | [Hatt | [Hatt | []]]] Hlive; injection Hatt as <-;
      try discriminate.
    + split.
      * exists (int4_attribute "id"%string 1). split; [right; left |]; reflexivity.
      * intros natt [Hn | [Hn | []]] Hm; injection Hn as <-;
          try discriminate; repeat split.
    + split.
      * exists (int4_attribute "val"%string 1). split; [left |]; reflexivity.
      * intros natt [Hn | [Hn | []]] Hm; injection Hn as <-;
          try discriminate; repeat split.
Defined.

(** X14 at the parent, translated to itself. *)
Lemma make_inh_translation_list_same_relation_witness :
  length [Some (makeVar 1 1 INT4OID (-1) InvalidOid 0); None;
          Some (makeVar 1 3 INT4OID (-1) InvalidOid 0)]
  = length (rd_att parent_relation).
Proof.
  apply (make_inh_translation_list_same_relation parent_relation 1
           [Some (makeVar 1 1 INT4OID (-1) InvalidOid 0); None;
            Some (makeVar 1 3 INT4OID (-1) InvalidOid 0)] eq_refl).
Defined.

(** Bit vectors obey the laws of bitmapsets. *)
Lemma bits_laws : @bms_laws bits_env.
Proof.
  constructor.
  - intros x. apply Z.testbit_0_l.
  - intros a x y Hx. cbn. rewrite Z.setbit_eqb by exact Hx.
    rewrite (Z.eqb_sym x y). reflexivity.
  - cbn. lia.
Qed.

(** X15 at the privileges (ctid, val) of the parent and the translation
    list of the partition: member 9 is the partition's column 1. *)
Lemma translate_col_privs_member_witness :
  @bms_is_member bits_env 9
    (translate_col_privs parent_privs_ctid_val
       [Some (makeVar 2 2 INT4OID (-1) InvalidOid 0); None;
        Some (makeVar 2 1 INT4OID (-1) InvalidOid 0)])
  = true.
Proof.
  refine (proj2 (@translate_col_privs_member bits_env parent_privs_ctid_val
                   [Some (makeVar 2 2 INT4OID (-1) InvalidOid 0); None;
                    Some (makeVar 2 1 INT4OID (-1) InvalidOid 0)]
                   9 bits_laws _) _).
  - repeat constructor; cbn; lia.
  - right. exists 2%nat, (makeVar 2 1 INT4OID (-1) InvalidOid 0).
    repeat split. right. reflexivity.
Defined.

(** X16 at the same privileges and relations: no whole-row member. *)
Lemma translate_col_privs_of_translation_witness :
  @bms_is_member bits_env (InvalidAttrNumber - -8)
    (translate_col_privs parent_privs_ctid_val
       [Some (makeVar 2 2 INT4OID (-1) InvalidOid 0); None;
        Some (makeVar 2 1 INT4OID (-1) InvalidOid 0)])
  = false.
Proof.
  refine (proj1 (@translate_col_privs_of_translation bits_env parent_relation
                   child_relation 2
                   [Some (makeVar 2 2 INT4OID (-1) InvalidOid 0); None;
                    Some (makeVar 2 1 INT4OID (-1) InvalidOid 0)]
                   parent_privs_ctid_val bits_laws _ eq_refl eq_refl)).
  discriminate.
Defined.

(** X17 at the constant true over the three adjoining partitions. *)
Lemma walk_expr_tree_orig_witness :
  exists msg,
    wrapper_make_expression
      (walked (walk_expr_tree (T_Const true_const) three_ranges_context)) 0
    = Error msg.
Proof.
  apply (proj2 (@walk_expr_tree_orig int4_env (T_Const true_const)
                  three_ranges_context _ eq_refl)).
  reflexivity.
Defined.

(** The strategies of the int4 operators. *)
Lemma int4_strategy_range (opno : Oid) : 0 <= int4_strategy opno <= 5.
Proof.
  unfold int4_strategy.
  repeat match goal with
         | |- context [if ?b then _ else _] =>
           destruct b; [vm_compute; split; discriminate |]
         end.
  lia.
Qed.

(** X18 at the example clause. *)
Lemma walk_expr_tree_returns_witness :
  exists w, walk_expr_tree and_or_clause three_ranges_context = OK w.
Proof.
  apply (@walk_expr_tree_returns int4_env three_ranges_context and_or_clause).
  - intros opno opf. apply int4_strategy_range.
  - left. split; reflexivity.
Defined.
